(** * BRSP serial bridge (package gatt, brsp.go): ring queue and engine

    A shallow embedding of the growable ring queue [brspQueue], of the
    engine's event handlers and loop, of the transmission pump and of
    [OpenBRSP], followed by the properties stated for them.

    Go's [int] values are slice lengths and indices here; they are kept
    as [Z] (signed, so that the subtractions of the source keep their
    sign), and no slice is long enough to overflow a 64-bit integer.
    A slice expression out of range panics in Go; the slices below are
    total and clamp instead, and [wf] below bounds the cursors in every
    state the queue can reach, where each slice that [read] and [write]
    take is in range. *)

From Stdlib Require Import ZArith List Lia Bool String.
From Stdlib Require Import Init.Byte.
Import ListNotations.
Local Open Scope Z_scope.

Set Implicit Arguments.

(** ** Go slices *)

Section Slices.
Context {A : Type}.

(** [len(l)] *)
Definition len (l : list A) : Z := Z.of_nat (List.length l).

(** [l[lo:]] *)
Definition slice_from (l : list A) (lo : Z) : list A := skipn (Z.to_nat lo) l.

(** [l[:hi]] *)
Definition slice_to (l : list A) (hi : Z) : list A := firstn (Z.to_nat hi) l.

(** [l[lo:hi]] *)
Definition slice (l : list A) (lo hi : Z) : list A :=
  slice_to (slice_from l lo) (hi - lo).

(** [copy(dst, src)]: the first [min(len(dst), len(src))] elements of
    [dst] are overwritten; the result is the new [dst] and the count. *)
Definition copy (dst src : list A) : list A * Z :=
  let n := Z.min (len dst) (len src) in
  (slice_to src n ++ slice_from dst n, n).

(** [copy(dst[off:], src)], seen from [dst]: a slice shares the array
    of the slice it was cut from. *)
Definition copy_at (dst : list A) (off : Z) (src : list A) : list A * Z :=
  let '(d, n) := copy (slice_from dst off) src in
  (slice_to dst off ++ d, n).
End Slices.

(** [make([]byte, n)] *)
Definition make (n : Z) : list byte := repeat x00 (Z.to_nat n).

(** ** The ring queue *)

Record brspQueue : Type := mkQueue {
  data : list byte;
  head : Z;
  tail : Z
}.

(** The zero value of the struct: a nil slice and both cursors 0. *)
Definition zeroQueue : brspQueue := mkQueue [] 0 0.

Definition queued (q : brspQueue) : Z :=
  if head q >=? tail q then head q - tail q
  else len (data q) + head q - tail q.

(** [read] returns the queue after the call, the caller's buffer [p]
    after the call, and the count. *)
Definition read (q : brspQueue) (p : list byte) : brspQueue * list byte * Z :=
  let '(q1, p1, n) :=
    if head q >=? tail q then
      let '(p1, n) := copy p (slice (data q) (tail q) (head q)) in
      (mkQueue (data q) (head q) (tail q + n), p1, n)
    else
      let '(p1, n) := copy p (slice_from (data q) (tail q)) in
      let t := tail q + n in
      if t =? len (data q) then
        let '(p2, m) := copy_at p1 n (slice_to (data q) (head q)) in
        (mkQueue (data q) (head q) m, p2, n + m)
      else
        (mkQueue (data q) (head q) t, p1, n) in
  let q2 :=
    if tail q1 =? head q1 then mkQueue (data q1) 0 0 else q1 in
  (q2, p1, n).

Definition write (q : brspQueue) (p : list byte) : brspQueue :=
  let space := len (data q) - queued q in
  let q1 :=
    if len p >=? space then
      let need := len p - space + 1 in
      let need := if need <? 256 then 256 else need in
      let '(_, data', n) := read q (make (len (data q) + need)) in
      mkQueue data' n 0
    else q in
  let n := len (data q1) - head q1 in
  let '(q2, p2) :=
    if n <? len p then
      (mkQueue (fst (copy_at (data q1) (head q1) p)) 0 (tail q1),
       slice_from p n)
    else (q1, p) in
  mkQueue (fst (copy_at (data q2) (head q2) p2)) (head q2 + len p2) (tail q2).

(** The bytes the queue holds, oldest first (specification only). *)
Definition contents (q : brspQueue) : list byte :=
  if head q >=? tail q then slice (data q) (tail q) (head q)
  else slice_from (data q) (tail q) ++ slice_to (data q) (head q).

(** The cursors index the buffer, equal cursors are both 0, and the
    buffer is never completely full. *)
Definition wf (q : brspQueue) : Prop :=
  0 <= tail q /\ 0 <= head q <= len (data q) /\
  (tail q < len (data q) \/ (tail q = 0 /\ head q = 0)) /\
  (head q = tail q -> head q = 0) /\
  (data q = [] \/ queued q < len (data q)).

(** States reachable from the zero value by [write] and [read]. *)
Inductive reachable : brspQueue -> Prop :=
| reach_zero : reachable zeroQueue
| reach_write q p : reachable q -> reachable (write q p)
| reach_read q p : reachable q -> reachable (fst (fst (read q p))).

(** A call made on the queue: [write(p)], or [read(p)] with the
    caller's buffer [p]. *)
Inductive QueueOp : Type :=
| OpWrite (p : list byte)
| OpRead (p : list byte).

(** The state of a run: the queue, the concatenation of the bytes the
    reads returned ([p[:n]] of each), and of the bytes written. *)
Record QueueRun : Type := mkRun {
  run_queue : brspQueue;
  run_read : list byte;
  run_written : list byte
}.

Definition run_op (r : QueueRun) (o : QueueOp) : QueueRun :=
  match o with
  | OpWrite p =>
      mkRun (write (run_queue r) p) (run_read r) (run_written r ++ p)
  | OpRead p =>
      let '(q, p', n) := read (run_queue r) p in
      mkRun q (run_read r ++ slice_to p' n) (run_written r)
  end.

Definition run_ops (ops : list QueueOp) : QueueRun :=
  fold_left run_op ops (mkRun zeroQueue [] []).

(** The invariant of a run: what was read, followed by what the queue
    still holds, is what was written. *)
Definition run_inv (r : QueueRun) : Prop :=
  wf (run_queue r) /\
  run_read r ++ contents (run_queue r) = run_written r.

(** The two phases of [write], named for the proofs: making room, then
    storing [p] in at most two pieces. *)
Definition grow (q : brspQueue) (p : list byte) : brspQueue :=
  let space := len (data q) - queued q in
  if len p >=? space then
    let need := len p - space + 1 in
    let need := if need <? 256 then 256 else need in
    let '(_, data', n) := read q (make (len (data q) + need)) in
    mkQueue data' n 0
  else q.

Definition store (q1 : brspQueue) (p : list byte) : brspQueue :=
  let n := len (data q1) - head q1 in
  let '(q2, p2) :=
    if n <? len p then
      (mkQueue (fst (copy_at (data q1) (head q1) p)) 0 (tail q1),
       slice_from p n)
    else (q1, p) in
  mkQueue (fst (copy_at (data q2) (head q2) p2)) (head q2 + len p2) (tail q2).

(** A run for the examples: one byte in and out leaves an empty queue
    of capacity 256 with its cursors reset; 300 bytes then force the
    reallocation and are read back. *)
Definition bytes_from (start count : nat) : list byte :=
  map (fun n => match Byte.of_nat (n mod 256) with
                | Some b => b
                | None => x00
                end) (seq start count).

Definition ops_300 : list QueueOp :=
  [OpWrite [x01]; OpRead (make 1);
   OpWrite (bytes_from 0 300); OpRead (make 300)].

(** ** Errors, identifiers and the peripheral *)

(** Go's [error] values as the bridge sees them; [nil] is [None] of
    [option error].  What the transport reports is opaque to the bridge. *)
Inductive error : Type :=
| ErrNotBRSP
| ErrTimeout
| ErrClosed
| ErrTransport (code : Z).

(** Modelled from the spec: the [UUID] type with [MustParseUUID] and
    [Equal] is declared elsewhere in the package.  A UUID is a fixed
    128-bit identifier, kept here by the text it is parsed from;
    [Equal] compares identifiers. *)
Definition UUID : Type := string.
Definition MustParseUUID (s : string) : UUID := s.
Definition Equal (u v : UUID) : bool := String.eqb u v.

Definition brspService : UUID := MustParseUUID "DA2B84F1-6279-48DE-BDC0-AFBEA0226079".
Definition brspMode : UUID := MustParseUUID "A87988B9-694C-479C-900E-95DFA6C00A24".
Definition brspRx : UUID := MustParseUUID "BF03260C-7205-4C25-AF43-93B1C299D159".
Definition brspTx : UUID := MustParseUUID "18CDA784-4BD3-4370-85BB-BFED91EC86AF".

(** Modelled from the spec: [Service], [Characteristic] and the
    [Peripheral] interface are declared elsewhere in the package.  A
    service or characteristic answers [UUID()]; the handle tells apart
    two that carry the same identifier.  A [*Service] or
    [*Characteristic] that may be nil is an [option]. *)
Record Service : Type := mkService {
  svc_UUID : UUID;
  svc_handle : Z
}.

Record Characteristic : Type := mkCharacteristic {
  chr_UUID : UUID;
  chr_handle : Z
}.

(** The calls the bridge makes, each with the answer of the peripheral.
    [SetIndicateValue] is told whether a callback is given, and the
    descriptors found by [DiscoverDescriptors] are dropped by the
    caller. *)
Record Peripheral : Type := mkPeripheral {
  DiscoverServices : list UUID -> list Service * option error;
  DiscoverCharacteristics :
    list UUID -> option Service -> list Characteristic * option error;
  DiscoverDescriptors : option Characteristic -> option error;
  SetIndicateValue : option Characteristic -> bool -> option error;
  WriteCharacteristic :
    option Characteristic -> list byte -> bool -> option error
}.

(** ** Requests, chunks and the bridge *)

(** A reply channel, by identity. *)
Definition chan : Type := nat.

Record brspIncoming : Type := mkIncoming {
  in_data : list byte;
  in_n : Z;
  in_err : option error
}.

Record brspOutgoing : Type := mkOutgoing {
  out_data : list byte;
  out_n : Z
}.

Record brspResult : Type := mkResult {
  res_n : Z;
  res_err : option error
}.

Record brspRequest : Type := mkRequest {
  req_p : list byte;
  req_r : chan
}.

(** The zero value of a [[20]byte] chunk. *)
Definition zeroOutgoing : brspOutgoing := mkOutgoing (make 20) 0.

(** The struct [BRSP] without its channel fields, which are the events
    and messages below.  The fields [p], [brspService], [brspMode],
    [brspRx] and [brspTx] carry the prefix [b_]: the last four share
    their names with the package's identifiers. *)
Record BRSP : Type := mkBRSP {
  b_p : Peripheral;
  b_brspService : option Service;
  b_brspMode : option Characteristic;
  b_brspRx : option Characteristic;
  b_brspTx : option Characteristic;
  inQueue : brspQueue;
  outQueue : brspQueue;
  txMode : bool;
  outData : brspOutgoing;
  readReqs : list brspRequest;
  flushReqs : list chan;
  readError : option error;
  writeError : option error
}.

(** Assignments to single fields. *)
Definition set_brspService v b :=
  mkBRSP (b_p b) v (b_brspMode b) (b_brspRx b) (b_brspTx b) (inQueue b)
    (outQueue b) (txMode b) (outData b) (readReqs b) (flushReqs b)
    (readError b) (writeError b).
Definition set_brspMode v b :=
  mkBRSP (b_p b) (b_brspService b) v (b_brspRx b) (b_brspTx b) (inQueue b)
    (outQueue b) (txMode b) (outData b) (readReqs b) (flushReqs b)
    (readError b) (writeError b).
Definition set_brspRx v b :=
  mkBRSP (b_p b) (b_brspService b) (b_brspMode b) v (b_brspTx b) (inQueue b)
    (outQueue b) (txMode b) (outData b) (readReqs b) (flushReqs b)
    (readError b) (writeError b).
Definition set_brspTx v b :=
  mkBRSP (b_p b) (b_brspService b) (b_brspMode b) (b_brspRx b) v (inQueue b)
    (outQueue b) (txMode b) (outData b) (readReqs b) (flushReqs b)
    (readError b) (writeError b).
Definition set_inQueue v b :=
  mkBRSP (b_p b) (b_brspService b) (b_brspMode b) (b_brspRx b) (b_brspTx b) v
    (outQueue b) (txMode b) (outData b) (readReqs b) (flushReqs b)
    (readError b) (writeError b).
Definition set_outQueue v b :=
  mkBRSP (b_p b) (b_brspService b) (b_brspMode b) (b_brspRx b) (b_brspTx b)
    (inQueue b) v (txMode b) (outData b) (readReqs b) (flushReqs b)
    (readError b) (writeError b).
Definition set_txMode v b :=
  mkBRSP (b_p b) (b_brspService b) (b_brspMode b) (b_brspRx b) (b_brspTx b)
    (inQueue b) (outQueue b) v (outData b) (readReqs b) (flushReqs b)
    (readError b) (writeError b).
Definition set_outData v b :=
  mkBRSP (b_p b) (b_brspService b) (b_brspMode b) (b_brspRx b) (b_brspTx b)
    (inQueue b) (outQueue b) (txMode b) v (readReqs b) (flushReqs b)
    (readError b) (writeError b).
Definition set_readReqs v b :=
  mkBRSP (b_p b) (b_brspService b) (b_brspMode b) (b_brspRx b) (b_brspTx b)
    (inQueue b) (outQueue b) (txMode b) (outData b) v (flushReqs b)
    (readError b) (writeError b).
Definition set_flushReqs v b :=
  mkBRSP (b_p b) (b_brspService b) (b_brspMode b) (b_brspRx b) (b_brspTx b)
    (inQueue b) (outQueue b) (txMode b) (outData b) (readReqs b) v
    (readError b) (writeError b).
Definition set_readError v b :=
  mkBRSP (b_p b) (b_brspService b) (b_brspMode b) (b_brspRx b) (b_brspTx b)
    (inQueue b) (outQueue b) (txMode b) (outData b) (readReqs b) (flushReqs b)
    v (writeError b).
Definition set_writeError v b :=
  mkBRSP (b_p b) (b_brspService b) (b_brspMode b) (b_brspRx b) (b_brspTx b)
    (inQueue b) (outQueue b) (txMode b) (outData b) (readReqs b) (flushReqs b)
    (readError b) v.

(** The value [&BRSP{p: p, ...}] built by [OpenBRSP]: every field the
    literal leaves out is zero. *)
Definition newBRSP (p : Peripheral) : BRSP :=
  mkBRSP p None None None None zeroQueue zeroQueue false zeroOutgoing
    [] [] None None.

(** ** The engine's world *)

(** A value delivered on a reply channel: a [brspResult] to a [Read],
    together with the caller's buffer as the copy left it, or an error
    (possibly nil) to a [Flush]. *)
Inductive Sent : Type :=
| SentResult (c : chan) (res : brspResult) (buf : list byte)
| SentError (c : chan) (e : option error).

(** The bridge, the replies delivered so far and the payloads handed to
    the transport so far, oldest first. *)
Record World : Type := mkWorld {
  brsp : BRSP;
  sent : list Sent;
  transmitted : list (list byte)
}.

(** A computation of the engine goroutine either ends, or blocks
    forever on a send that nobody receives. *)
Inductive Res (A : Type) : Type :=
| Ok (a : A) (w : World)
| Hang (w : World).
Arguments Hang {A} w.

Definition M (A : Type) : Type := World -> Res A.

Definition ret {A : Type} (a : A) : M A := fun w => Ok a w.

Definition bind {A B : Type} (m : M A) (k : A -> M B) : M B :=
  fun w => match m w with
           | Ok a w' => k a w'
           | Hang w' => Hang w'
           end.

Notation "x <- m ;; k" := (bind m (fun x => k))
  (at level 61, m at next level, right associativity).
Notation "m ;; k" := (bind m (fun _ => k))
  (at level 61, right associativity).

Definition getB : M BRSP := fun w => Ok (brsp w) w.

Definition modify (f : BRSP -> BRSP) : M unit :=
  fun w => Ok tt (mkWorld (f (brsp w)) (sent w) (transmitted w)).

(** The world a computation stops in, whichever way it stops. *)
Definition final {A : Type} (r : Res A) : World :=
  match r with
  | Ok _ w => w
  | Hang w => w
  end.

(** [Read] and [Flush] make their channel, send the request and receive
    once.  A send on a reply channel is therefore received if it is the
    first on that channel, and blocks forever if the channel has had
    its value. *)
Definition result_received (c : chan) (s : Sent) : bool :=
  match s with
  | SentResult c' _ _ => Nat.eqb c c'
  | SentError _ _ => false
  end.

Definition error_received (c : chan) (s : Sent) : bool :=
  match s with
  | SentResult _ _ _ => false
  | SentError c' _ => Nat.eqb c c'
  end.

Definition send_result (c : chan) (res : brspResult) (buf : list byte) : M unit :=
  fun w =>
    if existsb (result_received c) (sent w) then Hang w
    else Ok tt (mkWorld (brsp w) (sent w ++ [SentResult c res buf]) (transmitted w)).

Definition send_error (c : chan) (e : option error) : M unit :=
  fun w =>
    if existsb (error_received c) (sent w) then Hang w
    else Ok tt (mkWorld (brsp w) (sent w ++ [SentError c e]) (transmitted w)).

(** The physical write of the pump, [p.WriteCharacteristic(b.brspRx, ...)]. *)
Definition transmit (payload : list byte) : M unit :=
  fun w => Ok tt (mkWorld (brsp w) (sent w) (transmitted w ++ [payload])).

(** [for _, c := range cs { c <- e }] *)
Fixpoint range_send_error (cs : list chan) (e : option error) : M unit :=
  match cs with
  | [] => ret tt
  | c :: cs' => send_error c e ;; range_send_error cs' e
  end.

(** [for _, r := range rs { r.r <- brspResult{err: e} }] *)
Fixpoint range_send_result (rs : list brspRequest) (e : option error) : M unit :=
  match rs with
  | [] => ret tt
  | r :: rs' =>
      send_result (req_r r) (mkResult 0 e) (req_p r) ;;
      range_send_result rs' e
  end.

(** ** The event handlers *)

Definition handleFlushReq (c : chan) : M unit :=
  b <- getB ;;
  if txMode b then
    modify (set_flushReqs (flushReqs b ++ [c]))
  else
    send_error c (writeError b) ;;
    modify (set_writeError None).

Definition handleIncomingData (i : brspIncoming) : M unit :=
  b <- getB ;;
  if len (readReqs b) >? 0 then
    match readReqs b with
    | [] => ret tt
    | rr :: _ =>
        let shifted := fst (copy (readReqs b) (slice_from (readReqs b) 1)) in
        modify (set_readReqs (slice_to shifted (len (readReqs b) - 1))) ;;
        let '(p', n) := copy (req_p rr) (slice_to (in_data i) (in_n i)) in
        (if in_n i >? n then
           modify (fun b => set_inQueue
                              (write (inQueue b) (slice (in_data i) n (in_n i))) b)
         else ret tt) ;;
        send_result (req_r rr) (mkResult n (in_err i)) p'
    end
  else
    modify (fun b => set_inQueue
                       (write (inQueue b) (slice_to (in_data i) (in_n i))) b) ;;
    match in_err i with
    | Some e => modify (set_readError (Some e))
    | None => ret tt
    end.

Definition handleOutgoingData : M unit :=
  b <- getB ;;
  let '(q, d, n) := read (outQueue b) (out_data (outData b)) in
  modify (set_outQueue q) ;;
  modify (set_outData (mkOutgoing d (out_n (outData b)))) ;;
  if n >? 0 then
    modify (set_outData (mkOutgoing d n))
  else if out_n (outData b) >? 0 then
    modify (set_outData (mkOutgoing d 0))
  else
    modify (set_txMode false) ;;
    range_send_error (flushReqs b) (writeError b) ;;
    modify (set_writeError None).

Definition handleReadReq (r : brspRequest) : M unit :=
  b <- getB ;;
  if queued (inQueue b) >? 0 then
    let '(q, p', n) := read (inQueue b) (req_p r) in
    modify (set_inQueue q) ;;
    send_result (req_r r) (mkResult n (readError b)) p' ;;
    modify (set_readError None)
  else
    modify (set_readReqs (readReqs b ++ [r])).

Definition handleWriteError (e : error) : M unit :=
  modify (set_writeError (Some e)).

Definition handleWriteReq (p : list byte) : M unit :=
  b <- getB ;;
  p' <- (if negb (txMode b) then
           let l := len p in
           let l := if l >? 20 then 20 else l in
           modify (set_outData
                     (mkOutgoing (fst (copy (out_data (outData b)) p)) l)) ;;
           modify (set_txMode true) ;;
           ret (slice_from p l)
         else ret p) ;;
  modify (fun b => set_outQueue (write (outQueue b) p') b).

(** The callback [onTx] of [init]: a notification becomes a chunk. *)
Definition onTx (data : list byte) (err : option error) : brspIncoming :=
  let '(d, n) := copy (make 20) data in
  mkIncoming d n err.

(** ** The loop and the pump *)

(** What the [select] of the loop receives (or, for the chunk, sends). *)
Inductive Event : Type :=
| EvReadReq (r : brspRequest)
| EvWriteReq (w : list byte)
| EvFlushReq (f : chan)
| EvIncomingData (d : brspIncoming)
| EvOutgoingData
| EvWriteErrors (e : error)
| EvClosed.

Inductive Status : Type := Waiting | Exited.

(** The deferred function of [loop]. *)
Definition loop_deferred : M unit :=
  b <- getB ;;
  range_send_error (flushReqs b) (Some ErrClosed) ;;
  range_send_result (readReqs b) (Some ErrClosed).

(** One receipt of the pump from [outgoingData].  Whether the physical
    write fails is the transport's matter: a failure comes back to the
    loop as the event [EvWriteErrors]. *)
Definition writer (d : brspOutgoing) : M unit :=
  if out_n d >? 0 then transmit (slice_to (out_data d) (out_n d))
  else ret tt.

(** The loop, driven by the events in the order the [select]s take
    them.  It ends [Waiting] in a [select] when the events run out, and
    [Exited] after the deferred function once [closed] is seen.  The
    chunk is offered to the pump in transmit mode only; the idle
    [select] has no such case, so the event is passed over there. *)
Fixpoint loop (evs : list Event) : M Status :=
  match evs with
  | [] => ret Waiting
  | ev :: evs' =>
      b <- getB ;;
      if txMode b then
        match ev with
        | EvReadReq r => handleReadReq r ;; loop evs'
        | EvWriteReq w => handleWriteReq w ;; loop evs'
        | EvFlushReq f => handleFlushReq f ;; loop evs'
        | EvIncomingData d => handleIncomingData d ;; loop evs'
        | EvOutgoingData =>
            writer (outData b) ;; handleOutgoingData ;; loop evs'
        | EvWriteErrors e => handleWriteError e ;; loop evs'
        | EvClosed => loop_deferred ;; ret Exited
        end
      else
        match ev with
        | EvReadReq r => handleReadReq r ;; loop evs'
        | EvWriteReq w => handleWriteReq w ;; loop evs'
        | EvFlushReq f => handleFlushReq f ;; loop evs'
        | EvIncomingData d => handleIncomingData d ;; loop evs'
        | EvOutgoingData => loop evs'
        | EvWriteErrors e => handleWriteError e ;; loop evs'
        | EvClosed => loop_deferred ;; ret Exited
        end
  end.

(** ** The facade *)

(** Where the engine goroutine stands is the result of its loop so
    far: [Ok Waiting w] in a [select], ready to receive; [Ok Exited w]
    returned, after the close; [Hang w] blocked for ever on a send. *)

(** A call of the facade returns a value, or blocks for ever. *)
Inductive Call (A : Type) : Type :=
| Returned (a : A) (eng : Res Status)
| Blocked (eng : Res Status).
Arguments Blocked {A} eng.

(** [b.writeReq <- p].  The channel has no buffer and the loop is its
    only receiver: the send goes through when a [select] of the loop
    takes it, which runs [handleWriteReq] in either mode, and never
    when the loop has returned or is blocked.  [eng] is where the loop
    stands when it comes to this send, after whatever events it took
    before. *)
Definition send_writeReq (p : list byte) (eng : Res Status) : option (Res Status) :=
  match eng with
  | Ok Waiting w => Some (loop [EvWriteReq p] w)
  | _ => None
  end.

(** [Write]: the send, then [return len(p), nil]. *)
Definition Write (p : list byte) (eng : Res Status) : Call (Z * option error) :=
  match send_writeReq p eng with
  | Some eng' => Returned (len p, None) eng'
  | None => Blocked eng
  end.

(** ** Opening a bridge *)

(** [for _, s := range svcs { if ... { b.brspService = s; break } }] *)
Fixpoint range_svcs (svcs : list Service) (b : BRSP) : BRSP :=
  match svcs with
  | [] => b
  | s :: rest =>
      if Equal (svc_UUID s) brspService then set_brspService (Some s) b
      else range_svcs rest b
  end.

(** [for _, c := range chars { ... }] *)
Fixpoint range_chars (chars : list Characteristic) (b : BRSP) : BRSP :=
  match chars with
  | [] => b
  | c :: rest =>
      let u := chr_UUID c in
      let b :=
        if Equal u brspMode then set_brspMode (Some c) b
        else if Equal u brspRx then set_brspRx (Some c) b
        else if Equal u brspTx then set_brspTx (Some c) b
        else b in
      range_chars rest b
  end.

Definition is_nil {A : Type} (o : option A) : bool :=
  match o with
  | None => true
  | Some _ => false
  end.

Definition discover (b : BRSP) : BRSP * option error :=
  let '(svcs, err) := DiscoverServices (b_p b) [brspService] in
  match err with
  | Some e => (b, Some e)
  | None =>
      let b := range_svcs svcs b in
      if is_nil (b_brspService b) then (b, Some ErrNotBRSP)
      else
        let '(chars, err) :=
          DiscoverCharacteristics (b_p b) [brspMode; brspRx; brspTx]
            (b_brspService b) in
        match err with
        | Some e => (b, Some e)
        | None =>
            let b := range_chars chars b in
            if is_nil (b_brspMode b) || is_nil (b_brspRx b)
               || is_nil (b_brspTx b)
            then (b, Some ErrNotBRSP)
            else
              match DiscoverDescriptors (b_p b) (b_brspTx b) with
              | Some e => (b, Some e)
              | None => (b, None)
              end
        end
  end.

Definition init (b : BRSP) : BRSP * option error :=
  let '(b, err) := discover b in
  match err with
  | Some e => (b, Some e)
  | None =>
      match SetIndicateValue (b_p b) (b_brspTx b) false with
      | Some e => (b, Some e)
      | None =>
          match SetIndicateValue (b_p b) (b_brspTx b) true with
          | Some e => (b, Some e)
          | None =>
              match WriteCharacteristic (b_p b) (b_brspMode b) [x01] true with
              | Some e => (b, Some e)
              | None => (b, None)
              end
          end
      end
  end.

(** The goroutines a call has started with [go]. *)
Inductive Goroutine : Type := GoLoop | GoWriter.

(** [OpenBRSP] gives the pointer (nil on failure), the error, and the
    goroutines it started. *)
Definition OpenBRSP (p : Peripheral) :
  option BRSP * option error * list Goroutine :=
  let b := newBRSP p in
  let '(b, err) := init b in
  match err with
  | Some e => (None, Some e, [])
  | None => (Some b, None, [GoLoop; GoWriter])
  end.

(** ** Views of the engine used by the statements *)

(** The outbound side: the chunk on offer to the pump and the bytes
    staged behind it. *)
Definition outbound (w : World) (chunk pending : list byte) : Prop :=
  wf (outQueue (brsp w)) /\
  contents (outQueue (brsp w)) = pending /\
  len (out_data (outData (brsp w))) = 20 /\
  0 <= out_n (outData (brsp w)) <= 20 /\
  slice_to (out_data (outData (brsp w))) (out_n (outData (brsp w))) = chunk.

(** Everything of the bridge that the outbound side does not touch
    between two idle periods. *)
Definition inbound_side (b : BRSP) :=
  (b_p b, b_brspService b, b_brspMode b, b_brspRx b, b_brspTx b,
   inQueue b, readReqs b, readError b).

(** A reply channel that has not had its value yet. *)
Definition fresh_error (c : chan) (w : World) : Prop :=
  existsb (error_received c) (sent w) = false.

Definition fresh_result (c : chan) (w : World) : Prop :=
  existsb (result_received c) (sent w) = false.

(** The fields of the engine proper. *)
Definition engine_fields (b : BRSP) :=
  (inQueue b, outQueue b, txMode b, outData b, readReqs b, flushReqs b,
   readError b, writeError b).

(** The worlds a bridge goes through: it starts as [OpenBRSP] returns
    it, with nothing delivered or transmitted, and moves by the events
    its loop takes. *)
Inductive running : World -> Prop :=
| running_open p b :
    OpenBRSP p = (Some b, None, [GoLoop; GoWriter]) ->
    running (mkWorld b [] [])
| running_step w ev w' :
    running w -> loop [ev] w = Ok Waiting w' -> running w'.

(** A peripheral that has the service and its three characteristics,
    and accepts every call; the bridge it opens serves the examples. *)
Definition examplePeripheral : Peripheral :=
  mkPeripheral
    (fun _ => ([mkService brspService 1], None))
    (fun _ _ => ([mkCharacteristic brspMode 2; mkCharacteristic brspRx 3;
                  mkCharacteristic brspTx 4], None))
    (fun _ => None)
    (fun _ _ => None)
    (fun _ _ _ => None).

Definition exampleBRSP : BRSP :=
  match OpenBRSP examplePeripheral with
  | (Some b, _, _) => b
  | _ => newBRSP examplePeripheral
  end.

Definition exampleWorld : World := mkWorld exampleBRSP [] [].

(** What holds of every world of a running bridge: both queues are
    well formed, the chunk buffer has its 20 places, and an idle engine
    has nothing on offer and nothing staged. *)
Definition engine_inv (w : World) : Prop :=
  wf (inQueue (brsp w)) /\
  exists chunk pending,
    outbound w chunk pending /\
    (txMode (brsp w) = false -> chunk = [] /\ pending = []).

(** The fields the outbound side lives in. *)
Definition outbound_fields (b : BRSP) := (outQueue b, outData b, txMode b).

(** The reply a pending read gets from a notification: as much of the
    chunk as its buffer takes, and the notification's own error. *)
Definition notified (r : brspRequest) (i : brspIncoming) : Sent :=
  SentResult (req_r r)
    (mkResult (snd (copy (req_p r) (slice_to (in_data i) (in_n i))))
       (in_err i))
    (fst (copy (req_p r) (slice_to (in_data i) (in_n i)))).

(** Two reads and two notifications for the examples. *)
Definition exampleReads : list brspRequest :=
  [mkRequest (make 8) 0%nat; mkRequest (make 8) 1%nat].

Definition exampleNotifications : list brspIncoming :=
  [onTx (bytes_from 1 3) None; onTx (bytes_from 4 2) None].


(** A 45-byte write with a flush behind it; the transport fails on the
    first chunk and again on the second. *)
Definition twoErrorsSchedule : list Event :=
  [EvWriteReq (bytes_from 1 45); EvFlushReq 0%nat;
   EvOutgoingData; EvWriteErrors (ErrTransport 1);
   EvOutgoingData; EvWriteErrors (ErrTransport 2);
   EvOutgoingData; EvOutgoingData].

(** A one-byte write with a flush behind it, taken to idle, and then a
    second write taken to idle. *)
Definition secondWriteSchedule : list Event :=
  [EvWriteReq [x01]; EvFlushReq 0%nat; EvOutgoingData; EvOutgoingData;
   EvWriteReq [x02]; EvOutgoingData; EvOutgoingData].

(** A one-byte write with a flush behind it, taken to idle; then a read
    that has to wait, and the close. *)
Definition closeAfterFlushSchedule : list Event :=
  [EvWriteReq [x01]; EvFlushReq 0%nat; EvOutgoingData; EvOutgoingData;
   EvReadReq (mkRequest (make 4) 0%nat); EvClosed].

(** The replies of the deferred function to the requests [cs] and [rs]. *)
Definition closed_replies (cs : list chan) (rs : list brspRequest) : list Sent :=
  map (fun c => SentError c (Some ErrClosed)) cs ++
  map (fun r => SentResult (req_r r) (mkResult 0 (Some ErrClosed)) (req_p r)) rs.

(** What the peripheral reported: the service, a characteristic. *)
Definition has_service (svcs : list Service) : bool :=
  existsb (fun s => Equal (svc_UUID s) brspService) svcs.

Definition has_char (u : UUID) (chars : list Characteristic) : bool :=
  existsb (fun c => Equal (chr_UUID c) u) chars.

(** The services the peripheral answers with, and the characteristics
    it answers with for the first service that carries the bridge's
    identifier. *)
Definition reported_services (p : Peripheral) : list Service :=
  fst (DiscoverServices p [brspService]).

Definition reported_chars (p : Peripheral) : list Characteristic :=
  fst (DiscoverCharacteristics p [brspMode; brspRx; brspTx]
         (find (fun s => Equal (svc_UUID s) brspService)
            (reported_services p))).

(** A peripheral with the service, the mode and the receive
    characteristic, but no transmit characteristic. *)
Definition twoCharsPeripheral : Peripheral :=
  mkPeripheral
    (fun _ => ([mkService brspService 1], None))
    (fun _ _ => ([mkCharacteristic brspMode 2; mkCharacteristic brspRx 3],
                 None))
    (fun _ => None)
    (fun _ _ => None)
    (fun _ _ _ => None).

(** A one-byte write whose transmission fails, taken to idle with no
    flush pending, and a flush after it. *)
Definition lateFlushSchedule : list Event :=
  [EvWriteReq [x01]; EvOutgoingData; EvWriteErrors (ErrTransport 1);
   EvOutgoingData; EvFlushReq 0%nat].

(** ** The two error slots over a run of events *)

(** The write error the engine received last among some events, [e0]
    if it received none: what [handleWriteError] leaves in the slot. *)
Fixpoint last_write_error (evs : list Event) (e0 : option error) : option error :=
  match evs with
  | [] => e0
  | EvWriteErrors e :: evs' => last_write_error evs' (Some e)
  | _ :: evs' => last_write_error evs' e0
  end.

(** The reply channels of the flush requests among some events. *)
Fixpoint flushes (evs : list Event) : list chan :=
  match evs with
  | [] => []
  | EvFlushReq c :: evs' => c :: flushes evs'
  | _ :: evs' => flushes evs'
  end.





(** The replies to flushes among the deliveries. *)
Definition is_error_reply (s : Sent) : bool :=
  match s with
  | SentError _ _ => true
  | SentResult _ _ _ => false
  end.

Definition error_replies (s : list Sent) : list Sent := filter is_error_reply s.


(** The loop takes the events one by one and is in transmit mode after
    each of them: it does not block, does not exit and does not return
    to idle. *)
Fixpoint stays_active (evs : list Event) (w : World) : bool :=
  match evs with
  | [] => true
  | ev :: evs' =>
      match loop [ev] w with
      | Ok Waiting w1 => txMode (brsp w1) && stays_active evs' w1
      | _ => false
      end
  end.

(** Write(A) of 45 bytes, a flush, Write(B) of 5 bytes, then the pump
    at work with a second flush on the way: the first chunk of A fails,
    the two chunks behind it go through.  After the third hand-over
    nothing is armed and nothing is staged. *)
Definition failedFirstSchedule : list Event :=
  [EvWriteReq (bytes_from 1 45); EvFlushReq 0%nat;
   EvWriteReq (bytes_from 46 5);
   EvOutgoingData; EvWriteErrors (ErrTransport 1);
   EvOutgoingData; EvFlushReq 1%nat; EvOutgoingData].

(** The same without the flushes. *)
Definition failedUnflushedSchedule : list Event :=
  [EvWriteReq (bytes_from 1 45); EvWriteReq (bytes_from 46 5);
   EvOutgoingData; EvWriteErrors (ErrTransport 1);
   EvOutgoingData; EvOutgoingData].

(** The world of [secondWriteSchedule] before its last hand-over: the
    second write has gone out, and the flush channel answered after
    the first write is still recorded. *)
Definition staleFlushWorld : World :=
  final (loop (firstn 6 secondWriteSchedule) exampleWorld).


(** ** Further views of the queue and the engine *)

(** The free room of the buffer as [write] computes it. *)
Definition space (q : brspQueue) : Z := len (data q) - queued q.

(** Everything the outbound side has been given and has not lost: what
    the transport got, the chunk on offer, and the bytes staged. *)
Definition out_stream (w : World) : list byte :=
  List.concat (transmitted w) ++
  slice_to (out_data (outData (brsp w))) (out_n (outData (brsp w))) ++
  contents (outQueue (brsp w)).

(** The bytes of the writes among some events, in order. *)
Fixpoint written (evs : list Event) : list byte :=
  match evs with
  | [] => []
  | EvWriteReq p :: evs' => p ++ written evs'
  | _ :: evs' => written evs'
  end.

(** The last element that satisfies [f], as a [range] loop that
    overwrites on every match leaves it. *)
Definition find_last {A : Type} (f : A -> bool) (l : list A) : option A :=
  find f (rev l).

(** A read of two bytes and a read of eight, then a notification of five
    bytes: the first read is answered, three bytes stay queued, and the
    second read still waits. *)
Definition queuedAndWaitingWorld : World :=
  final (loop [EvReadReq (mkRequest (make 2) 0%nat);
               EvReadReq (mkRequest (make 8) 1%nat);
               EvIncomingData (onTx (bytes_from 1 5) None)] exampleWorld).

(** A read and a flush that wait on an engine that transmits. *)
Definition waitingWorld : World :=
  final (loop [EvWriteReq [x01]; EvFlushReq 0%nat;
               EvReadReq (mkRequest (make 4) 0%nat)] exampleWorld).

(** A 45-byte write followed to idle, and the world it leaves. *)
Definition fragmentSchedule : list Event :=
  EvWriteReq (bytes_from 1 45) :: repeat EvOutgoingData 4.

Definition fragmentedWorld : World := final (loop fragmentSchedule exampleWorld).

(** A peripheral with the service and its three characteristics that
    refuses the write of the mode. *)
Definition refusingPeripheral : Peripheral :=
  mkPeripheral
    (fun _ => ([mkService brspService 1], None))
    (fun _ _ => ([mkCharacteristic brspMode 2; mkCharacteristic brspRx 3;
                  mkCharacteristic brspTx 4], None))
    (fun _ => None)
    (fun _ _ => None)
    (fun _ _ _ => Some (ErrTransport 7)).

(** * The advertisement decoder (package blukey, adv.go) *)

(** ** Go values that can panic *)

(** A call returns, panics at run time (an index or a slice out of
    range), or is cut short by the fuel of a loop below. *)
Inductive Outcome (A : Type) : Type :=
| Returns (a : A)
| Panics
| Unfinished.
Arguments Panics {A}.
Arguments Unfinished {A}.

Definition and_then {A B : Type} (m : Outcome A) (k : A -> Outcome B) : Outcome B :=
  match m with
  | Returns a => k a
  | Panics => Panics
  | Unfinished => Unfinished
  end.

Notation "x <~ m ;; k" := (and_then m (fun x => k))
  (at level 61, m at next level, right associativity).

(** The value of a byte, [int(b)]. *)
Definition byte_val (b : byte) : Z := Z.of_nat (Byte.to_nat b).

(** [l[i]] *)
Definition index (l : list byte) (i : Z) : Outcome byte :=
  if (0 <=? i) && (i <? len l) then
    match nth_error l (Z.to_nat i) with
    | Some b => Returns b
    | None => Panics
    end
  else Panics.

(** [l[lo:hi]] and [l[lo:]], checked against the length. *)
Definition slice_chk (l : list byte) (lo hi : Z) : Outcome (list byte) :=
  if (0 <=? lo) && (lo <=? hi) && (hi <=? len l) then Returns (slice l lo hi)
  else Panics.

Definition slice_from_chk (l : list byte) (lo : Z) : Outcome (list byte) :=
  if (0 <=? lo) && (lo <=? len l) then Returns (slice_from l lo)
  else Panics.

(** [a && b], where [b] is evaluated only if [a] holds. *)
Definition lazy_and (a b : Outcome bool) : Outcome bool :=
  x <~ a ;; if x then b else Returns false.

(** [l[i] == v] *)
Definition byte_at (l : list byte) (i : Z) (v : byte) : Outcome bool :=
  c <~ index l i ;; Returns (Byte.eqb c v).

(** [binary.LittleEndian.Uint32(b)] and [Uint16(b)] of the Go library:
    the last index is checked first. *)
Definition Uint32 (b : list byte) : Outcome Z :=
  _ <~ index b 3 ;;
  b0 <~ index b 0 ;; b1 <~ index b 1 ;; b2 <~ index b 2 ;; b3 <~ index b 3 ;;
  Returns (Z.lor (byte_val b0)
             (Z.lor (Z.shiftl (byte_val b1) 8)
                (Z.lor (Z.shiftl (byte_val b2) 16)
                   (Z.shiftl (byte_val b3) 24)))).

Definition Uint16 (b : list byte) : Outcome Z :=
  _ <~ index b 1 ;;
  b0 <~ index b 0 ;; b1 <~ index b 1 ;;
  Returns (Z.lor (byte_val b0) (Z.shiftl (byte_val b1) 8)).

(** ** Version 1 *)

Definition AdvV1none : byte := x08.
Definition AdvV1clock : byte := x09.
Definition AdvV1inactivity : byte := x0a.
Definition AdvV1cashlessPending : byte := x0b.
Definition AdvV1cashPending : byte := x0c.
Definition AdvV1connectReq : byte := x0d.

Definition AdvV1ready : byte := x00.
Definition AdvV1busy : byte := x01.
Definition AdvV1disabled : byte := x02.
Definition AdvV1offline : byte := xff.

(** The fields [Id], [Key], [Flags] and [Status], with the prefix [v1_]
    that keeps them apart from those of version 2. *)
Record AdvV1 : Type := mkAdvV1 {
  v1_Id : Z;
  v1_Key : Z;
  v1_Flags : byte;
  v1_Status : byte
}.

Definition V1_AuthKey (v1 : AdvV1) : Z := v1_Key v1.
Definition V1_CanTransact (v1 : AdvV1) : bool :=
  Byte.eqb (v1_Status v1) AdvV1ready.
Definition V1_DeviceId (v1 : AdvV1) : Z := v1_Id v1.
Definition V1_NeedsMaintenance (v1 : AdvV1) : bool :=
  negb (Byte.eqb (v1_Flags v1) AdvV1none).
Definition V1_SupportsMaintenance (v1 : AdvV1) : bool :=
  negb (Byte.eqb (v1_Flags v1) x00).

Definition v1Name : list byte :=
  [x09; x50; x61; x79; x52; x61; x6e; x67; x65].
Definition v1BRSP : list byte :=
  [x07; x79; x60; x22; xa0; xbe; xaf; xc0; xbd; xde; x48; x79; x62; xf1;
   x84; x2b; xda].

(** The closure [cmp] of [parseBlukeyV1Adv]: [for i, v := range a]. *)
Fixpoint cmp_range (a b : list byte) (i : Z) : Outcome bool :=
  match a with
  | [] => Returns true
  | v :: a' =>
      bi <~ index b i ;;
      if negb (Byte.eqb v bi) then Returns false
      else cmp_range a' b (i + 1)
  end.

Definition cmp (a b : list byte) : Outcome bool :=
  if negb (len a =? len b) then Returns false
  else cmp_range a b 0.

(** The variables [brsp], [name] and [msd] of the loop; a nil slice is
    [None]. *)
Record V1State : Type := mkV1State {
  s1_brsp : bool;
  s1_name : bool;
  s1_msd : option (list byte)
}.

(** The [if ... else if ... else if] on a chunk. *)
Definition v1_chunk (chunk : list byte) (chunkLen : Z) (st : V1State) :
  Outcome V1State :=
  isName <~ cmp chunk v1Name ;;
  if isName then Returns (mkV1State (s1_brsp st) true (s1_msd st))
  else
    isBRSP <~ cmp chunk v1BRSP ;;
    if isBRSP then Returns (mkV1State true (s1_name st) (s1_msd st))
    else
      isMsd <~ lazy_and (Returns (chunkLen =? 16))
                 (lazy_and (byte_at chunk 0 xff)
                    (lazy_and (byte_at chunk 1 x85)
                       (lazy_and (byte_at chunk 2 x00)
                          (lazy_and (byte_at chunk 3 xff)
                             (lazy_and (byte_at chunk 8 x01)
                                (byte_at chunk 15 x01)))))) ;;
      if isMsd then
        m <~ slice_from_chk chunk 4 ;;
        Returns (mkV1State (s1_brsp st) (s1_name st) (Some m))
      else Returns st.

(** [for len(raw) > 1 { ... }]: one unit of fuel for each turn. *)
Fixpoint v1_loop (fuel : nat) (raw : list byte) (st : V1State) :
  Outcome V1State :=
  match fuel with
  | O => Unfinished
  | S fuel' =>
      if len raw >? 1 then
        r0 <~ index raw 0 ;;
        let chunkLen := byte_val r0 in
        if (chunkLen =? 0) || (chunkLen + 1 >? len raw) then Returns st
        else
          chunk <~ slice_chk raw 1 (chunkLen + 1) ;;
          raw' <~ slice_from_chk raw (chunkLen + 1) ;;
          st' <~ v1_chunk chunk chunkLen st ;;
          v1_loop fuel' raw' st'
      else Returns st
  end.

(** Every turn takes at least two bytes off [raw], so one more unit of
    fuel than [raw] has bytes is more than the loop can use. *)
Definition parseBlukeyV1Adv (raw : list byte) : Outcome (option AdvV1) :=
  st <~ v1_loop (S (List.length raw)) raw (mkV1State false false None) ;;
  if s1_name st && s1_brsp st then
    match s1_msd st with
    | Some msd =>
        idb <~ slice_chk msd 0 4 ;;
        id <~ Uint32 idb ;;
        keyb <~ slice_chk msd 7 11 ;;
        key <~ Uint32 keyb ;;
        flags <~ index msd 5 ;;
        status <~ index msd 6 ;;
        Returns (Some (mkAdvV1 id key flags status))
    | None => Returns None
    end
  else Returns None.

(** ** Version 2 *)

Definition AdvV2canTransact : Z := 0x2000.
Definition AdvV2cashPending : Z := 0x0800.
Definition AdvV2cashlessPending : Z := 0x0400.
Definition AdvV2machAlarmMask : Z := 0x03c0.
Definition AdvV2machAlarmNone : Z := 0x0000.
Definition AdvV2machAlarmInactivity : Z := 0x0040.
Definition AdvV2connAlarmMask : Z := 0x0038.
Definition AdvV2connAlarmNone : Z := 0x0000.
Definition AdvV2connAlarmClockNotSet : Z := 0x0008.
Definition AdvV2connAlarmDebugPending : Z := 0x0010.
Definition AdvV2connAlarmFwUpdateNeeded : Z := 0x0018.
Definition AdvV2statusMask : Z := 0x0007.
Definition AdvV2statusReady : Z := 0x0000.
Definition AdvV2statusBusy : Z := 0x0001.
Definition AdvV2statusDisabled : Z := 0x0002.
Definition AdvV2statusReadyMaint : Z := 0x0004.
Definition AdvV2statusOffline : Z := 0x0007.

Record AdvV2 : Type := mkAdvV2 {
  v2_Id : Z;
  v2_Key : Z;
  v2_Flags : Z;
  v2_FwVersion : Z;
  v2_PartnerData : option (list byte)
}.

Definition V2_AuthKey (v2 : AdvV2) : Z := v2_Key v2.

Definition V2_CanTransact (v2 : AdvV2) : bool :=
  if Z.land (v2_Flags v2) AdvV2statusMask =? AdvV2statusReady then true
  else if negb (Z.land (v2_Flags v2) AdvV2canTransact =? 0) then true
  else false.

Definition V2_DeviceId (v2 : AdvV2) : Z := v2_Id v2.

Definition V2_NeedsMaintenance (v2 : AdvV2) : bool :=
  if negb (Z.land (v2_Flags v2)
             (Z.lor AdvV2cashPending AdvV2cashlessPending) =? 0) then true
  else if negb (Z.land (v2_Flags v2) AdvV2connAlarmMask =? AdvV2connAlarmNone)
  then true
  else false.

Definition V2_SupportsMaintenance (v2 : AdvV2) : bool := true.

(** The variables [name], [msd1] and [msd2] of the loop. *)
Record V2State : Type := mkV2State {
  s2_name : bool;
  s2_msd1 : option (list byte);
  s2_msd2 : option (list byte)
}.

Definition v2_chunk (chunk : list byte) (chunkLen : Z) (st : V2State) :
  Outcome V2State :=
  isName <~ lazy_and (Returns (chunkLen =? 3))
              (lazy_and (byte_at chunk 0 x09)
                 (lazy_and (byte_at chunk 1 x50) (byte_at chunk 2 x52))) ;;
  if isName then Returns (mkV2State true (s2_msd1 st) (s2_msd2 st))
  else
    isMsd1 <~ lazy_and (Returns (chunkLen =? 17))
                (lazy_and (byte_at chunk 0 xff)
                   (lazy_and (byte_at chunk 1 xc9)
                      (lazy_and (byte_at chunk 2 x02)
                         (byte_at chunk 3 x00)))) ;;
    if isMsd1 then
      m <~ slice_from_chk chunk 4 ;;
      Returns (mkV2State (s2_name st) (Some m) (s2_msd2 st))
    else
      isMsd2 <~ lazy_and (Returns (chunkLen >? 5))
                  (lazy_and (byte_at chunk 0 xff)
                     (lazy_and (byte_at chunk 1 xc9)
                        (lazy_and (byte_at chunk 2 x02)
                           (byte_at chunk 3 x01)))) ;;
      if isMsd2 then
        m <~ slice_from_chk chunk 4 ;;
        Returns (mkV2State (s2_name st) (s2_msd1 st) (Some m))
      else Returns st.

Fixpoint v2_loop (fuel : nat) (raw : list byte) (st : V2State) :
  Outcome V2State :=
  match fuel with
  | O => Unfinished
  | S fuel' =>
      if len raw >? 1 then
        r0 <~ index raw 0 ;;
        let chunkLen := byte_val r0 in
        if (chunkLen =? 0) || (chunkLen + 1 >? len raw) then Returns st
        else
          chunk <~ slice_chk raw 1 (chunkLen + 1) ;;
          raw' <~ slice_from_chk raw (chunkLen + 1) ;;
          st' <~ v2_chunk chunk chunkLen st ;;
          v2_loop fuel' raw' st'
      else Returns st
  end.

Definition parseBlukeyV2Adv (raw : list byte) : Outcome (option AdvV2) :=
  st <~ v2_loop (S (List.length raw)) raw (mkV2State false None None) ;;
  if s2_name st then
    match s2_msd1 st with
    | Some msd1 =>
        idb <~ slice_chk msd1 0 4 ;;
        id <~ Uint32 idb ;;
        keyb <~ slice_chk msd1 4 8 ;;
        key <~ Uint32 keyb ;;
        flagsb <~ slice_chk msd1 8 10 ;;
        flags <~ Uint16 flagsb ;;
        fwb <~ slice_chk msd1 10 12 ;;
        fw <~ Uint16 fwb ;;
        Returns
          (Some (mkAdvV2 id key flags fw
                   (match s2_msd2 st with
                    | Some msd2 => Some (fst (copy (make (len msd2)) msd2))
                    | None => None
                    end)))
    | None => Returns None
    end
  else Returns None.

(** ** Either version *)

(** The interface [Adv], by the type behind it. *)
Inductive Adv : Type :=
| AdvOfV1 (v1 : AdvV1)
| AdvOfV2 (v2 : AdvV2).

Definition DeviceId (a : Adv) : Z :=
  match a with AdvOfV1 v => V1_DeviceId v | AdvOfV2 v => V2_DeviceId v end.
Definition AuthKey (a : Adv) : Z :=
  match a with AdvOfV1 v => V1_AuthKey v | AdvOfV2 v => V2_AuthKey v end.
Definition CanTransact (a : Adv) : bool :=
  match a with AdvOfV1 v => V1_CanTransact v | AdvOfV2 v => V2_CanTransact v end.
Definition SupportsMaintenance (a : Adv) : bool :=
  match a with
  | AdvOfV1 v => V1_SupportsMaintenance v
  | AdvOfV2 v => V2_SupportsMaintenance v
  end.
Definition NeedsMaintenance (a : Adv) : bool :=
  match a with
  | AdvOfV1 v => V1_NeedsMaintenance v
  | AdvOfV2 v => V2_NeedsMaintenance v
  end.

Definition ParseAdData (raw : list byte) : Outcome (option Adv) :=
  v1 <~ parseBlukeyV1Adv raw ;;
  match v1 with
  | Some a => Returns (Some (AdvOfV1 a))
  | None =>
      v2 <~ parseBlukeyV2Adv raw ;;
      match v2 with
      | Some a => Returns (Some (AdvOfV2 a))
      | None => Returns None
      end
  end.

(** ** The decoder on framed chunks *)

(** The byte of a value from 0 to 255. *)
Definition byte_of (n : Z) : byte :=
  match Byte.of_nat (Z.to_nat n) with
  | Some b => b
  | None => x00
  end.

(** An advertisement is a row of chunks, each behind a byte that holds
    its length. *)
Definition frame (chunk : list byte) : list byte := byte_of (len chunk) :: chunk.

Definition frames (chunks : list (list byte)) : list byte :=
  List.concat (map frame chunks).

(** A chunk that a length byte can announce. *)
Definition framable (chunk : list byte) : Prop := 1 <= len chunk <= 255.

(** Bytes at which the loops stop: fewer than two, a length byte of 0,
    or a length byte that announces more than is left. *)
Definition stops (rest : list byte) : Prop :=
  match rest with
  | [] => True
  | b :: rest' =>
      rest' = [] \/ byte_val b = 0 \/ len rest' < byte_val b
  end.

Definition bytes_eqb (a b : list byte) : bool :=
  if list_eq_dec Byte.byte_eq_dec a b then true else false.

Definition byte_is (chunk : list byte) (i : nat) (v : byte) : bool :=
  Byte.eqb (nth i chunk x00) v.

(** The little-endian value of the first four, or two, bytes. *)
Definition le32 (b : list byte) : Z :=
  byte_val (nth 0 b x00) + 2 ^ 8 * byte_val (nth 1 b x00) +
  2 ^ 16 * byte_val (nth 2 b x00) + 2 ^ 24 * byte_val (nth 3 b x00).

Definition le16 (b : list byte) : Z :=
  byte_val (nth 0 b x00) + 2 ^ 8 * byte_val (nth 1 b x00).

(** The manufacturer chunk of version 1, by its marks. *)
Definition is_v1_msd (chunk : list byte) : bool :=
  (len chunk =? 16) && byte_is chunk 0 xff && byte_is chunk 1 x85 &&
  byte_is chunk 2 x00 && byte_is chunk 3 xff && byte_is chunk 8 x01 &&
  byte_is chunk 15 x01.

(** What version 1 reads out of [msd], the manufacturer chunk behind
    its four marks. *)
Definition v1_of_msd (msd : list byte) : AdvV1 :=
  mkAdvV1 (le32 (slice msd 0 4)) (le32 (slice msd 7 11))
    (nth 5 msd x00) (nth 6 msd x00).

(** The result of version 1 by the chunks alone: the name chunk and the
    service chunk must be there, and the last manufacturer chunk is the
    one read. *)
Definition v1_decode (chunks : list (list byte)) : option AdvV1 :=
  if existsb (bytes_eqb v1Name) chunks && existsb (bytes_eqb v1BRSP) chunks
  then option_map (fun c => v1_of_msd (slice_from c 4))
         (find_last is_v1_msd chunks)
  else None.

(** One chunk on the state of version 1. *)
Definition v1_step (st : V1State) (chunk : list byte) : V1State :=
  if bytes_eqb chunk v1Name then mkV1State (s1_brsp st) true (s1_msd st)
  else if bytes_eqb chunk v1BRSP then mkV1State true (s1_name st) (s1_msd st)
  else if is_v1_msd chunk
       then mkV1State (s1_brsp st) (s1_name st) (Some (slice_from chunk 4))
       else st.

(** The chunks of version 2, by their marks. *)
Definition is_v2_name (chunk : list byte) : bool :=
  (len chunk =? 3) && byte_is chunk 0 x09 && byte_is chunk 1 x50 &&
  byte_is chunk 2 x52.

Definition is_v2_msd1 (chunk : list byte) : bool :=
  (len chunk =? 17) && byte_is chunk 0 xff && byte_is chunk 1 xc9 &&
  byte_is chunk 2 x02 && byte_is chunk 3 x00.

Definition is_v2_msd2 (chunk : list byte) : bool :=
  (len chunk >? 5) && byte_is chunk 0 xff && byte_is chunk 1 xc9 &&
  byte_is chunk 2 x02 && byte_is chunk 3 x01.

Definition v2_of_msd (msd1 : list byte) (partner : option (list byte)) : AdvV2 :=
  mkAdvV2 (le32 (slice msd1 0 4)) (le32 (slice msd1 4 8))
    (le16 (slice msd1 8 10)) (le16 (slice msd1 10 12)) partner.

Definition v2_decode (chunks : list (list byte)) : option AdvV2 :=
  if existsb is_v2_name chunks then
    match find_last is_v2_msd1 chunks with
    | Some m =>
        Some (v2_of_msd (slice_from m 4)
                (option_map (fun c => slice_from c 4)
                   (find_last is_v2_msd2 chunks)))
    | None => None
    end
  else None.

Definition v2_step (st : V2State) (chunk : list byte) : V2State :=
  if is_v2_name chunk then mkV2State true (s2_msd1 st) (s2_msd2 st)
  else if is_v2_msd1 chunk
       then mkV2State (s2_name st) (Some (slice_from chunk 4)) (s2_msd2 st)
       else if is_v2_msd2 chunk
            then mkV2State (s2_name st) (s2_msd1 st) (Some (slice_from chunk 4))
            else st.

(** The bytes of a 32-bit and of a 16-bit value, low byte first. *)
Definition bytes32 (v : Z) : list byte :=
  [byte_of (v mod 256); byte_of (v / 2 ^ 8 mod 256);
   byte_of (v / 2 ^ 16 mod 256); byte_of (v / 2 ^ 24 mod 256)].

Definition bytes16 (v : Z) : list byte :=
  [byte_of (v mod 256); byte_of (v / 2 ^ 8 mod 256)].

(** The manufacturer chunks as a device sends them. *)
Definition v1_msd_chunk (id key : Z) (flags status : byte) : list byte :=
  [xff; x85; x00; xff] ++ bytes32 id ++ [x01; flags; status] ++
  bytes32 key ++ [x01].

Definition v2_msd1_chunk (id key flags fw : Z) (pad : byte) : list byte :=
  [xff; xc9; x02; x00] ++ bytes32 id ++ bytes32 key ++ bytes16 flags ++
  bytes16 fw ++ [pad].

Definition v2_msd2_chunk (partner : list byte) : list byte :=
  [xff; xc9; x02; x01] ++ partner.

Definition v2Name : list byte := [x09; x50; x52].

(** Advertisements for the examples. *)
Definition exampleV1Raw : list byte :=
  frames [v1Name; [x01; x06]; v1BRSP;
          v1_msd_chunk 305419896 2596069104 x09 x00].

Definition exampleV2Raw : list byte :=
  frames [[x01; x06]; v2Name;
          v2_msd1_chunk 305419896 2596069104 8200 258 x00;
          v2_msd2_chunk [xaa; xbb; xcc]].

(** The loop that both versions run, over the test [body] each makes on
    a chunk. *)
Fixpoint chunk_loop {S : Type} (body : list byte -> Z -> S -> Outcome S)
    (fuel : nat) (raw : list byte) (st : S) : Outcome S :=
  match fuel with
  | O => Unfinished
  | S fuel' =>
      if len raw >? 1 then
        r0 <~ index raw 0 ;;
        let chunkLen := byte_val r0 in
        if (chunkLen =? 0) || (chunkLen + 1 >? len raw) then Returns st
        else
          chunk <~ slice_chk raw 1 (chunkLen + 1) ;;
          raw' <~ slice_from_chk raw (chunkLen + 1) ;;
          st' <~ body chunk chunkLen st ;;
          chunk_loop body fuel' raw' st'
      else Returns st
  end.

(** * Properties *)

(** ** Slices *)

Section SliceFacts.
Context {A : Type}.
Implicit Types l dst src : list A.

Lemma len_nonneg l : 0 <= len l.
Proof. unfold len; lia. Qed.

Lemma len_nil : len (@nil A) = 0.
Proof. reflexivity. Qed.

Lemma len_zero_nil l : len l = 0 -> l = [].
Proof. destruct l; [reflexivity | unfold len; simpl; lia]. Qed.

Lemma len_app l1 l2 : len (l1 ++ l2) = len l1 + len l2.
Proof. unfold len. rewrite length_app. lia. Qed.

Lemma len_slice_to l n : 0 <= n <= len l -> len (slice_to l n) = n.
Proof. unfold len, slice_to. intros H. rewrite length_firstn. lia. Qed.

Lemma len_slice_to_le l n : len (slice_to l n) <= len l.
Proof. unfold len, slice_to. rewrite length_firstn. lia. Qed.

Lemma len_slice_from l n : 0 <= n <= len l -> len (slice_from l n) = len l - n.
Proof. unfold len, slice_from. intros H. rewrite length_skipn. lia. Qed.

Lemma len_slice l lo hi :
  0 <= lo <= hi -> hi <= len l -> len (slice l lo hi) = hi - lo.
Proof.
  intros H1 H2. unfold slice. rewrite len_slice_to; [reflexivity|].
  rewrite len_slice_from; lia.
Qed.

Lemma slice_to_nonpos l n : n <= 0 -> slice_to l n = [].
Proof.
  intros H. unfold slice_to. replace (Z.to_nat n) with 0%nat by lia.
  reflexivity.
Qed.

Lemma slice_from_nonpos l n : n <= 0 -> slice_from l n = l.
Proof.
  intros H. unfold slice_from. replace (Z.to_nat n) with 0%nat by lia.
  reflexivity.
Qed.

Lemma slice_to_all l n : len l <= n -> slice_to l n = l.
Proof. unfold len, slice_to. intros H. apply firstn_all2. lia. Qed.

Lemma slice_from_all l n : len l <= n -> slice_from l n = [].
Proof. unfold len, slice_from. intros H. apply skipn_all2. lia. Qed.

Lemma slice_split l n : slice_to l n ++ slice_from l n = l.
Proof. apply firstn_skipn. Qed.

Lemma slice_to_app_le l1 l2 n :
  n <= len l1 -> slice_to (l1 ++ l2) n = slice_to l1 n.
Proof.
  unfold len, slice_to. intros H. rewrite firstn_app.
  replace (Z.to_nat n - List.length l1)%nat with 0%nat by lia.
  simpl. apply app_nil_r.
Qed.

Lemma slice_to_app_ge l1 l2 n :
  len l1 <= n -> slice_to (l1 ++ l2) n = l1 ++ slice_to l2 (n - len l1).
Proof.
  unfold len, slice_to. intros H. rewrite firstn_app.
  rewrite firstn_all2 by lia. f_equal. f_equal. lia.
Qed.

Lemma slice_from_app_le l1 l2 n :
  n <= len l1 -> slice_from (l1 ++ l2) n = slice_from l1 n ++ l2.
Proof.
  unfold len, slice_from. intros H. rewrite skipn_app.
  replace (Z.to_nat n - List.length l1)%nat with 0%nat by lia.
  reflexivity.
Qed.

Lemma slice_from_app_ge l1 l2 n :
  len l1 <= n -> slice_from (l1 ++ l2) n = slice_from l2 (n - len l1).
Proof.
  unfold len, slice_from. intros H. rewrite skipn_app.
  rewrite skipn_all2 by lia. simpl. f_equal. lia.
Qed.

Lemma slice_from_from l a b :
  0 <= a -> 0 <= b -> slice_from (slice_from l a) b = slice_from l (a + b).
Proof.
  intros Ha Hb. unfold slice_from. rewrite skipn_skipn. f_equal. lia.
Qed.

Lemma slice_to_to l a b :
  a <= b -> slice_to (slice_to l b) a = slice_to l a.
Proof.
  intros H. unfold slice_to. rewrite firstn_firstn. f_equal. lia.
Qed.

Lemma slice_from_to l a b :
  0 <= b -> slice_from (slice_to l a) b = slice l b a.
Proof.
  intros Hb. unfold slice, slice_from, slice_to.
  destruct (Z_le_gt_dec b a) as [Hle|Hgt].
  - rewrite firstn_skipn_comm. f_equal. f_equal. lia.
  - replace (Z.to_nat (a - b)) with 0%nat by lia. simpl.
    apply skipn_all2. rewrite length_firstn. lia.
Qed.

Lemma slice_from_slice l lo hi n :
  0 <= lo -> 0 <= n -> slice_from (slice l lo hi) n = slice l (lo + n) hi.
Proof.
  intros Hlo Hn. unfold slice at 1. rewrite slice_from_to by assumption.
  unfold slice. rewrite slice_from_from by assumption.
  f_equal. lia.
Qed.

Lemma slice_to_slice l lo hi n :
  n <= hi - lo -> slice_to (slice l lo hi) n = slice l lo (lo + n).
Proof.
  intros Hn. unfold slice. rewrite slice_to_to by assumption.
  f_equal. lia.
Qed.

Lemma slice_full l : slice l 0 (len l) = l.
Proof.
  unfold slice. rewrite slice_from_nonpos by lia.
  apply slice_to_all. lia.
Qed.

Lemma slice_empty l lo hi : hi <= lo -> slice l lo hi = [].
Proof. intros H. unfold slice. apply slice_to_nonpos. lia. Qed.

Lemma slice_app_mid l lo mid hi :
  0 <= lo <= mid -> mid <= hi ->
  slice l lo mid ++ slice l mid hi = slice l lo hi.
Proof.
  intros H1 H2.
  rewrite <- (slice_split (slice l lo hi) (mid - lo)).
  rewrite slice_to_slice by lia. rewrite slice_from_slice by lia.
  f_equal; f_equal; lia.
Qed.

Lemma slice_to_as_slice l n : slice_to l n = slice l 0 n.
Proof.
  unfold slice. rewrite slice_from_nonpos by lia. f_equal. lia.
Qed.

Lemma slice_from_as_slice l n : 0 <= n -> slice_from l n = slice l n (len l).
Proof.
  intros H. unfold slice. symmetry.
  destruct (Z_le_gt_dec n (len l)).
  - apply slice_to_all. rewrite len_slice_from; lia.
  - rewrite slice_from_all by lia. apply firstn_nil.
Qed.

(** What [copy] leaves in the destination, and how much it reports. *)
Lemma copy_fst dst src :
  fst (copy dst src) =
  slice_to src (Z.min (len dst) (len src)) ++
  slice_from dst (Z.min (len dst) (len src)).
Proof. reflexivity. Qed.

Lemma copy_snd dst src : snd (copy dst src) = Z.min (len dst) (len src).
Proof. reflexivity. Qed.

Lemma copy_len dst src : len (fst (copy dst src)) = len dst.
Proof.
  rewrite copy_fst. rewrite len_app.
  pose proof (len_nonneg dst). pose proof (len_nonneg src).
  rewrite len_slice_to by lia. rewrite len_slice_from by lia. lia.
Qed.

Lemma copy_at_len dst off src :
  len (fst (copy_at dst off src)) = len dst.
Proof.
  unfold copy_at.
  destruct (copy (slice_from dst off) src) as [d n] eqn:E. simpl.
  assert (Hd : d = fst (copy (slice_from dst off) src)) by (rewrite E; reflexivity).
  rewrite len_app, Hd, copy_len.
  rewrite <- len_app, slice_split. reflexivity.
Qed.

(** A copy that fits: the source lands at [off] and the rest of the
    destination is untouched. *)
Lemma copy_at_fits dst off src :
  0 <= off -> off + len src <= len dst ->
  fst (copy_at dst off src) =
  slice_to dst off ++ src ++ slice_from dst (off + len src).
Proof.
  intros H0 H1. unfold copy_at.
  destruct (copy (slice_from dst off) src) as [d n] eqn:E. simpl.
  assert (Hd : d = fst (copy (slice_from dst off) src)) by (rewrite E; reflexivity).
  rewrite Hd, copy_fst.
  pose proof (len_nonneg src).
  rewrite len_slice_from by lia.
  rewrite Z.min_r by lia.
  rewrite (slice_to_all src) by lia.
  rewrite slice_from_from by lia. reflexivity.
Qed.

(** A copy that does not fit fills the destination to its end. *)
Lemma copy_at_overflow dst off src :
  0 <= off <= len dst -> len dst - off <= len src ->
  fst (copy_at dst off src) =
  slice_to dst off ++ slice_to src (len dst - off).
Proof.
  intros H0 H1. unfold copy_at.
  destruct (copy (slice_from dst off) src) as [d n] eqn:E. simpl.
  assert (Hd : d = fst (copy (slice_from dst off) src)) by (rewrite E; reflexivity).
  rewrite Hd, copy_fst.
  rewrite len_slice_from by lia.
  rewrite Z.min_l by lia.
  rewrite (slice_from_all (slice_from dst off)).
  - rewrite app_nil_r. reflexivity.
  - rewrite len_slice_from by lia. lia.
Qed.
End SliceFacts.

Lemma len_make n : 0 <= n -> len (make n) = n.
Proof. intros H. unfold len, make. rewrite repeat_length. lia. Qed.

(** ** The ring queue: [read] and [write] against the bytes held *)

Lemma geb_true x y : x >= y -> (x >=? y) = true.
Proof. intros H. rewrite Z.geb_leb. apply Z.leb_le. lia. Qed.

Lemma geb_false x y : x < y -> (x >=? y) = false.
Proof. intros H. rewrite Z.geb_leb. apply Z.leb_gt. lia. Qed.

Lemma queued_contents q : wf q -> queued q = len (contents q).
Proof.
  destruct q as [d h t]. unfold wf, queued, contents; simpl.
  intros (Ht & Hh & Htl & Heq & Hfull).
  destruct (Z_ge_lt_dec h t) as [E|E].
  - rewrite geb_true by lia. rewrite len_slice; lia.
  - rewrite geb_false by lia.
    rewrite len_app, len_slice_from, len_slice_to; lia.
Qed.

Lemma read_linear d h t p :
  h >= t ->
  read (mkQueue d h t) p =
  let n := Z.min (len p) (len (slice d t h)) in
  (if t + n =? h then mkQueue d 0 0 else mkQueue d h (t + n),
   slice_to (slice d t h) n ++ slice_from p n, n).
Proof.
  intros H. unfold read; simpl.
  rewrite geb_true by lia.
  reflexivity.
Qed.

Lemma read_wrapped d h t p :
  h < t ->
  read (mkQueue d h t) p =
  let n := Z.min (len p) (len (slice_from d t)) in
  let p1 := slice_to (slice_from d t) n ++ slice_from p n in
  if t + n =? len d then
    let m := Z.min (len (slice_from p1 n)) (len (slice_to d h)) in
    (if m =? h then mkQueue d 0 0 else mkQueue d h m,
     slice_to p1 n ++ slice_to (slice_to d h) m ++ slice_from (slice_from p1 n) m,
     n + m)
  else
    (if t + n =? h then mkQueue d 0 0 else mkQueue d h (t + n), p1, n).
Proof.
  intros H. unfold read; simpl.
  rewrite geb_false by lia.
  unfold copy_at, copy. simpl.
  destruct (t + _ =? len d); reflexivity.
Qed.

Lemma read_spec q p : wf q ->
  let n := Z.min (len p) (queued q) in
  snd (read q p) = n /\
  snd (fst (read q p)) = slice_to (contents q) n ++ slice_from p n /\
  contents (fst (fst (read q p))) = slice_from (contents q) n /\
  wf (fst (fst (read q p))) /\
  data (fst (fst (read q p))) = data q.
Proof.
  intros Hwf. pose proof (queued_contents Hwf) as Hq. revert Hwf Hq.
  destruct q as [d h t]. unfold wf, queued, contents; simpl.
  intros (Ht & Hh & Htl & Heq & Hfull) Hq.
  pose proof (len_nonneg p) as Hp.
  destruct (Z_ge_lt_dec h t) as [E|E].
  - rewrite geb_true in * by lia.
    rewrite read_linear by lia. cbv zeta.
    rewrite <- Hq.
    set (n := Z.min (len p) (h - t)).
    assert (Hn : 0 <= n <= h - t) by (unfold n; lia).
    destruct (t + n =? h) eqn:E1; simpl.
    + apply Z.eqb_eq in E1.
      repeat split; try lia.
      * unfold contents; simpl. rewrite slice_empty by lia.
        rewrite slice_from_slice by lia. rewrite slice_empty by lia. reflexivity.
      * destruct Hfull as [->|Hf]; [left; reflexivity|right]. unfold queued; simpl. lia.
    + apply Z.eqb_neq in E1.
      repeat split; try lia.
      * unfold contents; simpl.
        rewrite geb_true by lia.
        rewrite slice_from_slice by lia. reflexivity.
      * destruct Hfull as [->|Hf]; [left; reflexivity|right]. unfold queued; simpl.
        rewrite geb_true by lia. lia.
  - rewrite geb_false in * by lia.
    rewrite read_wrapped by lia. cbv zeta.
    assert (Htd : t < len d) by lia.
    rewrite len_app in Hq.
    rewrite len_slice_from in * by lia. rewrite len_slice_to in * by lia.
    set (n := Z.min (len p) (len d - t)).
    assert (Hn : 0 <= n <= len d - t) by (unfold n; lia).
    assert (HA : len (slice_to (slice_from d t) n) = n)
      by (apply len_slice_to; rewrite len_slice_from; lia).
    assert (Hfrom : slice_from (slice_to (slice_from d t) n ++ slice_from p n) n
                    = slice_from p n).
    { rewrite slice_from_app_ge by lia. rewrite HA.
      apply slice_from_nonpos. lia. }
    assert (Hto : slice_to (slice_to (slice_from d t) n ++ slice_from p n) n
                  = slice_to (slice_from d t) n).
    { rewrite slice_to_app_le by lia. apply slice_to_to. lia. }
    rewrite Hfrom, Hto.
    assert (Hpn : len (slice_from p n) = len p - n)
      by (apply len_slice_from; unfold n; lia).
    rewrite Hpn.
    destruct (t + n =? len d) eqn:E1.
    + apply Z.eqb_eq in E1.
      assert (Hnd : n = len d - t) by lia.
      set (m := Z.min (len p - n) h).
      assert (Hm : 0 <= m <= h) by (unfold m, n; lia).
      assert (Hc1 : slice_to (slice_from d t) n = slice_from d t).
      { apply slice_to_all. rewrite len_slice_from; lia. }
      rewrite Hc1.
      assert (Htot : Z.min (len p) (len d + h - t) = n + m) by (unfold m, n; lia).
      rewrite Htot.
      assert (Hp' : slice_from d t ++ slice_to (slice_to d h) m ++
                    slice_from (slice_from p n) m =
                    slice_to (slice_from d t ++ slice_to d h) (n + m) ++
                    slice_from p (n + m)).
      { rewrite slice_to_app_ge by (rewrite len_slice_from; lia).
        rewrite len_slice_from by lia.
        replace (n + m - (len d - t)) with m by lia.
        rewrite slice_from_from by lia. rewrite <- app_assoc. reflexivity. }
      assert (Hrest : slice_from (slice_from d t ++ slice_to d h) (n + m) =
                      slice d m h).
      { rewrite slice_from_app_ge by (rewrite len_slice_from; lia).
        rewrite len_slice_from by lia.
        replace (n + m - (len d - t)) with m by lia.
        apply slice_from_to. lia. }
      destruct (m =? h) eqn:E2; simpl.
      * apply Z.eqb_eq in E2. repeat split; try lia; try assumption.
        unfold contents; simpl. rewrite Hrest.
        rewrite !slice_empty by lia. reflexivity.
      * apply Z.eqb_neq in E2. repeat split; try lia; try assumption.
        -- unfold contents; simpl. rewrite geb_true by lia.
           rewrite Hrest. reflexivity.
        -- right. unfold queued; simpl. rewrite geb_true by lia. lia.
    + apply Z.eqb_neq in E1.
      replace (t + n =? h) with false by (symmetry; apply Z.eqb_neq; lia).
      simpl.
      assert (Htot : Z.min (len p) (len d + h - t) = n) by (unfold n; lia).
      rewrite Htot.
      repeat split; try lia.
      * rewrite slice_to_app_le by (rewrite len_slice_from; lia). reflexivity.
      * unfold contents; simpl. rewrite geb_false by lia.
        rewrite slice_from_app_le by (rewrite len_slice_from; lia).
        rewrite slice_from_from by lia. reflexivity.
      * right. unfold queued; simpl. rewrite geb_false by lia. lia.
Qed.

Lemma write_phases q p : write q p = store (grow q p) p.
Proof. reflexivity. Qed.

Lemma grow_spec q p : wf q ->
  wf (grow q p) /\ contents (grow q p) = contents q /\
  len p < len (data (grow q p)) - queued (grow q p).
Proof.
  intros Hwf. unfold grow.
  pose proof (len_nonneg p) as Hp.
  pose proof (len_nonneg (data q)) as Hd.
  pose proof (queued_contents Hwf) as Hq.
  pose proof (len_nonneg (contents q)) as Hc.
  assert (Hql : queued q <= len (data q)).
  { destruct Hwf as (_ & _ & _ & _ & [Hnil|Hlt]); [|lia].
    revert Hq. unfold contents, queued. rewrite Hnil.
    destruct (head q >=? tail q); unfold slice, slice_from, slice_to;
      rewrite ?skipn_nil, ?firstn_nil; simpl; rewrite ?len_nil; lia. }
  remember (queued q) as k eqn:Hk.
  destruct (Z_ge_lt_dec (len p) (len (data q) - k)) as [E|E].
  - rewrite geb_true by lia.
    set (need0 := len p - (len (data q) - k) + 1).
    set (need := if need0 <? 256 then 256 else need0).
    assert (Hneed : 256 <= need /\ need0 <= need).
    { unfold need. destruct (Z.ltb_spec need0 256); lia. }
    clearbody need. unfold need0 in Hneed. clear need0.
    pose proof (read_spec (make (len (data q) + need)) Hwf) as H.
    destruct (read q (make (len (data q) + need))) as [[q' d'] n'].
    cbv zeta in H. simpl in H. rewrite <- Hk in H.
    rewrite len_make in H by lia.
    rewrite Z.min_r in H by lia.
    destruct H as (Hn & Hd' & _). subst n'.
    rewrite (slice_to_all (contents q)) in Hd' by lia.
    assert (Hlen : len d' = len (data q) + need).
    { rewrite Hd', len_app, len_slice_from, len_make; rewrite ?len_make; lia. }
    split; [|split].
    + unfold wf, queued; simpl. rewrite geb_true by lia.
      repeat split; lia.
    + unfold contents at 1; simpl. rewrite geb_true by lia.
      rewrite <- slice_to_as_slice. rewrite Hd'.
      rewrite slice_to_app_le by lia. apply slice_to_all. lia.
    + unfold queued; simpl. rewrite geb_true by lia. lia.
  - rewrite geb_false by lia. rewrite <- Hk. auto with zarith.
Qed.

Lemma store_spec q p : wf q -> len p < len (data q) - queued q ->
  contents (store q p) = contents q ++ p /\ wf (store q p).
Proof.
  destruct q as [d h t]. unfold wf, queued, contents, store; cbn [data head tail].
  intros (Ht & Hh & Htl & Heq & Hfull) Hroom.
  pose proof (len_nonneg p) as Hp.
  destruct (Z_ge_lt_dec h t) as [E|E].
  - rewrite (geb_true E) in *.
    destruct (Z.ltb_spec (len d - h) (len p)) as [W|W]; cbn [data head tail].
    + (* the write wraps *)
      set (n := len d - h) in *.
      assert (Hp2 : len (slice_from p n) = len p - n)
        by (apply len_slice_from; lia).
      set (d1 := fst (copy_at d h p)).
      assert (Hd1 : d1 = slice_to d h ++ slice_to p n)
        by (apply copy_at_overflow; lia).
      assert (Hl1 : len d1 = len d) by apply copy_at_len.
      rewrite copy_at_fits by lia.
      rewrite slice_to_nonpos by lia. cbn [app].
      rewrite Hp2. replace (0 + (len p - n)) with (len p - n) by lia.
      rewrite geb_false by lia.
      split.
      * rewrite slice_to_app_le by lia.
        rewrite (slice_to_all (slice_from p n)) by lia.
        rewrite slice_from_app_ge by lia.
        rewrite Hp2. rewrite slice_from_from by lia.
        replace (len p - n + (t - (len p - n))) with t by lia.
        rewrite Hd1.
        rewrite slice_from_app_le by (rewrite len_slice_to; lia).
        rewrite slice_from_to by lia.
        rewrite <- app_assoc. rewrite slice_split. reflexivity.
      * rewrite len_app, Hp2, len_slice_from by lia.
        repeat split; lia.
    + (* the write fits before the end of the buffer *)
      rewrite copy_at_fits by lia.
      rewrite geb_true by lia.
      split.
      * unfold slice at 1.
        rewrite slice_from_app_le by (rewrite len_slice_to; lia).
        rewrite slice_from_to by lia.
        rewrite app_assoc.
        rewrite slice_to_app_le by (rewrite len_app, len_slice; lia).
        apply slice_to_all. rewrite len_app, len_slice; lia.
      * rewrite !len_app, len_slice_to, len_slice_from by lia.
        repeat split; lia.
  - rewrite (geb_false E) in *.
    destruct (Z.ltb_spec (len d - h) (len p)) as [W|W]; [lia|]. cbn [data head tail].
    rewrite copy_at_fits by lia.
    rewrite geb_false by lia.
    split.
    + rewrite app_assoc.
      rewrite slice_from_app_ge by (rewrite len_app, len_slice_to; lia).
      rewrite len_app, len_slice_to by lia.
      rewrite slice_from_from by lia.
      replace (h + len p + (t - (h + len p))) with t by lia.
      rewrite slice_to_app_le by (rewrite len_app, len_slice_to; lia).
      rewrite slice_to_all by (rewrite len_app, len_slice_to; lia).
      rewrite app_assoc. reflexivity.
    + rewrite !len_app, len_slice_to, len_slice_from by lia.
      repeat split; lia.
Qed.

Lemma write_spec q p : wf q ->
  contents (write q p) = contents q ++ p /\ wf (write q p).
Proof.
  intros Hwf. rewrite write_phases.
  destruct (grow_spec p Hwf) as (Hwf1 & Hc1 & Hroom).
  destruct (store_spec p Hwf1 Hroom) as (Hc2 & Hwf2).
  rewrite Hc2, Hc1. auto.
Qed.

Lemma wf_zero : wf zeroQueue.
Proof. unfold wf, zeroQueue, queued, len; simpl. repeat split; solve [lia | auto]. Qed.

Lemma contents_zero : contents zeroQueue = [].
Proof. reflexivity. Qed.

Lemma reachable_wf q : reachable q -> wf q.
Proof.
  induction 1 as [|q p _ IH|q p _ IH].
  - exact wf_zero.
  - apply (write_spec p IH).
  - apply (read_spec p IH).
Qed.

(** An empty queue has both cursors at 0. *)
Lemma wf_empty_cursors q :
  wf q -> queued q = 0 -> head q = 0 /\ tail q = 0.
Proof.
  destruct q as [d h t]. unfold wf, queued; simpl.
  intros (Ht & Hh & Htl & Heq & Hfull) H0.
  destruct (Z_ge_lt_dec h t) as [E|E].
  - rewrite (geb_true E) in *. lia.
  - rewrite (geb_false E) in *. lia.
Qed.

(** A read into a buffer that is long enough returns everything. *)
Lemma read_all q buf :
  wf q -> queued q <= len buf ->
  snd (read q buf) = queued q /\
  slice_to (snd (fst (read q buf))) (queued q) = contents q /\
  contents (fst (fst (read q buf))) = [] /\
  wf (fst (fst (read q buf))).
Proof.
  intros Hwf Hlen.
  pose proof (queued_contents Hwf) as Hq.
  pose proof (len_nonneg (contents q)) as Hc.
  pose proof (read_spec buf Hwf) as H. cbv zeta in H.
  rewrite Z.min_r in H by lia.
  destruct H as (Hn & Hb & Hc' & Hwf' & _).
  split; [exact Hn|]. split; [|split; [|exact Hwf']].
  - rewrite Hb. rewrite (slice_to_all (contents q)) by lia.
    rewrite slice_to_app_le by lia. apply slice_to_all. lia.
  - rewrite Hc'. apply slice_from_all. lia.
Qed.

Lemma run_op_inv r o : run_inv r -> run_inv (run_op r o).
Proof.
  intros [Hwf Heq]. destruct o as [p|p]; unfold run_op.
  - destruct (write_spec p Hwf) as [Hc Hwf']. split; simpl.
    + exact Hwf'.
    + rewrite Hc, app_assoc, Heq. reflexivity.
  - pose proof (read_spec p Hwf) as H.
    destruct (read (run_queue r) p) as [[q' p'] n]. simpl in H.
    destruct H as (Hn & Hp' & Hc & Hwf' & _).
    rewrite <- Hn in Hp', Hc. split; simpl.
    + exact Hwf'.
    + rewrite Hc, <- Heq, <- app_assoc. f_equal.
      transitivity (slice_to (contents (run_queue r)) n ++
                    slice_from (contents (run_queue r)) n);
        [|apply slice_split].
      f_equal. rewrite Hp'.
      pose proof (queued_contents Hwf). pose proof (len_nonneg p).
      pose proof (len_nonneg (contents (run_queue r))).
      rewrite slice_to_app_le by (rewrite len_slice_to; lia).
      apply slice_to_all. rewrite len_slice_to; lia.
Qed.

Lemma fold_run_inv ops r : run_inv r -> run_inv (fold_left run_op ops r).
Proof.
  revert r. induction ops as [|o ops IH]; intros r Hr; simpl.
  - exact Hr.
  - apply IH. apply run_op_inv. exact Hr.
Qed.

Lemma run_ops_inv ops : run_inv (run_ops ops).
Proof.
  apply fold_run_inv. split; [exact wf_zero | reflexivity].
Qed.

(** ** The engine: how the loop and the handlers unfold *)

Lemma bind_ok {A B : Type} (m : M A) (k : A -> M B) w a w' :
  m w = Ok a w' -> bind m k w = k a w'.
Proof. intros H. unfold bind. rewrite H. reflexivity. Qed.

Lemma bind_hang {A B : Type} (m : M A) (k : A -> M B) w w' :
  m w = Hang w' -> bind m k w = Hang w'.
Proof. intros H. unfold bind. rewrite H. reflexivity. Qed.

Lemma loop_nil w : loop [] w = Ok Waiting w.
Proof. reflexivity. Qed.

Lemma loop_read r evs w :
  loop (EvReadReq r :: evs) w = (handleReadReq r ;; loop evs) w.
Proof. simpl. unfold bind at 1, getB. destruct (txMode (brsp w)); reflexivity. Qed.

Lemma loop_write p evs w :
  loop (EvWriteReq p :: evs) w = (handleWriteReq p ;; loop evs) w.
Proof. simpl. unfold bind at 1, getB. destruct (txMode (brsp w)); reflexivity. Qed.

Lemma loop_flush c evs w :
  loop (EvFlushReq c :: evs) w = (handleFlushReq c ;; loop evs) w.
Proof. simpl. unfold bind at 1, getB. destruct (txMode (brsp w)); reflexivity. Qed.

Lemma loop_incoming i evs w :
  loop (EvIncomingData i :: evs) w = (handleIncomingData i ;; loop evs) w.
Proof. simpl. unfold bind at 1, getB. destruct (txMode (brsp w)); reflexivity. Qed.

Lemma loop_write_error e evs w :
  loop (EvWriteErrors e :: evs) w = (handleWriteError e ;; loop evs) w.
Proof. simpl. unfold bind at 1, getB. destruct (txMode (brsp w)); reflexivity. Qed.

Lemma loop_closed evs w :
  loop (EvClosed :: evs) w = (loop_deferred ;; ret Exited) w.
Proof. simpl. unfold bind at 1, getB. destruct (txMode (brsp w)); reflexivity. Qed.

Lemma loop_outgoing_active evs w :
  txMode (brsp w) = true ->
  loop (EvOutgoingData :: evs) w =
  (writer (outData (brsp w)) ;; handleOutgoingData ;; loop evs) w.
Proof. intros H. simpl. unfold bind at 1, getB. rewrite H. reflexivity. Qed.

Lemma loop_outgoing_idle evs w :
  txMode (brsp w) = false -> loop (EvOutgoingData :: evs) w = loop evs w.
Proof. intros H. simpl. unfold bind at 1, getB. rewrite H. reflexivity. Qed.

Lemma loop_app evs1 evs2 w w1 :
  loop evs1 w = Ok Waiting w1 -> loop (evs1 ++ evs2) w = loop evs2 w1.
Proof.
  revert w. induction evs1 as [|ev evs1 IH]; intros w H.
  - rewrite loop_nil in H. inversion H. reflexivity.
  - simpl app. destruct ev.
    + rewrite loop_read in *. revert H. unfold bind.
      destruct (handleReadReq r w) as [[] w'|w']; [apply IH|discriminate].
    + rewrite loop_write in *. revert H. unfold bind.
      destruct (handleWriteReq w0 w) as [[] w'|w']; [apply IH|discriminate].
    + rewrite loop_flush in *. revert H. unfold bind.
      destruct (handleFlushReq f w) as [[] w'|w']; [apply IH|discriminate].
    + rewrite loop_incoming in *. revert H. unfold bind.
      destruct (handleIncomingData d w) as [[] w'|w']; [apply IH|discriminate].
    + destruct (txMode (brsp w)) eqn:T.
      * rewrite loop_outgoing_active in * by exact T. revert H. unfold bind.
        destruct (writer (outData (brsp w)) w) as [[] w'|w']; [|discriminate].
        destruct (handleOutgoingData w') as [[] w''|w'']; [apply IH|discriminate].
      * rewrite loop_outgoing_idle in * by exact T. apply IH. exact H.
    + rewrite loop_write_error in *. revert H. unfold bind.
      destruct (handleWriteError e w) as [[] w'|w']; [apply IH|discriminate].
    + rewrite loop_closed in H. unfold bind, ret in H.
      destruct (loop_deferred w); discriminate.
Qed.

(** Once idle, the pump is offered nothing. *)
Lemma loop_outgoing_idle_repeat k w :
  txMode (brsp w) = false ->
  loop (repeat EvOutgoingData k) w = Ok Waiting w.
Proof.
  intros H. induction k as [|k IH]; simpl repeat.
  - reflexivity.
  - rewrite loop_outgoing_idle by exact H. exact IH.
Qed.

(** The sends of a [range] loop touch neither the bridge nor the
    transport, and only add replies. *)
Lemma range_send_error_frame cs e w :
  brsp (final (range_send_error cs e w)) = brsp w /\
  transmitted (final (range_send_error cs e w)) = transmitted w /\
  exists l, sent (final (range_send_error cs e w)) = sent w ++ l.
Proof.
  revert w. induction cs as [|c cs IH]; intros w; simpl.
  - repeat split. exists []. symmetry. apply app_nil_r.
  - unfold bind, send_error.
    destruct (existsb (error_received c) (sent w)); simpl.
    + repeat split. exists []. symmetry. apply app_nil_r.
    + destruct (IH (mkWorld (brsp w) (sent w ++ [SentError c e]) (transmitted w)))
        as (Hb & Ht & l & Hs). simpl in *.
      repeat split; try assumption.
      exists (SentError c e :: l). rewrite Hs, <- app_assoc. reflexivity.
Qed.

(** Dropping the oldest request as [handleIncomingData] does it: a copy
    one place down, then a cut of the last place. *)
Lemma shift_requests (A : Type) (x : A) (rest : list A) :
  slice_to (fst (copy (x :: rest) (slice_from (x :: rest) 1)))
    (len (x :: rest) - 1) = rest.
Proof.
  assert (H1 : slice_from (x :: rest) 1 = rest) by reflexivity.
  rewrite H1, copy_fst.
  assert (Hl : len (x :: rest) = len rest + 1)
    by (unfold len; simpl List.length; lia).
  pose proof (len_nonneg rest).
  rewrite Hl. rewrite Z.min_r by lia.
  replace (len rest + 1 - 1) with (len rest) by lia.
  rewrite (slice_to_all rest) by lia.
  rewrite slice_to_app_le by lia. apply slice_to_all. lia.
Qed.

(** ** The outbound side, step by step *)

Ltac side := solve [reflexivity | assumption | lia].

(** Splitting a conjunction without opening [wf]. *)
Ltac splits :=
  repeat match goal with
         | |- wf _ => assumption
         | |- _ /\ _ => split
         end.

Lemma slice_to_min {A : Type} (l : list A) k :
  slice_to l (Z.min k (len l)) = slice_to l k.
Proof.
  destruct (Z_le_gt_dec k (len l)).
  - rewrite Z.min_l by lia. reflexivity.
  - rewrite Z.min_r by lia. rewrite !slice_to_all by lia. reflexivity.
Qed.

Lemma slice_from_min {A : Type} (l : list A) k :
  slice_from l (Z.min k (len l)) = slice_from l k.
Proof.
  destruct (Z_le_gt_dec k (len l)).
  - rewrite Z.min_l by lia. reflexivity.
  - rewrite Z.min_r by lia. rewrite !slice_from_all by lia. reflexivity.
Qed.

Lemma chunk_empty_iff w chunk pending :
  outbound w chunk pending ->
  (chunk = [] <-> out_n (outData (brsp w)) = 0).
Proof.
  intros (_ & _ & Hl & Hn & Hc). split; intros H.
  - rewrite H in Hc.
    assert (len (slice_to (out_data (outData (brsp w)))
                   (out_n (outData (brsp w)))) = 0)
      by (rewrite Hc; reflexivity).
    rewrite len_slice_to in * by lia. assumption.
  - rewrite <- Hc, H. reflexivity.
Qed.

(** A write received in transmit mode is staged whole. *)
Lemma write_active w p chunk pending :
  txMode (brsp w) = true -> outbound w chunk pending ->
  exists w',
    handleWriteReq p w = Ok tt w' /\
    txMode (brsp w') = true /\
    outbound w' chunk (pending ++ p) /\
    inbound_side (brsp w') = inbound_side (brsp w) /\
    flushReqs (brsp w') = flushReqs (brsp w) /\
    writeError (brsp w') = writeError (brsp w) /\
    sent w' = sent w /\ transmitted w' = transmitted w.
Proof.
  intros T (Hwf & Hc & Hl & Hn & Hch).
  destruct (write_spec p Hwf) as [Hcw Hwfw].
  eexists. split.
  - unfold handleWriteReq, bind, getB, modify, ret. rewrite T. simpl. reflexivity.
  - simpl. unfold outbound. simpl.
    rewrite Hcw, Hc. splits; side.
Qed.

(** A write received while idle arms the chunk with its first 20 bytes
    and stages the rest. *)
Lemma write_idle w p chunk pending :
  txMode (brsp w) = false -> outbound w chunk pending ->
  exists w',
    handleWriteReq p w = Ok tt w' /\
    txMode (brsp w') = true /\
    outbound w' (slice_to p 20) (pending ++ slice_from p 20) /\
    inbound_side (brsp w') = inbound_side (brsp w) /\
    flushReqs (brsp w') = flushReqs (brsp w) /\
    writeError (brsp w') = writeError (brsp w) /\
    sent w' = sent w /\ transmitted w' = transmitted w.
Proof.
  intros T (Hwf & Hc & Hl & Hn & Hch).
  pose proof (len_nonneg p) as Hp.
  set (l := if len p >? 20 then 20 else len p).
  assert (Hlmin : l = Z.min 20 (len p)).
  { unfold l. destruct (Z.gtb_spec (len p) 20); lia. }
  destruct (write_spec (slice_from p l) Hwf) as [Hcw Hwfw].
  eexists. split.
  - unfold handleWriteReq, bind, getB, modify, ret. rewrite T. simpl. reflexivity.
  - simpl. fold l. unfold outbound. simpl.
    rewrite Hcw, Hc, Hl, <- Hlmin.
    splits; try side.
    + f_equal. rewrite Hlmin. apply slice_from_min.
    + rewrite len_app, len_slice_to, len_slice_from by lia. lia.
    + rewrite slice_to_app_le by (rewrite len_slice_to; lia).
      rewrite slice_to_to by lia. rewrite Hlmin. apply slice_to_min.
Qed.

(** What [handleOutgoingData] reads from the staging queue. *)
Lemma refill_read w chunk pending :
  outbound w chunk pending ->
  exists q d,
    read (outQueue (brsp w)) (out_data (outData (brsp w))) =
    (q, d, Z.min 20 (len pending)) /\
    wf q /\ contents q = slice_from pending 20 /\
    len d = 20 /\
    slice_to d (Z.min 20 (len pending)) = slice_to pending 20 /\
    (pending = [] -> d = out_data (outData (brsp w))).
Proof.
  intros (Hwf & Hc & Hl & Hn & Hch).
  pose proof (read_spec (out_data (outData (brsp w))) Hwf) as H.
  pose proof (queued_contents Hwf) as Hq.
  pose proof (len_nonneg pending) as Hp.
  destruct (read (outQueue (brsp w)) (out_data (outData (brsp w))))
    as [[q d] n].
  cbv zeta in H. simpl in H. rewrite Hq, Hc, Hl in H.
  destruct H as (Hn' & Hd & Hcq & Hwfq & _).
  exists q, d. subst n. splits; try side.
  - rewrite Hcq. apply slice_from_min.
  - rewrite Hd, len_app, len_slice_to, len_slice_from by lia. lia.
  - rewrite Hd. rewrite slice_to_app_le by (rewrite len_slice_to; lia).
    rewrite slice_to_to by lia. apply slice_to_min.
  - intros Hnil. rewrite Hd, Hnil. simpl.
    rewrite Z.min_r by (rewrite len_nil; lia). rewrite len_nil.
    rewrite slice_from_nonpos by lia. reflexivity.
Qed.

(** The pump takes the chunk; the engine arms the next one from the
    staging queue, or an empty one when the queue is empty but the
    chunk taken was not. *)
Lemma outgoing_step w chunk pending evs :
  txMode (brsp w) = true -> outbound w chunk pending ->
  chunk <> [] \/ pending <> [] ->
  exists w',
    loop (EvOutgoingData :: evs) w = loop evs w' /\
    txMode (brsp w') = true /\
    outbound w' (slice_to pending 20) (slice_from pending 20) /\
    inbound_side (brsp w') = inbound_side (brsp w) /\
    flushReqs (brsp w') = flushReqs (brsp w) /\
    writeError (brsp w') = writeError (brsp w) /\
    sent w' = sent w /\
    transmitted w' =
    transmitted w ++ match chunk with [] => [] | _ => [chunk] end.
Proof.
  intros T Hout Hne.
  pose proof (chunk_empty_iff Hout) as Hce.
  destruct (refill_read Hout) as (q & d & Hrd & Hwfq & Hcq & Hld & Hsd & Hdnil).
  destruct Hout as (Hwf & Hc & Hl & Hn & Hch).
  pose proof (len_nonneg pending) as Hp.
  rewrite loop_outgoing_active by exact T.
  unfold writer, handleOutgoingData.
  assert (Htx : forall w0 : World,
            (if out_n (outData (brsp w)) >? 0
             then transmit (slice_to (out_data (outData (brsp w)))
                              (out_n (outData (brsp w))))
             else ret tt) w0 =
            Ok tt (mkWorld (brsp w0) (sent w0)
                     (transmitted w0 ++
                      match chunk with [] => [] | _ => [chunk] end))).
  { intros w0. destruct (Z.gtb_spec (out_n (outData (brsp w))) 0) as [G|G].
    - unfold transmit. rewrite Hch.
      destruct chunk; [exfalso; apply proj1 in Hce; specialize (Hce eq_refl); lia|].
      reflexivity.
    - assert (Hz : out_n (outData (brsp w)) = 0) by lia.
      apply Hce in Hz. rewrite Hz. unfold ret.
      rewrite app_nil_r. destruct w0; reflexivity. }
  erewrite bind_ok by apply Htx.
  unfold bind, getB, modify. cbn [brsp sent transmitted]. rewrite Hrd.
  cbn [brsp sent transmitted].
  destruct (Z.gtb_spec (Z.min 20 (len pending)) 0) as [G|G].
  - eexists. split; [reflexivity|].
    unfold outbound. simpl. rewrite T.
    splits; try side.
  - assert (Hpn : pending = []) by (apply len_zero_nil; lia).
    destruct Hne as [Hne|Hne]; [|contradiction].
    assert (Hpos : out_n (outData (brsp w)) > 0).
    { destruct (Z.eq_dec (out_n (outData (brsp w))) 0) as [Hz|Hz]; [|lia].
      apply Hce in Hz. contradiction. }
    destruct (Z.gtb_spec (out_n (outData (brsp w))) 0) as [G'|G']; [|lia].
    eexists. split; [reflexivity|].
    unfold outbound. simpl. rewrite T.
    splits; try side.
    rewrite Hpn. reflexivity.
Qed.

(** With an empty chunk taken and nothing staged, the engine goes idle
    and turns to the recorded flush requests. *)
Lemma idle_transition w evs :
  txMode (brsp w) = true -> outbound w [] [] ->
  exists w1,
    loop (EvOutgoingData :: evs) w =
    match range_send_error (flushReqs (brsp w)) (writeError (brsp w)) w1 with
    | Ok _ w2 =>
        loop evs (mkWorld (set_writeError None (brsp w2)) (sent w2)
                    (transmitted w2))
    | Hang w2 => Hang w2
    end /\
    txMode (brsp w1) = false /\
    outbound w1 [] [] /\
    inbound_side (brsp w1) = inbound_side (brsp w) /\
    flushReqs (brsp w1) = flushReqs (brsp w) /\
    writeError (brsp w1) = writeError (brsp w) /\
    sent w1 = sent w /\ transmitted w1 = transmitted w.
Proof.
  intros T Hout.
  pose proof (proj1 (chunk_empty_iff Hout) eq_refl) as Hz.
  destruct (refill_read Hout) as (q & d & Hrd & Hwfq & Hcq & Hld & Hsd & Hdnil).
  destruct Hout as (Hwf & Hc & Hl & Hn & Hch).
  rewrite loop_outgoing_active by exact T.
  unfold writer, handleOutgoingData. rewrite Hz.
  change (0 >? 0) with false. cbv iota.
  unfold bind, getB, modify, ret. cbn [brsp sent transmitted].
  rewrite Hrd. cbn [brsp sent transmitted]. rewrite Hz.
  change (Z.min 20 (len (@nil byte)) >? 0) with false.
  change (0 >? 0) with false. cbv iota.
  exists (mkWorld (set_txMode false
                     (set_outData (mkOutgoing d 0) (set_outQueue q (brsp w))))
            (sent w) (transmitted w)).
  split.
  - destruct (range_send_error _ _ _) as [[] w2|w2]; reflexivity.
  - unfold outbound. simpl.
    splits; try side.
Qed.

Lemma fresh_error_snoc c c' e w :
  fresh_error c w -> c <> c' ->
  fresh_error c (mkWorld (brsp w) (sent w ++ [SentError c' e]) (transmitted w)).
Proof.
  unfold fresh_error. simpl. intros H Hne.
  rewrite existsb_app, H. simpl.
  destruct (Nat.eqb_spec c c'); [contradiction|reflexivity].
Qed.

(** Sends to channels that still wait all go through, in order. *)
Lemma range_send_error_fresh cs e w :
  NoDup cs -> (forall c, In c cs -> fresh_error c w) ->
  range_send_error cs e w =
  Ok tt (mkWorld (brsp w) (sent w ++ map (fun c => SentError c e) cs)
           (transmitted w)).
Proof.
  revert w. induction cs as [|c cs IH]; intros w Hnd Hf; simpl.
  - unfold ret. rewrite app_nil_r. destruct w; reflexivity.
  - inversion Hnd as [|? ? Hnotin Hnd']; subst.
    unfold bind, send_error.
    rewrite (Hf c (or_introl eq_refl)).
    rewrite IH.
    + simpl. rewrite <- app_assoc. reflexivity.
    + exact Hnd'.
    + intros c' Hin. apply fresh_error_snoc.
      * apply Hf. right. exact Hin.
      * intros ->. contradiction.
Qed.

(** A send to a channel that has had its value blocks the loop. *)
Lemma range_send_error_stale c cs e w :
  existsb (error_received c) (sent w) = true ->
  range_send_error (c :: cs) e w = Hang w.
Proof.
  intros H. simpl. unfold bind, send_error. rewrite H. reflexivity.
Qed.

Lemma flush_active c w :
  txMode (brsp w) = true ->
  handleFlushReq c w =
  Ok tt (mkWorld (set_flushReqs (flushReqs (brsp w) ++ [c]) (brsp w))
           (sent w) (transmitted w)).
Proof.
  intros T. unfold handleFlushReq, bind, getB, modify. rewrite T. reflexivity.
Qed.

Lemma flush_idle c w :
  txMode (brsp w) = false -> fresh_error c w ->
  handleFlushReq c w =
  Ok tt (mkWorld (set_writeError None (brsp w))
           (sent w ++ [SentError c (writeError (brsp w))]) (transmitted w)).
Proof.
  intros T F. unfold handleFlushReq, bind, getB, modify, send_error.
  rewrite T, F. reflexivity.
Qed.

Lemma write_error_captured e w :
  handleWriteError e w =
  Ok tt (mkWorld (set_writeError (Some e) (brsp w)) (sent w) (transmitted w)).
Proof. reflexivity. Qed.

(** ** Worlds of a running bridge *)

Lemma range_svcs_engine svcs b :
  engine_fields (range_svcs svcs b) = engine_fields b.
Proof.
  induction svcs as [|s svcs IH]; simpl; [reflexivity|].
  destruct (Equal (svc_UUID s) brspService); [reflexivity|exact IH].
Qed.

Lemma range_chars_engine chars b :
  engine_fields (range_chars chars b) = engine_fields b.
Proof.
  revert b. induction chars as [|c chars IH]; intros b; simpl; [reflexivity|].
  rewrite IH.
  destruct (Equal (chr_UUID c) brspMode); [reflexivity|].
  destruct (Equal (chr_UUID c) brspRx); [reflexivity|].
  destruct (Equal (chr_UUID c) brspTx); reflexivity.
Qed.

Lemma discover_engine b :
  engine_fields (fst (discover b)) = engine_fields b.
Proof.
  unfold discover.
  destruct (DiscoverServices (b_p b) [brspService]) as [svcs [e|]];
    [reflexivity|].
  pose proof (range_svcs_engine svcs b) as H1.
  destruct (is_nil (b_brspService (range_svcs svcs b))); [exact H1|].
  destruct (DiscoverCharacteristics _ _ _) as [chars [e|]]; [exact H1|].
  pose proof (range_chars_engine chars (range_svcs svcs b)) as H2.
  rewrite H1 in H2.
  destruct (is_nil _ || is_nil _ || is_nil _); [exact H2|].
  destruct (DiscoverDescriptors _ _); exact H2.
Qed.

Lemma init_engine b : engine_fields (fst (init b)) = engine_fields b.
Proof.
  unfold init. pose proof (discover_engine b) as H.
  destruct (discover b) as [b' [e|]]; simpl in *; [exact H|].
  destruct (SetIndicateValue _ _ false); [exact H|].
  destruct (SetIndicateValue _ _ true); [exact H|].
  destruct (WriteCharacteristic _ _ _ _); exact H.
Qed.

(** A bridge just opened has the zero value in every engine field. *)
Lemma open_engine p b g :
  OpenBRSP p = (Some b, None, g) ->
  engine_fields b = engine_fields (newBRSP p).
Proof.
  unfold OpenBRSP. pose proof (init_engine (newBRSP p)) as H.
  destruct (init (newBRSP p)) as [b' [e|]]; simpl in *; [discriminate|].
  intros E. inversion E; subst. exact H.
Qed.

Lemma example_open :
  OpenBRSP examplePeripheral = (Some exampleBRSP, None, [GoLoop; GoWriter]).
Proof. reflexivity. Qed.

Lemma example_running : running exampleWorld.
Proof. eapply running_open. exact example_open. Qed.

Lemma outbound_fields_inv w w' :
  outbound_fields (brsp w') = outbound_fields (brsp w) ->
  wf (inQueue (brsp w')) ->
  engine_inv w -> engine_inv w'.
Proof.
  unfold outbound_fields. intros E Hin (_ & chunk & pending & Hout & Hidle).
  inversion E as [[E1 E2 E3]].
  split; [exact Hin|]. exists chunk, pending.
  unfold outbound in *. rewrite E1, E2, E3. auto.
Qed.

Lemma handleReadReq_frame r w w' :
  handleReadReq r w = Ok tt w' -> wf (inQueue (brsp w)) ->
  wf (inQueue (brsp w')) /\
  outbound_fields (brsp w') = outbound_fields (brsp w) /\
  transmitted w' = transmitted w.
Proof.
  unfold handleReadReq, bind, getB, modify, send_result. simpl.
  intros H Hwf.
  destruct (queued (inQueue (brsp w)) >? 0).
  - pose proof (read_spec (req_p r) Hwf) as Hr.
    destruct (read (inQueue (brsp w)) (req_p r)) as [[q p'] n].
    simpl in *. destruct Hr as (_ & _ & _ & Hwfq & _).
    destruct (existsb _ _); [discriminate|].
    inversion H; subst. simpl. auto.
  - inversion H; subst. simpl. auto.
Qed.

Lemma handleFlushReq_frame c w w' :
  handleFlushReq c w = Ok tt w' ->
  inQueue (brsp w') = inQueue (brsp w) /\
  outbound_fields (brsp w') = outbound_fields (brsp w) /\
  transmitted w' = transmitted w.
Proof.
  unfold handleFlushReq, bind, getB, modify, send_error. simpl.
  intros H. destruct (txMode (brsp w)).
  - inversion H; subst. simpl. auto.
  - destruct (existsb _ _); [discriminate|].
    inversion H; subst. simpl. auto.
Qed.

Lemma handleIncomingData_frame i w w' :
  handleIncomingData i w = Ok tt w' -> wf (inQueue (brsp w)) ->
  wf (inQueue (brsp w')) /\
  outbound_fields (brsp w') = outbound_fields (brsp w) /\
  transmitted w' = transmitted w.
Proof.
  unfold handleIncomingData, bind, getB, modify, send_result, ret. simpl.
  intros H Hwf.
  destruct (len (readReqs (brsp w)) >? 0).
  - destruct (readReqs (brsp w)) as [|rr rest].
    + inversion H; subst. auto.
    + simpl in H. destruct (in_n i >? _); simpl in H;
        (destruct (existsb _ _); [discriminate|]);
        inversion H; subst; simpl; splits; try reflexivity;
        try assumption.
      apply write_spec. exact Hwf.
  - destruct (in_err i); inversion H; subst; simpl; splits;
      try reflexivity; apply write_spec; exact Hwf.
Qed.

Lemma handleWriteError_frame e w w' :
  handleWriteError e w = Ok tt w' ->
  inQueue (brsp w') = inQueue (brsp w) /\
  outbound_fields (brsp w') = outbound_fields (brsp w) /\
  transmitted w' = transmitted w.
Proof.
  unfold handleWriteError, modify. intros H. inversion H; subst. simpl. auto.
Qed.

Lemma inbound_side_inQueue b b' :
  inbound_side b' = inbound_side b -> inQueue b' = inQueue b.
Proof. unfold inbound_side. intros H. inversion H. reflexivity. Qed.

Lemma loop_one_ok (m : M unit) w w' :
  (m ;; loop []) w = Ok Waiting w' -> m w = Ok tt w'.
Proof.
  unfold bind. destruct (m w) as [[] w1|w1]; [|discriminate].
  rewrite loop_nil. intros H. inversion H. reflexivity.
Qed.

Lemma step_inv w ev w' :
  engine_inv w -> loop [ev] w = Ok Waiting w' -> engine_inv w'.
Proof.
  intros Hinv H. pose proof Hinv as (Hin & chunk & pending & Hout & Hidle).
  destruct ev.
  - rewrite loop_read in H. apply loop_one_ok in H.
    destruct (@handleReadReq_frame _ _ _ H Hin) as (Hin' & Hf & _).
    exact (@outbound_fields_inv w w' Hf Hin' Hinv).
  - rewrite loop_write in H. apply loop_one_ok in H.
    destruct (txMode (brsp w)) eqn:T.
    + destruct (write_active w0 T Hout) as (w1 & E & T1 & Hout1 & Hs & _).
      rewrite E in H. inversion H; subst.
      split.
      * rewrite (inbound_side_inQueue Hs). exact Hin.
      * exists chunk, (pending ++ w0). split; [exact Hout1|].
        rewrite T1. discriminate.
    + destruct (write_idle w0 T Hout) as (w1 & E & T1 & Hout1 & Hs & _).
      rewrite E in H. inversion H; subst.
      split.
      * rewrite (inbound_side_inQueue Hs). exact Hin.
      * eexists _, _. split; [exact Hout1|].
        rewrite T1. discriminate.
  - rewrite loop_flush in H. apply loop_one_ok in H.
    destruct (@handleFlushReq_frame _ _ _ H) as (Hq & Hf & _).
    apply (@outbound_fields_inv w w' Hf); [rewrite Hq; exact Hin|exact Hinv].
  - rewrite loop_incoming in H. apply loop_one_ok in H.
    destruct (@handleIncomingData_frame _ _ _ H Hin) as (Hin' & Hf & _).
    exact (@outbound_fields_inv w w' Hf Hin' Hinv).
  - destruct (txMode (brsp w)) eqn:T.
    + assert (Hcase : (chunk = [] /\ pending = []) \/
                      (chunk <> [] \/ pending <> [])).
      { destruct chunk; destruct pending; auto;
          right; [right|left|left]; discriminate. }
      destruct Hcase as [[-> ->]|Hne].
      * destruct (idle_transition [] T Hout)
          as (w1 & E & T1 & Hout1 & Hs & Hfl & Hwe & _).
        rewrite E in H.
        destruct (range_send_error_frame (flushReqs (brsp w))
                    (writeError (brsp w)) w1) as (Hb & _).
        destruct (range_send_error _ _ w1) as [[] w2|w2]; [|discriminate].
        rewrite loop_nil in H. inversion H; subst. simpl in Hb.
        destruct Hout1 as (O1 & O2 & O3 & O4 & O5).
        split.
        -- simpl. rewrite Hb. rewrite (inbound_side_inQueue Hs). exact Hin.
        -- exists [], []. unfold outbound. simpl. rewrite Hb.
           splits; auto; lia.
      * destruct (outgoing_step [] T Hout Hne) as (w1 & E & T1 & Hout1 & Hs & _).
        rewrite E, loop_nil in H. inversion H; subst.
        split.
        -- rewrite (inbound_side_inQueue Hs). exact Hin.
        -- eexists _, _. split; [exact Hout1|]. rewrite T1. discriminate.
    + rewrite loop_outgoing_idle, loop_nil in H by exact T.
      inversion H; subst. exact Hinv.
  - rewrite loop_write_error in H. apply loop_one_ok in H.
    destruct (@handleWriteError_frame _ _ _ H) as (Hq & Hf & _).
    apply (@outbound_fields_inv w w' Hf); [rewrite Hq; exact Hin|exact Hinv].
  - rewrite loop_closed in H. unfold bind, ret in H.
    destruct (loop_deferred w); discriminate.
Qed.

Lemma running_inv w : running w -> engine_inv w.
Proof.
  induction 1 as [p b Hopen|w ev w' _ IH Hstep].
  - pose proof (@open_engine _ _ _ Hopen) as E. unfold engine_fields in E.
    simpl in E. inversion E as [[E1 E2 E3 E4 E5 E6 E7 E8]].
    unfold engine_inv, outbound. simpl. rewrite E2, E1, E3, E4. simpl.
    split; [exact wf_zero|]. exists [], [].
    splits; try reflexivity; try lia; try exact wf_zero; auto.
  - exact (@step_inv _ _ _ IH Hstep).
Qed.

(** An idle bridge is ready for a write: the queue is empty and the
    chunk buffer has nothing armed. *)
Lemma running_idle w :
  running w -> txMode (brsp w) = false -> outbound w [] [].
Proof.
  intros Hr T. destruct (running_inv Hr) as (_ & chunk & pending & Hout & Hidle).
  destruct (Hidle T) as [-> ->]. exact Hout.
Qed.

(** ** The inbound side *)

Lemma fresh_result_snoc c c' res buf w b' :
  fresh_result c w -> c <> c' ->
  fresh_result c (mkWorld b' (sent w ++ [SentResult c' res buf])
                    (transmitted w)).
Proof.
  unfold fresh_result. simpl. intros H Hne.
  rewrite existsb_app, H. simpl.
  destruct (Nat.eqb_spec c c'); [contradiction|reflexivity].
Qed.

(** A read that finds nothing queued joins the end of the wait list. *)
Lemma read_pends r w :
  queued (inQueue (brsp w)) = 0 ->
  handleReadReq r w =
  Ok tt (mkWorld (set_readReqs (readReqs (brsp w) ++ [r]) (brsp w))
           (sent w) (transmitted w)).
Proof.
  intros H. unfold handleReadReq, bind, getB, modify. simpl.
  rewrite H. reflexivity.
Qed.

Lemma reads_pend rs evs w :
  queued (inQueue (brsp w)) = 0 ->
  loop (map EvReadReq rs ++ evs) w =
  loop evs (mkWorld (set_readReqs (readReqs (brsp w) ++ rs) (brsp w))
              (sent w) (transmitted w)).
Proof.
  revert w. induction rs as [|r rs IH]; intros w H; simpl map; simpl app.
  - rewrite app_nil_r. destruct w as [b s t]. destruct b. reflexivity.
  - rewrite loop_read. erewrite bind_ok by (apply read_pends; exact H).
    rewrite IH by exact H. simpl. rewrite <- app_assoc. reflexivity.
Qed.

(** A notification goes to the oldest pending read, which leaves the
    wait list; what its buffer does not take is queued. *)
Lemma incoming_pending i rr rest w :
  readReqs (brsp w) = rr :: rest -> fresh_result (req_r rr) w ->
  exists b',
    handleIncomingData i w =
    Ok tt (mkWorld b' (sent w ++ [notified rr i]) (transmitted w)) /\
    readReqs b' = rest /\
    readError b' = readError (brsp w) /\
    outbound_fields b' = outbound_fields (brsp w).
Proof.
  intros Hrr Hf.
  unfold handleIncomingData, bind, getB, modify, send_result, ret, notified.
  cbn [brsp sent transmitted]. rewrite Hrr.
  assert (Hpos : (len (rr :: rest) >? 0) = true).
  { apply Z.gtb_lt. unfold len. simpl List.length. lia. }
  rewrite Hpos, shift_requests.
  unfold fresh_result in Hf.
  destruct (copy (req_p rr) (slice_to (in_data i) (in_n i))) as [p' n] eqn:E.
  cbn [fst snd].
  destruct (in_n i >? n); cbn [brsp sent transmitted]; rewrite Hf;
    eexists; (split; [reflexivity|]); simpl; auto.
Qed.

Lemma notifications_fifo ns : forall rs w,
  readReqs (brsp w) = rs ->
  (List.length ns <= List.length rs)%nat ->
  NoDup (map req_r rs) ->
  (forall r, In r rs -> fresh_result (req_r r) w) ->
  exists w',
    loop (map EvIncomingData ns) w = Ok Waiting w' /\
    sent w' = sent w ++ map (fun ri => notified (fst ri) (snd ri)) (combine rs ns) /\
    readReqs (brsp w') = skipn (List.length ns) rs /\
    transmitted w' = transmitted w.
Proof.
  induction ns as [|i ns IH]; intros rs w Hrs Hlen Hnd Hf.
  - exists w. simpl.
    destruct rs; simpl; rewrite app_nil_r; auto.
  - destruct rs as [|rr rest]; [simpl in Hlen; lia|].
    simpl map. rewrite loop_incoming.
    destruct (incoming_pending i Hrs (Hf rr (or_introl eq_refl)))
      as (b' & E & Hrest & _).
    erewrite bind_ok by exact E.
    simpl map in Hnd. apply NoDup_cons_iff in Hnd.
    destruct Hnd as [Hnotin Hnd'].
    destruct (IH rest (mkWorld b' (sent w ++ [notified rr i]) (transmitted w)))
      as (w' & E' & Hs & Hq & Ht).
    + exact Hrest.
    + simpl in Hlen. lia.
    + exact Hnd'.
    + intros r Hin. apply fresh_result_snoc.
      * apply Hf. right. exact Hin.
      * intros Heq. apply Hnotin. rewrite <- Heq. apply in_map. exact Hin.
    + exists w'. split; [exact E'|]. simpl in *.
      rewrite Hs, <- app_assoc. auto.
Qed.

(** ** The error slots over a run of events *)

Lemma loop_cons ev evs w :
  loop (ev :: evs) w =
  match loop [ev] w with
  | Ok Waiting w1 => loop evs w1
  | Ok Exited w1 => Ok Exited w1
  | Hang w1 => Hang w1
  end.
Proof.
  destruct ev.
  - rewrite !loop_read. unfold bind.
    destruct (handleReadReq r w) as [[] w1|w1]; reflexivity.
  - rewrite !loop_write. unfold bind.
    destruct (handleWriteReq w0 w) as [[] w1|w1]; reflexivity.
  - rewrite !loop_flush. unfold bind.
    destruct (handleFlushReq f w) as [[] w1|w1]; reflexivity.
  - rewrite !loop_incoming. unfold bind.
    destruct (handleIncomingData d w) as [[] w1|w1]; reflexivity.
  - destruct (txMode (brsp w)) eqn:T.
    + rewrite !loop_outgoing_active by exact T. unfold bind.
      destruct (writer (outData (brsp w)) w) as [[] w1|w1]; [|reflexivity].
      destruct (handleOutgoingData w1) as [[] w2|w2]; reflexivity.
    + rewrite !loop_outgoing_idle by exact T. reflexivity.
  - rewrite !loop_write_error. unfold bind.
    destruct (handleWriteError e w) as [[] w1|w1]; reflexivity.
  - rewrite !loop_closed. unfold bind, ret.
    destruct (loop_deferred w) as [[] w1|w1]; reflexivity.
Qed.

Lemma loop_cons_waiting ev evs w w' :
  loop (ev :: evs) w = Ok Waiting w' ->
  exists w1, loop [ev] w = Ok Waiting w1 /\ loop evs w1 = Ok Waiting w'.
Proof.
  rewrite loop_cons.
  destruct (loop [ev] w) as [[|] w1|w1]; try discriminate.
  intros H. exists w1. auto.
Qed.

Lemma running_loop evs : forall w w',
  running w -> loop evs w = Ok Waiting w' -> running w'.
Proof.
  induction evs as [|ev evs IH]; intros w w' Hr H.
  - rewrite loop_nil in H. inversion H; subst. exact Hr.
  - apply loop_cons_waiting in H. destruct H as (w1 & H1 & H2).
    apply (IH w1 w'); [|exact H2].
    exact (@running_step w ev w1 Hr H1).
Qed.

(** Nothing armed and nothing staged. *)
Lemma outbound_drained w :
  engine_inv w ->
  out_n (outData (brsp w)) = 0 -> queued (outQueue (brsp w)) = 0 ->
  outbound w [] [].
Proof.
  intros (_ & chunk & pending & Hout & _) Hn Hq.
  pose proof Hout as (Hwf & Hc & Hl & Hr & Hch).
  rewrite (queued_contents Hwf), Hc in Hq. apply len_zero_nil in Hq.
  rewrite Hn in Hch. rewrite slice_to_nonpos in Hch by lia.
  subst chunk pending. exact Hout.
Qed.

Lemma error_replies_app s1 s2 :
  error_replies (s1 ++ s2) = error_replies s1 ++ error_replies s2.
Proof. apply filter_app. Qed.

Lemma error_received_replies c s :
  existsb (error_received c) (error_replies s) = existsb (error_received c) s.
Proof.
  induction s as [|x s IH]; [reflexivity|].
  destruct x; simpl; rewrite IH; reflexivity.
Qed.

Lemma fresh_error_same c w w1 :
  error_replies (sent w1) = error_replies (sent w) ->
  fresh_error c w -> fresh_error c w1.
Proof.
  unfold fresh_error. intros E H.
  rewrite <- error_received_replies, E, error_received_replies. exact H.
Qed.

Lemma last_write_error_app evs1 evs2 : forall e0,
  last_write_error (evs1 ++ evs2) e0 =
  last_write_error evs2 (last_write_error evs1 e0).
Proof.
  induction evs1 as [|ev evs1 IH]; intros e0; [reflexivity|].
  destruct ev; simpl; apply IH.
Qed.

Lemma flushes_app evs1 evs2 : flushes (evs1 ++ evs2) = flushes evs1 ++ flushes evs2.
Proof.
  induction evs1 as [|ev evs1 IH]; [reflexivity|].
  destruct ev; simpl; rewrite IH; reflexivity.
Qed.

(** The inbound handlers leave the write side alone. *)
Lemma handleReadReq_outside r w w' :
  handleReadReq r w = Ok tt w' ->
  txMode (brsp w') = txMode (brsp w) /\
  writeError (brsp w') = writeError (brsp w) /\
  flushReqs (brsp w') = flushReqs (brsp w) /\
  error_replies (sent w') = error_replies (sent w).
Proof.
  unfold handleReadReq, bind, getB, modify, send_result. simpl.
  intros H. destruct (queued (inQueue (brsp w)) >? 0).
  - destruct (read (inQueue (brsp w)) (req_p r)) as [[q p'] n].
    simpl in *. destruct (existsb _ _); [discriminate|].
    inversion H; subst. simpl. rewrite error_replies_app. simpl.
    rewrite app_nil_r. auto.
  - inversion H; subst. simpl. auto.
Qed.

Lemma handleIncomingData_outside i w w' :
  handleIncomingData i w = Ok tt w' ->
  txMode (brsp w') = txMode (brsp w) /\
  writeError (brsp w') = writeError (brsp w) /\
  flushReqs (brsp w') = flushReqs (brsp w) /\
  error_replies (sent w') = error_replies (sent w).
Proof.
  unfold handleIncomingData, bind, getB, modify, send_result, ret. simpl.
  intros H. destruct (len (readReqs (brsp w)) >? 0).
  - destruct (readReqs (brsp w)) as [|rr rest].
    + inversion H; subst. auto.
    + simpl in H. destruct (in_n i >? _); simpl in H;
        (destruct (existsb _ _); [discriminate|]);
        inversion H; subst; simpl; rewrite error_replies_app; simpl;
        rewrite app_nil_r; auto.
  - destruct (in_err i); inversion H; subst; simpl; auto.
Qed.

(** One event that leaves the engine in transmit mode: the slot holds
    the error received, if one was, the flush request is recorded, if
    one came, and no flush is answered. *)
Lemma step_active w ev w1 :
  engine_inv w -> loop [ev] w = Ok Waiting w1 -> txMode (brsp w1) = true ->
  writeError (brsp w1) = last_write_error [ev] (writeError (brsp w)) /\
  flushReqs (brsp w1) = flushReqs (brsp w) ++ flushes [ev] /\
  error_replies (sent w1) = error_replies (sent w).
Proof.
  intros Hinv H T1. pose proof Hinv as (Hin & chunk & pending & Hout & Hidle).
  destruct ev; simpl last_write_error; simpl flushes; rewrite ?app_nil_r.
  - rewrite loop_read in H. apply loop_one_ok in H.
    destruct (@handleReadReq_outside _ _ _ H) as (_ & H1 & H2 & H3). auto.
  - rewrite loop_write in H. apply loop_one_ok in H.
    destruct (txMode (brsp w)) eqn:T.
    + destruct (write_active w0 T Hout) as (w2 & E & _ & _ & _ & Fl & We & S & _).
      rewrite E in H. inversion H; subst. rewrite S. auto.
    + destruct (write_idle w0 T Hout) as (w2 & E & _ & _ & _ & Fl & We & S & _).
      rewrite E in H. inversion H; subst. rewrite S. auto.
  - rewrite loop_flush in H. apply loop_one_ok in H.
    destruct (txMode (brsp w)) eqn:T.
    + rewrite flush_active in H by exact T. inversion H; subst. simpl. auto.
    + destruct (@handleFlushReq_frame _ _ _ H) as (_ & Hf & _).
      unfold outbound_fields in Hf. inversion Hf as [[E1 E2 E3]].
      rewrite E3, T in T1. discriminate.
  - rewrite loop_incoming in H. apply loop_one_ok in H.
    destruct (@handleIncomingData_outside _ _ _ H) as (_ & H1 & H2 & H3). auto.
  - destruct (txMode (brsp w)) eqn:T.
    + assert (Hcase : (chunk = [] /\ pending = []) \/
                      (chunk <> [] \/ pending <> [])).
      { destruct chunk; destruct pending; auto;
          right; [right|left|left]; discriminate. }
      destruct Hcase as [[-> ->]|Hne].
      * exfalso.
        destruct (idle_transition [] T Hout) as (w2 & E & T2 & _).
        rewrite E in H.
        destruct (range_send_error_frame (flushReqs (brsp w))
                    (writeError (brsp w)) w2) as (Hb & _).
        destruct (range_send_error _ _ w2) as [[] w3|w3]; [|discriminate].
        rewrite loop_nil in H. inversion H; subst. simpl in Hb, T1.
        rewrite Hb, T2 in T1. discriminate.
      * destruct (outgoing_step [] T Hout Hne)
          as (w2 & E & _ & _ & _ & Fl & We & S & _).
        rewrite E, loop_nil in H. inversion H; subst. rewrite S. auto.
    + rewrite loop_outgoing_idle, loop_nil in H by exact T.
      inversion H; subst. rewrite T in T1. discriminate.
  - rewrite loop_write_error in H. apply loop_one_ok in H.
    rewrite write_error_captured in H. inversion H; subst. simpl. auto.
  - rewrite loop_closed in H. unfold bind, ret in H.
    destruct (loop_deferred w); discriminate.
Qed.

Lemma stays_active_cons ev evs w :
  stays_active (ev :: evs) w =
  match loop [ev] w with
  | Ok Waiting w1 => txMode (brsp w1) && stays_active evs w1
  | _ => false
  end.
Proof. reflexivity. Qed.

(** The same over a run of events. *)
Lemma run_active evs : forall w,
  engine_inv w -> stays_active evs w = true ->
  exists w1,
    loop evs w = Ok Waiting w1 /\
    engine_inv w1 /\
    writeError (brsp w1) = last_write_error evs (writeError (brsp w)) /\
    flushReqs (brsp w1) = flushReqs (brsp w) ++ flushes evs /\
    error_replies (sent w1) = error_replies (sent w).
Proof.
  induction evs as [|ev evs IH]; intros w Hinv Hact.
  - exists w. rewrite loop_nil, app_nil_r. auto.
  - rewrite stays_active_cons in Hact.
    destruct (loop [ev] w) as [[|] w0|w0] eqn:E; try discriminate.
    apply andb_prop in Hact. destruct Hact as [T0 Hact].
    destruct (@step_active _ _ _ Hinv E T0) as (We & Fl & S).
    pose proof (@step_inv _ _ _ Hinv E) as Hinv0.
    destruct (IH w0 Hinv0 Hact) as (w1 & E1 & Hinv1 & We1 & Fl1 & S1).
    exists w1. rewrite loop_cons, E. split; [exact E1|]. split; [exact Hinv1|].
    rewrite We1, We, Fl1, Fl, S1, S, <- app_assoc.
    change (ev :: evs) with ([ev] ++ evs).
    rewrite last_write_error_app, flushes_app. auto.
Qed.

(** The engine goes idle with every recorded flush channel waiting:
    each gets the slot, the slot is cleared, and a flush that comes
    next is answered nil. *)
Lemma idle_answers w c2 :
  txMode (brsp w) = true -> outbound w [] [] ->
  NoDup (flushReqs (brsp w) ++ [c2]) ->
  (forall c, In c (flushReqs (brsp w) ++ [c2]) -> fresh_error c w) ->
  exists w',
    loop [EvOutgoingData; EvFlushReq c2] w = Ok Waiting w' /\
    sent w' =
    sent w ++ map (fun c => SentError c (writeError (brsp w)))
                (flushReqs (brsp w)) ++ [SentError c2 None] /\
    writeError (brsp w') = None /\
    txMode (brsp w') = false /\
    flushReqs (brsp w') = flushReqs (brsp w) /\
    transmitted w' = transmitted w.
Proof.
  intros T Hout Hnd Hf.
  destruct (@idle_transition w [EvFlushReq c2] T Hout)
    as (w1 & E & T1 & _ & _ & Fl & We & S & X).
  rewrite E.
  apply NoDup_remove in Hnd. rewrite app_nil_r in Hnd.
  destruct Hnd as [Hnd Hnotin].
  rewrite range_send_error_fresh.
  - rewrite loop_flush. erewrite bind_ok.
    2:{ apply flush_idle; [exact T1|]. unfold fresh_error. simpl.
        rewrite S, existsb_app.
        rewrite (Hf c2) by (apply in_or_app; right; left; reflexivity).
        simpl. clear - Hnotin.
        induction (flushReqs (brsp w)) as [|c cs IH]; [reflexivity|].
        simpl. destruct (Nat.eqb_spec c2 c) as [->|Hne].
        - exfalso. apply Hnotin. left. reflexivity.
        - apply IH. intros Hin. apply Hnotin. right. exact Hin. }
    rewrite loop_nil. eexists. split; [reflexivity|].
    simpl. rewrite S, X, T1, Fl, <- app_assoc. auto.
  - exact Hnd.
  - intros c Hin. unfold fresh_error. rewrite S. apply Hf.
    apply in_or_app. left. exact Hin.
Qed.

(** The engine goes idle with an answered flush channel recorded: the
    loop blocks there, with the slot as it was. *)
Lemma idle_blocks w pre c post evs :
  txMode (brsp w) = true -> outbound w [] [] ->
  flushReqs (brsp w) = pre ++ c :: post ->
  NoDup pre -> (forall c', In c' pre -> fresh_error c' w) ->
  existsb (error_received c) (sent w) = true ->
  exists w',
    loop (EvOutgoingData :: evs) w = Hang w' /\
    sent w' = sent w ++ map (fun c' => SentError c' (writeError (brsp w))) pre /\
    writeError (brsp w') = writeError (brsp w) /\
    flushReqs (brsp w') = flushReqs (brsp w) /\
    transmitted w' = transmitted w.
Proof.
  intros T Hout Hfl Hnd Hf Hstale.
  destruct (@idle_transition w evs T Hout)
    as (w1 & E & T1 & _ & _ & Fl & We & S & X).
  rewrite E, Hfl. clear E.
  assert (Hgen : forall pre w0,
            NoDup pre -> (forall c', In c' pre -> fresh_error c' w0) ->
            existsb (error_received c) (sent w0) = true ->
            range_send_error (pre ++ c :: post) (writeError (brsp w)) w0 =
            Hang (mkWorld (brsp w0)
                    (sent w0 ++ map (fun c' => SentError c' (writeError (brsp w))) pre)
                    (transmitted w0))).
  { clear. induction pre as [|c0 pre IH]; intros w0 Hnd Hf Hstale.
    - simpl app. rewrite range_send_error_stale by exact Hstale.
      simpl. rewrite app_nil_r. destruct w0; reflexivity.
    - apply NoDup_cons_iff in Hnd. destruct Hnd as [Hnotin Hnd].
      simpl. unfold bind, send_error.
      pose proof (Hf c0 (or_introl eq_refl)) as H0. unfold fresh_error in H0.
      rewrite H0. rewrite IH.
      + simpl. rewrite <- app_assoc. reflexivity.
      + exact Hnd.
      + intros c' Hin. apply fresh_error_snoc.
        * apply Hf. right. exact Hin.
        * intros ->. contradiction.
      + simpl. rewrite existsb_app, Hstale. reflexivity. }
  rewrite Hgen.
  - eexists. split; [reflexivity|]. simpl. rewrite S, We, Fl, X. auto.
  - exact Hnd.
  - intros c' Hin. unfold fresh_error. rewrite S. apply Hf. exact Hin.
  - rewrite S. exact Hstale.
Qed.

(** A run in transmit mode, the return to idle, and a flush after it. *)
Lemma drain_answers w evs c2 :
  engine_inv w -> stays_active evs w = true ->
  txMode (brsp (final (loop evs w))) = true ->
  out_n (outData (brsp (final (loop evs w)))) = 0 ->
  queued (outQueue (brsp (final (loop evs w)))) = 0 ->
  NoDup (flushReqs (brsp w) ++ flushes evs ++ [c2]) ->
  (forall c, In c (flushReqs (brsp w) ++ flushes evs ++ [c2]) ->
             fresh_error c w) ->
  exists w',
    loop (evs ++ [EvOutgoingData; EvFlushReq c2]) w = Ok Waiting w' /\
    error_replies (sent w') =
    error_replies (sent w) ++
    map (fun c => SentError c (last_write_error evs (writeError (brsp w))))
      (flushReqs (brsp w) ++ flushes evs) ++ [SentError c2 None] /\
    writeError (brsp w') = None /\
    txMode (brsp w') = false.
Proof.
  intros Hinv Hact T Hn Hq Hnd Hf.
  destruct (run_active evs Hinv Hact) as (w1 & E & Hinv1 & We & Fl & S).
  rewrite E in T, Hn, Hq. simpl in T, Hn, Hq.
  pose proof (outbound_drained Hinv1 Hn Hq) as Hout.
  rewrite (@loop_app evs [EvOutgoingData; EvFlushReq c2] w w1 E).
  destruct (@idle_answers w1 c2 T Hout) as (w' & E' & S' & We' & T' & _).
  - rewrite Fl, <- app_assoc. exact Hnd.
  - intros c Hin. apply (@fresh_error_same c w w1 S). apply Hf.
    rewrite Fl, <- app_assoc in Hin. exact Hin.
  - exists w'. split; [exact E'|].
    rewrite S', !error_replies_app, S, We, Fl.
    split; [|auto]. f_equal. f_equal.
    clear. induction (flushReqs (brsp w) ++ flushes evs) as [|c cs IH];
      [reflexivity|]. simpl. rewrite IH. reflexivity.
Qed.

(** ** The ring queue: the stated properties *)

(** C1. Ring queue round trip: for every sequence of interleaved
    [write] and [read] calls from the zero queue, the bytes returned by
    the reads, concatenated, are a prefix of the bytes passed to the
    writes, concatenated, and are all of them once [queued()] is 0.
    This holds whether or not a write straddles the wrap point or
    reallocates: in particular 300 bytes written into an empty queue of
    capacity 256 make it grow and are read back unchanged. *)
Theorem queue_round_trip :
  (forall ops : list QueueOp,
     let r := run_ops ops in
     (exists rest, run_written r = run_read r ++ rest) /\
     (queued (run_queue r) = 0 -> run_read r = run_written r)) /\
  (forall (q : brspQueue) (p buf : list byte),
     reachable q -> queued q = 0 -> len (data q) = 256 ->
     len p = 300 -> len buf = 300 ->
     256 < len (data (write q p)) /\
     read (write q p) buf =
     (mkQueue (data (write q p)) 0 0, p, 300)).
Proof.
  split.
  - intros ops r. destruct (run_ops_inv ops) as [Hwf Heq]. fold r in Hwf, Heq.
    split.
    + exists (contents (run_queue r)). symmetry. exact Heq.
    + intros H0. rewrite (queued_contents Hwf) in H0.
      apply len_zero_nil in H0. rewrite H0, app_nil_r in Heq. exact Heq.
  - intros q p buf Hr H0 Hcap Hp Hbuf.
    pose proof (reachable_wf Hr) as Hwf.
    assert (Hc : contents q = []).
    { apply len_zero_nil. rewrite <- (queued_contents Hwf). exact H0. }
    destruct (write_spec p Hwf) as [Hcw Hwfw].
    rewrite Hc in Hcw. simpl in Hcw.
    assert (Hqw : queued (write q p) = 300).
    { rewrite (queued_contents Hwfw), Hcw. exact Hp. }
    split.
    + destruct Hwfw as (_ & _ & _ & _ & [Hnil|Hlt]); [|lia].
      exfalso. revert Hqw. unfold queued. rewrite Hnil.
      destruct Hwf as (_ & _ & _ & _ & _).
      pose proof (reachable_wf (reach_write p Hr)) as (Ht & Hh & _).
      rewrite Hnil in Hh. rewrite len_nil in *.
      destruct (head (write q p) >=? tail (write q p)); lia.
    + pose proof (read_all buf Hwfw) as H. rewrite Hqw, Hbuf in H.
      destruct H as (Hn & Hb & Hce & Hwfr); [lia|].
      pose proof (read_spec buf Hwfw) as (_ & _ & _ & _ & Hd).
      destruct (read (write q p) buf) as [[q' b'] n'] eqn:E. simpl in *.
      assert (Hb' : b' = p).
      { pose proof (read_spec buf Hwfw) as H. rewrite E in H.
        cbv zeta in H. simpl in H.
        destruct H as (_ & Hb2 & _).
        rewrite Hqw, Hbuf, Z.min_id in Hb2.
        rewrite Hb2, Hcw.
        rewrite slice_to_all by lia. rewrite slice_from_all by lia.
        apply app_nil_r. }
      assert (Hq0 : queued q' = 0).
      { rewrite (queued_contents Hwfr), Hce. reflexivity. }
      destruct (wf_empty_cursors Hwfr Hq0) as [Hh Ht].
      destruct q' as [d' h' t']. simpl in *. subst. reflexivity.
Qed.

(** The run [ops_300] ends with an empty queue, so all its bytes came
    back. *)
Lemma queue_round_trip_witness :
  queued (run_queue (run_ops ops_300)) = 0 /\
  run_read (run_ops ops_300) = run_written (run_ops ops_300).
Proof.
  assert (H0 : queued (run_queue (run_ops ops_300)) = 0)
    by (vm_compute; reflexivity).
  split; [exact H0|].
  exact (proj2 (proj1 queue_round_trip ops_300) H0).
Defined.

(** C9. Ring queue cursor invariant: in every state reachable from the
    zero queue by [write] and [read], the queued count is
    [(head - tail) mod capacity], the queue is empty exactly when
    [head = tail], and the buffer is never completely full; a read that
    drains the queue leaves both cursors at 0 with [queued()] 0, and a
    write that follows is stored and read back unchanged. *)
Theorem queue_cursor_invariant (q : brspQueue) :
  reachable q ->
  queued q = (head q - tail q) mod len (data q) /\
  (queued q = 0 <-> head q = tail q) /\
  (data q = [] \/ queued q < len (data q)) /\
  (forall buf : list byte,
     queued q <= len buf ->
     let q' := fst (fst (read q buf)) in
     queued q' = 0 /\ head q' = 0 /\ tail q' = 0 /\
     forall p buf' : list byte,
       len p <= len buf' ->
       queued (write q' p) = len p /\
       slice_to (snd (fst (read (write q' p) buf'))) (len p) = p).
Proof.
  intros Hr. pose proof (reachable_wf Hr) as Hwf.
  split; [|split; [|split]].
  - destruct q as [d h t]. revert Hwf. unfold wf, queued; simpl.
    intros (Ht & Hh & Htl & Heq & Hfull).
    destruct (Z_ge_lt_dec h t) as [E|E].
    + rewrite (geb_true E) in *.
      destruct (Z.eq_dec (len d) 0) as [Hz|Hnz].
      * rewrite Hz. rewrite Z.mod_0_r. reflexivity.
      * symmetry. apply Z.mod_small.
        destruct Hfull as [Hnil|Hlt]; [rewrite Hnil, len_nil in Hnz; lia|lia].
    + rewrite (geb_false E) in *.
      apply (Z.mod_unique _ _ (-1)); lia.
  - split.
    + intros H0. destruct (wf_empty_cursors Hwf H0). lia.
    + intros Heq. unfold queued. rewrite geb_true by lia. lia.
  - destruct Hwf as (_ & _ & _ & _ & H). exact H.
  - intros buf Hbuf q'.
    destruct (read_all buf Hwf Hbuf) as (_ & _ & Hc' & Hwf').
    fold q' in Hc', Hwf'.
    assert (H0 : queued q' = 0).
    { rewrite (queued_contents Hwf'), Hc'. reflexivity. }
    destruct (wf_empty_cursors Hwf' H0) as [Hh Ht].
    repeat (split; [assumption|]).
    intros p buf' Hlen.
    destruct (write_spec p Hwf') as [Hcw Hwfw].
    rewrite Hc' in Hcw. simpl in Hcw.
    assert (Hqw : queued (write q' p) = len p).
    { rewrite (queued_contents Hwfw), Hcw. reflexivity. }
    split; [exact Hqw|].
    destruct (read_all buf' Hwfw) as (_ & Hb & _); [lia|].
    rewrite Hqw, Hcw in Hb. exact Hb.
Qed.

(** The invariant at the queue [ops_300] leaves behind after its first
    three calls: 300 bytes in a buffer that has grown. *)
Lemma queue_cursor_invariant_witness :
  reachable (write (fst (fst (read (write zeroQueue [x01]) (make 1))))
               (bytes_from 0 300)) /\
  queued (write (fst (fst (read (write zeroQueue [x01]) (make 1))))
            (bytes_from 0 300)) = 300.
Proof.
  assert (Hr : reachable
                 (write (fst (fst (read (write zeroQueue [x01]) (make 1))))
                    (bytes_from 0 300)))
    by (repeat constructor).
  split; [exact Hr|].
  rewrite (proj1 (queue_cursor_invariant Hr)).
  vm_compute. reflexivity.
Defined.

(** ** The engine: the stated properties *)

(** C4. Fragmentation: a single 45-byte [Write] received while the
    engine is idle, with nothing else written, gives exactly three
    physical transmissions, of the first 20 bytes, the next 20 and the
    last 5, in that order; after them the engine is idle again, and
    further offers to the pump transmit nothing.  With [k] hand-offs to
    the pump after the write, the first [k] of the three chunks have
    been transmitted, and the engine is idle from the fourth on. *)
Theorem fragmentation_45 (w : World) (p : list byte) (k : nat) :
  running w -> txMode (brsp w) = false -> len p = 45 ->
  let r := loop (EvWriteReq p :: repeat EvOutgoingData k) w in
  transmitted (final r) =
  transmitted w ++ firstn k [slice p 0 20; slice p 20 40; slice p 40 45] /\
  map len [slice p 0 20; slice p 20 40; slice p 40 45] = [20; 20; 5] /\
  slice p 0 20 ++ slice p 20 40 ++ slice p 40 45 = p /\
  txMode (brsp (final r)) = (k <? 4)%nat.
Proof.
  intros Hr T Hp r.
  assert (Hlens : map len [slice p 0 20; slice p 20 40; slice p 40 45]
                  = [20; 20; 5]).
  { simpl. rewrite !len_slice by lia. reflexivity. }
  assert (Hcat : slice p 0 20 ++ slice p 20 40 ++ slice p 40 45 = p).
  { rewrite !slice_app_mid by lia. rewrite <- Hp. apply slice_full. }
  assert (Hc1 : slice_to p 20 = slice p 0 20) by apply slice_to_as_slice.
  assert (Hc2 : slice_to (slice_from p 20) 20 = slice p 20 40) by reflexivity.
  assert (Hc3 : slice_to (slice_from (slice_from p 20) 20) 20 = slice p 40 45).
  { rewrite slice_from_from by lia. unfold slice. simpl Z.add.
    rewrite !slice_to_all by (rewrite len_slice_from; lia). reflexivity. }
  assert (Hrest : slice_from (slice_from (slice_from p 20) 20) 20 = []).
  { rewrite !slice_from_from by lia. apply slice_from_all. lia. }
  assert (Hne : forall l : list byte, 0 < len l -> l <> []).
  { intros l Hl ->. unfold len in Hl. simpl in Hl. lia. }
  split; [|split; [exact Hlens|split; [exact Hcat|]]].
  - (* the transmissions *)
    subst r. rewrite loop_write.
    destruct (write_idle p T (running_idle Hr T))
      as (w1 & E1 & T1 & O1 & _ & _ & _ & _ & X1).
    erewrite bind_ok by exact E1. simpl app in O1. rewrite Hc1 in O1.
    destruct k as [|k]; [simpl; rewrite X1, app_nil_r; reflexivity|].
    simpl repeat.
    destruct (outgoing_step (repeat EvOutgoingData k) T1 O1)
      as (w2 & E2 & T2 & O2 & _ & _ & _ & _ & X2).
    { left. apply Hne. rewrite len_slice; lia. }
    rewrite E2. rewrite Hc2 in O2.
    assert (X2' : transmitted w2 = transmitted w ++ [slice p 0 20]).
    { rewrite X2, X1. destruct (slice p 0 20) eqn:D; [|reflexivity].
      exfalso. assert (len (slice p 0 20) = 20) by (rewrite len_slice; lia).
      rewrite D, len_nil in *. lia. }
    destruct k as [|k]; [simpl; exact X2'|].
    simpl repeat.
    destruct (outgoing_step (repeat EvOutgoingData k) T2 O2)
      as (w3 & E3 & T3 & O3 & _ & _ & _ & _ & X3).
    { left. apply Hne. rewrite len_slice; lia. }
    rewrite E3. rewrite Hc3, Hrest in O3.
    assert (X3' : transmitted w3 =
                  transmitted w ++ [slice p 0 20; slice p 20 40]).
    { rewrite X3, X2', <- app_assoc. destruct (slice p 20 40) eqn:D; [|reflexivity].
      exfalso. assert (len (slice p 20 40) = 20) by (rewrite len_slice; lia).
      rewrite D, len_nil in *. lia. }
    destruct k as [|k]; [simpl; exact X3'|].
    simpl repeat.
    destruct (outgoing_step (repeat EvOutgoingData k) T3 O3)
      as (w4 & E4 & T4 & O4 & _ & _ & _ & _ & X4).
    { left. apply Hne. rewrite len_slice; lia. }
    rewrite E4. change (slice_to [] 20) with (@nil byte) in O4.
    change (slice_from [] 20) with (@nil byte) in O4.
    assert (X4' : transmitted w4 =
                  transmitted w ++ [slice p 0 20; slice p 20 40; slice p 40 45]).
    { rewrite X4, X3', <- app_assoc. destruct (slice p 40 45) eqn:D; [|reflexivity].
      exfalso. assert (len (slice p 40 45) = 5) by (rewrite len_slice; lia).
      rewrite D, len_nil in *. lia. }
    destruct k as [|k]; [simpl; exact X4'|].
    simpl repeat. simpl firstn.
    destruct (idle_transition (repeat EvOutgoingData k) T4 O4)
      as (w5 & E5 & T5 & _ & _ & _ & _ & _ & X5).
    rewrite E5.
    destruct (range_send_error_frame (flushReqs (brsp w4))
                (writeError (brsp w4)) w5) as (Hb & Ht & _).
    destruct (range_send_error _ _ w5) as [[] w6|w6]; simpl in Hb, Ht.
    + rewrite loop_outgoing_idle_repeat; simpl; [|rewrite Hb; exact T5].
      rewrite Ht, X5. exact X4'.
    + simpl. rewrite Ht, X5. exact X4'.
  - (* the mode *)
    subst r. rewrite loop_write.
    destruct (write_idle p T (running_idle Hr T))
      as (w1 & E1 & T1 & O1 & _ & _ & _ & _ & X1).
    erewrite bind_ok by exact E1. simpl app in O1. rewrite Hc1 in O1.
    destruct k as [|k]; [simpl; exact T1|].
    simpl repeat.
    destruct (outgoing_step (repeat EvOutgoingData k) T1 O1)
      as (w2 & E2 & T2 & O2 & _).
    { left. apply Hne. rewrite len_slice; lia. }
    rewrite E2. rewrite Hc2 in O2.
    destruct k as [|k]; [simpl; exact T2|].
    simpl repeat.
    destruct (outgoing_step (repeat EvOutgoingData k) T2 O2)
      as (w3 & E3 & T3 & O3 & _).
    { left. apply Hne. rewrite len_slice; lia. }
    rewrite E3. rewrite Hc3, Hrest in O3.
    destruct k as [|k]; [simpl; exact T3|].
    simpl repeat.
    destruct (outgoing_step (repeat EvOutgoingData k) T3 O3)
      as (w4 & E4 & T4 & O4 & _).
    { left. apply Hne. rewrite len_slice; lia. }
    rewrite E4. change (slice_to [] 20) with (@nil byte) in O4.
    change (slice_from [] 20) with (@nil byte) in O4.
    destruct k as [|k]; [simpl; exact T4|].
    simpl repeat.
    destruct (idle_transition (repeat EvOutgoingData k) T4 O4)
      as (w5 & E5 & T5 & _).
    rewrite E5.
    destruct (range_send_error_frame (flushReqs (brsp w4))
                (writeError (brsp w4)) w5) as (Hb & _).
    change (S (S (S (S k))) <? 4)%nat with false.
    destruct (range_send_error _ _ w5) as [[] w6|w6]; simpl in Hb.
    + rewrite loop_outgoing_idle_repeat; simpl; rewrite Hb; exact T5.
    + simpl. rewrite Hb. exact T5.
Qed.

(** On the bridge of the examples, bytes 1 to 45 leave as three chunks
    and a fourth hand-off leaves the engine idle. *)
Lemma fragmentation_45_witness :
  running exampleWorld /\
  txMode (brsp exampleWorld) = false /\
  len (bytes_from 1 45) = 45 /\
  transmitted
    (final (loop (EvWriteReq (bytes_from 1 45) :: repeat EvOutgoingData 4)
              exampleWorld)) =
  [bytes_from 1 20; bytes_from 21 20; bytes_from 41 5].
Proof.
  split; [exact example_running|].
  split; [reflexivity|]. split; [reflexivity|].
  rewrite (proj1 (@fragmentation_45 exampleWorld (bytes_from 1 45) 4
                    example_running eq_refl eq_refl)).
  reflexivity.
Defined.

(** C6. Read FIFO: reads that arrive while no inbound data is queued
    join the wait list behind the reads already pending, in arrival
    order, and each notification that follows satisfies the oldest
    pending read: the replies go out in the order the reads were
    issued, the [j]-th pending read getting the [j]-th notification,
    and the reads not yet served stay pending in their order.  With two
    reads and two notifications on a bridge with none pending, both
    are satisfied in the order they were issued. *)
Theorem read_fifo (w : World) (rs : list brspRequest)
    (ns : list brspIncoming) :
  queued (inQueue (brsp w)) = 0 ->
  NoDup (map req_r (readReqs (brsp w) ++ rs)) ->
  (forall r, In r (readReqs (brsp w) ++ rs) -> fresh_result (req_r r) w) ->
  (List.length ns <= List.length (readReqs (brsp w) ++ rs))%nat ->
  exists w',
    loop (map EvReadReq rs ++ map EvIncomingData ns) w = Ok Waiting w' /\
    sent w' =
    sent w ++
    map (fun ri => notified (fst ri) (snd ri))
      (combine (readReqs (brsp w) ++ rs) ns) /\
    readReqs (brsp w') = skipn (List.length ns) (readReqs (brsp w) ++ rs).
Proof.
  intros Hq Hnd Hf Hlen.
  rewrite reads_pend by exact Hq.
  destruct (@notifications_fifo ns (readReqs (brsp w) ++ rs)
              (mkWorld (set_readReqs (readReqs (brsp w) ++ rs) (brsp w))
                 (sent w) (transmitted w)))
    as (w' & E & Hs & Hr & _); try assumption; try reflexivity.
  exists w'. auto.
Qed.

(** Two reads on the bridge of the examples, then two notifications:
    channel 0 is answered first, with the first notification. *)
Lemma read_fifo_witness :
  exists w',
    loop (map EvReadReq exampleReads ++ map EvIncomingData exampleNotifications)
      exampleWorld = Ok Waiting w' /\
    map (fun s => match s with
                  | SentResult c res _ => (c, res_n res)
                  | SentError c _ => (c, 0)
                  end) (sent w') = [(0%nat, 3); (1%nat, 2)].
Proof.
  destruct (@read_fifo exampleWorld exampleReads exampleNotifications)
    as (w' & E & Hs & _).
  - reflexivity.
  - simpl. repeat constructor; simpl; intuition discriminate.
  - intros r Hin. reflexivity.
  - simpl. lia.
  - exists w'. split; [exact E|]. rewrite Hs. reflexivity.
Defined.

(** C7, as the code has it.  [Write(p)] returns when the loop takes
    [p] from [writeReq], and then it returns [(len(p), nil)]: in every
    world in which the loop is receiving, idle or transmitting, with or
    without a captured transport error, and the call delivers nothing
    on a reply channel, transmits nothing itself and leaves the write
    error slot as it was.  [Write] returns no other value in any state.
    When the loop has returned after the close, or is blocked on a
    send, [Write] blocks for ever and returns nothing. *)
Theorem Write_returns :
  (forall (p : list byte) (w : World),
     exists w',
       Write p (Ok Waiting w) = Returned (len p, None) (Ok Waiting w') /\
       sent w' = sent w /\ transmitted w' = transmitted w /\
       writeError (brsp w') = writeError (brsp w)) /\
  (forall (p : list byte) (eng eng' : Res Status) (r : Z * option error),
     Write p eng = Returned r eng' ->
     r = (len p, None) /\ exists w, eng = Ok Waiting w) /\
  (forall (p : list byte) (eng : Res Status),
     (forall w, eng <> Ok Waiting w) -> Write p eng = Blocked eng).
Proof.
  split; [|split].
  - intros p w. unfold Write, send_writeReq.
    rewrite loop_write.
    unfold handleWriteReq, bind, getB, modify, ret.
    cbn [brsp sent transmitted].
    destruct (txMode (brsp w)); cbn [negb brsp sent transmitted];
      rewrite loop_nil;
      eexists; (split; [reflexivity|]); cbn [brsp sent transmitted];
      destruct (brsp w); auto.
  - intros p eng eng' r. unfold Write, send_writeReq.
    destruct eng as [[|] w|w]; try discriminate.
    intros H. inversion H. split; [reflexivity|]. exists w. reflexivity.
  - intros p eng H. unfold Write, send_writeReq.
    destruct eng as [[|] w|w]; try reflexivity.
    exfalso. apply (H w). reflexivity.
Qed.

(** C7, as stated, fails: not every state of the stream lets [Write]
    return.  After the close the loop has returned and nobody receives
    from [writeReq]; after the second write of [secondWriteSchedule]
    the loop is blocked on an answered flush channel.  In both,
    [Write] blocks for ever. *)
Lemma Write_blocks_after_close :
  Write [x01] (loop [EvClosed] exampleWorld) = Blocked (Ok Exited exampleWorld) /\
  exists w,
    loop secondWriteSchedule exampleWorld = Hang w /\
    Write [x01] (loop secondWriteSchedule exampleWorld) = Blocked (Hang w).
Proof.
  split; [vm_compute; reflexivity|].
  eexists. split; vm_compute; reflexivity.
Qed.

(** A write of three bytes to the bridge of the examples: what it
    returned is 3 and nil, and the loop was receiving. *)
Lemma Write_returns_witness :
  (3, @None error) = (len [x01; x02; x03], None) /\
  exists w, Ok Waiting exampleWorld = Ok Waiting w.
Proof.
  apply (proj1 (proj2 Write_returns) [x01; x02; x03] (Ok Waiting exampleWorld)
           (loop [EvWriteReq [x01; x02; x03]] exampleWorld) (3, None)).
  reflexivity.
Defined.



(** ** The read error slot over a run of events *)














(** ** Write-side errors and flush requests *)

Lemma nonempty_of_len (l : list byte) : 0 < len l -> l <> [].
Proof. intros H ->. unfold len in H. simpl in H. lia. Qed.

Lemma singleton_chunk (l : list byte) :
  l <> [] -> match l with [] => [] | _ :: _ => [l] end = [l].
Proof. destruct l; [contradiction|reflexivity]. Qed.

(** C3, as the code has it.  The bridge keeps one write-error slot,
    which every write error the engine receives overwrites: the slot
    holds the error captured last, and an error captured before it and
    not yet reported is dropped.  A flush received while the engine is
    idle is answered at once with the slot and clears it, so a second
    flush right after it is answered nil.  A flush received while the
    engine transmits is recorded and not answered.  When the engine
    returns to idle and no recorded flush channel has had its reply,
    every recorded flush request, those recorded before the run and
    those received in it, in that order, is answered with the error
    captured last (with what the slot held before the run if the run
    brought no error), the slot is cleared, and a flush right after is
    answered nil; this holds for every run of events that keeps the
    engine in transmit mode, whatever the sizes of the writes and the
    order of the events.  When a recorded flush channel has had its
    reply already, the loop blocks at the first such channel: the
    requests behind it stay unanswered and the slot is not cleared.
    Every world of a running bridge satisfies [engine_inv]. *)
Theorem write_error_latest :
  (forall (w : World) (c1 c2 : chan),
     txMode (brsp w) = false ->
     fresh_error c1 w -> fresh_error c2 w -> c1 <> c2 ->
     exists w',
       loop [EvFlushReq c1; EvFlushReq c2] w = Ok Waiting w' /\
       sent w' =
       sent w ++ [SentError c1 (writeError (brsp w)); SentError c2 None] /\
       writeError (brsp w') = None) /\
  (forall (w : World) (evs : list Event) (c2 : chan),
     engine_inv w -> stays_active evs w = true ->
     txMode (brsp (final (loop evs w))) = true ->
     out_n (outData (brsp (final (loop evs w)))) = 0 ->
     queued (outQueue (brsp (final (loop evs w)))) = 0 ->
     NoDup (flushReqs (brsp w) ++ flushes evs ++ [c2]) ->
     (forall c, In c (flushReqs (brsp w) ++ flushes evs ++ [c2]) ->
                fresh_error c w) ->
     exists w1 w',
       loop evs w = Ok Waiting w1 /\
       writeError (brsp w1) = last_write_error evs (writeError (brsp w)) /\
       flushReqs (brsp w1) = flushReqs (brsp w) ++ flushes evs /\
       error_replies (sent w1) = error_replies (sent w) /\
       loop (evs ++ [EvOutgoingData; EvFlushReq c2]) w = Ok Waiting w' /\
       error_replies (sent w') =
       error_replies (sent w) ++
       map (fun c => SentError c (last_write_error evs (writeError (brsp w))))
         (flushReqs (brsp w) ++ flushes evs) ++ [SentError c2 None] /\
       writeError (brsp w') = None /\
       txMode (brsp w') = false) /\
  (forall (w : World) (pre post : list chan) (c : chan) (evs : list Event),
     engine_inv w -> txMode (brsp w) = true ->
     out_n (outData (brsp w)) = 0 -> queued (outQueue (brsp w)) = 0 ->
     flushReqs (brsp w) = pre ++ c :: post ->
     NoDup pre -> (forall c', In c' pre -> fresh_error c' w) ->
     existsb (error_received c) (sent w) = true ->
     exists w',
       loop (EvOutgoingData :: evs) w = Hang w' /\
       sent w' =
       sent w ++ map (fun c' => SentError c' (writeError (brsp w))) pre /\
       writeError (brsp w') = writeError (brsp w) /\
       flushReqs (brsp w') = flushReqs (brsp w) /\
       transmitted w' = transmitted w).
Proof.
  split; [|split].
  - intros w c1 c2 T F1 F2 Hne.
    rewrite loop_flush. erewrite bind_ok by (apply flush_idle; assumption).
    rewrite loop_flush. erewrite bind_ok.
    2:{ apply flush_idle; [exact T|]. apply fresh_error_snoc; auto. }
    rewrite loop_nil. eexists. split; [reflexivity|].
    simpl. rewrite <- app_assoc. auto.
  - intros w evs c2 Hinv Hact T Hn Hq Hnd Hf.
    destruct (run_active evs Hinv Hact) as (w1 & E & _ & We & Fl & S).
    destruct (@drain_answers w evs c2 Hinv Hact T Hn Hq Hnd Hf)
      as (w' & E' & S' & We' & T').
    exists w1, w'. repeat (split; [assumption|]). assumption.
  - intros w pre post c evs Hinv T Hn Hq Hfl Hnd Hf Hstale.
    exact (@idle_blocks w pre c post evs T (outbound_drained Hinv Hn Hq)
             Hfl Hnd Hf Hstale).
Qed.

(** C3, as stated, fails.  A flush waits behind a 45-byte write whose
    first and second chunks both fail: the flush is answered with the
    second failure, and the first, the earliest outstanding, is never
    reported to anyone and is no longer held. *)
Lemma write_error_overwritten :
  exists w',
    loop twoErrorsSchedule exampleWorld = Ok Waiting w' /\
    sent w' = [SentError 0%nat (Some (ErrTransport 2))] /\
    ~ In (SentError 0%nat (Some (ErrTransport 1))) (sent w') /\
    writeError (brsp w') = None.
Proof.
  eexists. split; [vm_compute; reflexivity|].
  cbn [sent brsp writeError]. split; [reflexivity|]. split; [|reflexivity].
  intros [H|[]]. discriminate H.
Qed.

(** The idle transition clears the slot whether or not a flush request
    was there to take it: a failure captured while no flush is pending
    is gone when the flush comes. *)
Lemma write_error_cleared_at_idle :
  exists w',
    loop lateFlushSchedule exampleWorld = Ok Waiting w' /\
    sent w' = [SentError 0%nat None] /\
    transmitted w' = [[x01]].
Proof.
  eexists. split; [vm_compute; reflexivity|].
  cbn [sent transmitted]. auto.
Qed.

(** Write(A) of 45 bytes, Write(B) of 5 and two flushes on the bridge
    of the examples, the first chunk of A failing: both flushes report
    that failure at the return to idle, and the flush after it nil.
    And the bridge that has answered a flush before: it blocks at the
    return to idle. *)
Lemma write_error_latest_witness :
  (exists w',
     loop (failedFirstSchedule ++ [EvOutgoingData; EvFlushReq 2%nat])
       exampleWorld = Ok Waiting w' /\
     error_replies (sent w') =
     [SentError 0%nat (Some (ErrTransport 1));
      SentError 1%nat (Some (ErrTransport 1)); SentError 2%nat None]) /\
  (exists w', loop [EvOutgoingData] staleFlushWorld = Hang w' /\
              sent w' = [SentError 0%nat None]).
Proof.
  split.
  - destruct (proj1 (proj2 write_error_latest) exampleWorld
                failedFirstSchedule 2%nat)
      as (w1 & w' & _ & _ & _ & _ & E & Hs & _).
    + exact (running_inv example_running).
    + vm_compute. reflexivity.
    + vm_compute. reflexivity.
    + vm_compute. reflexivity.
    + vm_compute. reflexivity.
    + repeat constructor; simpl; intuition discriminate.
    + intros c _. reflexivity.
    + exists w'. split; [exact E|]. rewrite Hs. reflexivity.
  - destruct (proj2 (proj2 write_error_latest) staleFlushWorld
                [] [] 0%nat [])
      as (w' & E & Hs & _).
    + apply running_inv. apply (@running_loop (firstn 6 secondWriteSchedule)
                                  exampleWorld); [exact example_running|].
      vm_compute. reflexivity.
    + vm_compute. reflexivity.
    + vm_compute. reflexivity.
    + vm_compute. reflexivity.
    + vm_compute. reflexivity.
    + constructor.
    + intros c' [].
    + vm_compute. reflexivity.
    + exists w'. split; [exact E|]. rewrite Hs. reflexivity.
Defined.

(** C2 fails on the code: the idle transition answers the pending
    flush requests but keeps them recorded.  On [secondWriteSchedule]
    the flush on channel 0 is answered when the first write has gone
    out; the bridge is idle with that channel still in [flushReqs];
    when the second write has gone out the loop sends on channel 0
    again, and blocks there for ever. *)
Theorem flush_request_kept_after_reply :
  exists w1 w2,
    loop (firstn 4 secondWriteSchedule) exampleWorld = Ok Waiting w1 /\
    sent w1 = [SentError 0%nat None] /\
    txMode (brsp w1) = false /\
    flushReqs (brsp w1) = [0%nat] /\
    loop secondWriteSchedule exampleWorld = Hang w2 /\
    sent w2 = [SentError 0%nat None] /\
    transmitted w2 = [[x01]; [x02]].
Proof.
  eexists. eexists.
  split; [vm_compute; reflexivity|].
  cbn [sent brsp txMode flushReqs].
  do 3 (split; [reflexivity|]).
  split; [vm_compute; reflexivity|].
  split; reflexivity.
Qed.

(** Sends to read channels that still wait all go through, in order. *)
Lemma range_send_result_fresh rs e w :
  NoDup (map req_r rs) ->
  (forall r, In r rs -> fresh_result (req_r r) w) ->
  range_send_result rs e w =
  Ok tt (mkWorld (brsp w)
           (sent w ++
            map (fun r => SentResult (req_r r) (mkResult 0 e) (req_p r)) rs)
           (transmitted w)).
Proof.
  revert w. induction rs as [|r rs IH]; intros w Hnd Hf; simpl.
  - unfold ret. rewrite app_nil_r. destruct w; reflexivity.
  - simpl map in Hnd. apply NoDup_cons_iff in Hnd. destruct Hnd as [Hnotin Hnd].
    unfold bind, send_result.
    pose proof (Hf r (or_introl eq_refl)) as Hr. unfold fresh_result in Hr.
    rewrite Hr. rewrite IH.
    + simpl. rewrite <- app_assoc. reflexivity.
    + exact Hnd.
    + intros r' Hin. apply fresh_result_snoc.
      * apply Hf. right. exact Hin.
      * intros Heq. apply Hnotin. rewrite <- Heq. apply in_map. exact Hin.
Qed.

Lemma errors_not_results c e cs :
  existsb (result_received c) (map (fun c' => SentError c' e) cs) = false.
Proof. induction cs as [|c' cs IH]; simpl; auto. Qed.

(** X7. What the deferred function does when every recorded request still
    waits for its reply: all of them get the closed error, the flush
    requests first, and the loop has exited. *)
Lemma close_answers_waiting w evs :
  NoDup (flushReqs (brsp w)) ->
  (forall c, In c (flushReqs (brsp w)) -> fresh_error c w) ->
  NoDup (map req_r (readReqs (brsp w))) ->
  (forall r, In r (readReqs (brsp w)) -> fresh_result (req_r r) w) ->
  loop (EvClosed :: evs) w =
  Ok Exited (mkWorld (brsp w)
               (sent w ++ closed_replies (flushReqs (brsp w)) (readReqs (brsp w)))
               (transmitted w)).
Proof.
  intros Hnd Hf Hndr Hfr.
  rewrite loop_closed. unfold loop_deferred, bind, getB, ret.
  rewrite range_send_error_fresh by assumption.
  rewrite range_send_result_fresh.
  - simpl. unfold closed_replies. rewrite <- app_assoc. reflexivity.
  - exact Hndr.
  - intros r Hin. unfold fresh_result. simpl.
    rewrite existsb_app. rewrite (Hfr r Hin). simpl.
    apply errors_not_results.
Qed.

(** C8 fails on the code, by the defect of C2: a flush request answered
    at an idle transition is still recorded at the close.  On
    [closeAfterFlushSchedule] the deferred function sends the closed
    error on channel 0, whose [Flush] has returned already; the send
    blocks for ever, and the read that was pending is never answered. *)
Theorem close_blocks_on_answered_flush :
  exists w,
    loop closeAfterFlushSchedule exampleWorld = Hang w /\
    readReqs (brsp w) = [mkRequest (make 4) 0%nat] /\
    flushReqs (brsp w) = [0%nat] /\
    sent w = [SentError 0%nat None].
Proof.
  eexists. split; [vm_compute; reflexivity|].
  cbn [sent brsp readReqs flushReqs]. auto.
Qed.

(** ** Opening a bridge *)

Lemma range_svcs_found svcs b :
  b_brspService (range_svcs svcs b) =
  match find (fun s => Equal (svc_UUID s) brspService) svcs with
  | Some s => Some s
  | None => b_brspService b
  end.
Proof.
  induction svcs as [|s svcs IH]; simpl; [reflexivity|].
  destruct (Equal (svc_UUID s) brspService); [reflexivity|exact IH].
Qed.

Lemma find_has_service svcs :
  is_nil (find (fun s => Equal (svc_UUID s) brspService) svcs) =
  negb (has_service svcs).
Proof.
  unfold has_service. induction svcs as [|s svcs IH]; simpl; [reflexivity|].
  destruct (Equal (svc_UUID s) brspService); [reflexivity|exact IH].
Qed.

Lemma range_svcs_p svcs b : b_p (range_svcs svcs b) = b_p b.
Proof.
  induction svcs as [|s svcs IH]; simpl; [reflexivity|].
  destruct (Equal (svc_UUID s) brspService); [reflexivity|exact IH].
Qed.

(** The three identifiers are distinct, so the chain of comparisons in
    [discover] files each characteristic under its own identifier. *)
Lemma Equal_eq u v : Equal u v = true -> u = v.
Proof. apply String.eqb_eq. Qed.

Lemma range_chars_p chars b : b_p (range_chars chars b) = b_p b.
Proof.
  revert b. induction chars as [|c chars IH]; intros b; simpl; [reflexivity|].
  rewrite IH.
  destruct (Equal (chr_UUID c) brspMode); [reflexivity|].
  destruct (Equal (chr_UUID c) brspRx); [reflexivity|].
  destruct (Equal (chr_UUID c) brspTx); reflexivity.
Qed.

Lemma range_chars_nil chars b :
  is_nil (b_brspMode (range_chars chars b)) =
    is_nil (b_brspMode b) && negb (has_char brspMode chars) /\
  is_nil (b_brspRx (range_chars chars b)) =
    is_nil (b_brspRx b) && negb (has_char brspRx chars) /\
  is_nil (b_brspTx (range_chars chars b)) =
    is_nil (b_brspTx b) && negb (has_char brspTx chars).
Proof.
  unfold has_char. revert b.
  induction chars as [|c chars IH]; intros b; simpl.
  - rewrite !andb_true_r. auto.
  - destruct (Equal (chr_UUID c) brspMode) eqn:Em.
    + apply Equal_eq in Em. rewrite Em.
      change (Equal brspMode brspRx) with false.
      change (Equal brspMode brspTx) with false.
      destruct (IH (set_brspMode (Some c) b)) as (H1 & H2 & H3).
      rewrite H1, H2, H3. simpl. rewrite andb_false_r. auto.
    + destruct (Equal (chr_UUID c) brspRx) eqn:Er.
      * apply Equal_eq in Er. rewrite Er.
        change (Equal brspRx brspTx) with false.
        destruct (IH (set_brspRx (Some c) b)) as (H1 & H2 & H3).
        rewrite H1, H2, H3. simpl. rewrite andb_false_r. auto.
      * destruct (Equal (chr_UUID c) brspTx) eqn:Et.
        -- destruct (IH (set_brspTx (Some c) b)) as (H1 & H2 & H3).
           rewrite H1, H2, H3. simpl. rewrite andb_false_r. auto.
        -- simpl. apply IH.
Qed.

(** [discover] on a fresh bridge, by what the peripheral reports. *)
Lemma discover_new p :
  snd (DiscoverServices p [brspService]) = None ->
  (has_service (reported_services p) = false ->
   snd (discover (newBRSP p)) = Some ErrNotBRSP) /\
  (has_service (reported_services p) = true ->
   snd (DiscoverCharacteristics p [brspMode; brspRx; brspTx]
          (find (fun s => Equal (svc_UUID s) brspService)
             (reported_services p))) = None ->
   has_char brspMode (reported_chars p) && has_char brspRx (reported_chars p)
     && has_char brspTx (reported_chars p) = false ->
   snd (discover (newBRSP p)) = Some ErrNotBRSP) /\
  (snd (discover (newBRSP p)) = None ->
   has_service (reported_services p) = true /\
   has_char brspMode (reported_chars p) = true /\
   has_char brspRx (reported_chars p) = true /\
   has_char brspTx (reported_chars p) = true).
Proof.
  unfold reported_chars, reported_services, discover.
  change (b_p (newBRSP p)) with p.
  destruct (DiscoverServices p [brspService]) as [svcs serr]. simpl.
  intros ->.
  rewrite range_svcs_found, range_svcs_p. simpl.
  pose proof (find_has_service svcs) as Hfs.
  destruct (find (fun s => Equal (svc_UUID s) brspService) svcs) as [s|];
    simpl in Hfs.
  - (* the service is there *)
    assert (Hs : has_service svcs = true)
      by (destruct (has_service svcs); [reflexivity|discriminate]).
    rewrite Hs. simpl.
    destruct (DiscoverCharacteristics p [brspMode; brspRx; brspTx] (Some s))
      as [chars cerr]. simpl.
    destruct cerr as [e|].
    + split; [discriminate|]. split; [discriminate|]. simpl. discriminate.
    + destruct (range_chars_nil chars (range_svcs svcs (newBRSP p)))
        as (H1 & H2 & H3).
      replace (is_nil (b_brspMode (range_svcs svcs (newBRSP p)))) with true in H1.
      replace (is_nil (b_brspRx (range_svcs svcs (newBRSP p)))) with true in H2.
      replace (is_nil (b_brspTx (range_svcs svcs (newBRSP p)))) with true in H3.
      * rewrite H1, H2, H3. simpl.
        destruct (has_char brspMode chars), (has_char brspRx chars),
          (has_char brspTx chars); simpl;
          (split; [discriminate|]); split; try discriminate; auto;
          rewrite range_chars_p, range_svcs_p; simpl;
          destruct (DiscoverDescriptors p _); simpl; intros; try discriminate; auto.
      * clear. induction svcs as [|s' svcs IH]; simpl; [reflexivity|].
        destruct (Equal (svc_UUID s') brspService); [reflexivity|exact IH].
      * clear. induction svcs as [|s' svcs IH]; simpl; [reflexivity|].
        destruct (Equal (svc_UUID s') brspService); [reflexivity|exact IH].
      * clear. induction svcs as [|s' svcs IH]; simpl; [reflexivity|].
        destruct (Equal (svc_UUID s') brspService); [reflexivity|exact IH].
  - (* the service is missing *)
    assert (Hs : has_service svcs = false)
      by (destruct (has_service svcs); [discriminate|reflexivity]).
    rewrite Hs. simpl.
    split; [reflexivity|]. split; [discriminate|]. discriminate.
Qed.

Lemma discover_ok_services b :
  snd (discover b) = None -> snd (DiscoverServices (b_p b) [brspService]) = None.
Proof.
  unfold discover.
  destruct (DiscoverServices (b_p b) [brspService]) as [svcs [e|]]; simpl;
    [discriminate|reflexivity].
Qed.

Lemma init_error b e :
  snd (discover b) = Some e -> snd (init b) = Some e.
Proof.
  unfold init. destruct (discover b) as [b' [e'|]]; simpl; [auto|discriminate].
Qed.

Lemma init_ok_discover b : snd (init b) = None -> snd (discover b) = None.
Proof.
  unfold init. destruct (discover b) as [b' [e'|]]; simpl; [discriminate|auto].
Qed.

Lemma Open_by_init p :
  OpenBRSP p =
  match snd (init (newBRSP p)) with
  | Some e => (None, Some e, [])
  | None => (Some (fst (init (newBRSP p))), None, [GoLoop; GoWriter])
  end.
Proof.
  unfold OpenBRSP. destruct (init (newBRSP p)) as [b [e|]]; reflexivity.
Qed.

(** C10. [OpenBRSP] returns a bridge only when the peripheral reported
    the service and, for it, the mode, receive and transmit
    characteristics; it then has started the loop and the pump.  When
    the peripheral answers without the service, or with the service but
    without one of the three characteristics, [OpenBRSP] fails with
    [ErrNotBRSP].  Whenever it fails it returns no bridge and has
    started neither the loop nor the pump. *)
Theorem Open_needs_all (p : Peripheral) :
  (forall b : BRSP,
     fst (fst (OpenBRSP p)) = Some b ->
     has_service (reported_services p) = true /\
     has_char brspMode (reported_chars p) = true /\
     has_char brspRx (reported_chars p) = true /\
     has_char brspTx (reported_chars p) = true /\
     OpenBRSP p = (Some b, None, [GoLoop; GoWriter])) /\
  (snd (DiscoverServices p [brspService]) = None ->
   has_service (reported_services p) = false ->
   OpenBRSP p = (None, Some ErrNotBRSP, [])) /\
  (snd (DiscoverServices p [brspService]) = None ->
   has_service (reported_services p) = true ->
   snd (DiscoverCharacteristics p [brspMode; brspRx; brspTx]
          (find (fun s => Equal (svc_UUID s) brspService)
             (reported_services p))) = None ->
   has_char brspMode (reported_chars p) && has_char brspRx (reported_chars p)
     && has_char brspTx (reported_chars p) = false ->
   OpenBRSP p = (None, Some ErrNotBRSP, [])) /\
  (forall e : error,
     snd (fst (OpenBRSP p)) = Some e -> OpenBRSP p = (None, Some e, [])).
Proof.
  rewrite Open_by_init.
  split; [|split; [|split]].
  - intros b Hb.
    destruct (snd (init (newBRSP p))) as [e|] eqn:Ei; simpl in Hb;
      [discriminate|].
    inversion Hb; subst.
    pose proof (init_ok_discover _ Ei) as Hd.
    pose proof (discover_ok_services _ Hd) as Hs.
    destruct (discover_new p Hs) as (_ & _ & H3).
    destruct (H3 Hd) as (A1 & A2 & A3 & A4). auto.
  - intros Hs Hno.
    destruct (discover_new p Hs) as (H1 & _).
    rewrite (init_error _ (H1 Hno)). reflexivity.
  - intros Hs Hsvc Hc Hmiss.
    destruct (discover_new p Hs) as (_ & H2 & _).
    rewrite (init_error _ (H2 Hsvc Hc Hmiss)). reflexivity.
  - intros e He.
    destruct (snd (init (newBRSP p))) as [e'|]; simpl in He;
      [|discriminate].
    inversion He; subst. reflexivity.
Qed.

(** A peripheral with the service and two of the three characteristics
    gets no bridge. *)
Lemma Open_needs_all_witness :
  OpenBRSP twoCharsPeripheral = (None, Some ErrNotBRSP, []).
Proof.
  apply (proj1 (proj2 (proj2 (Open_needs_all twoCharsPeripheral))));
    reflexivity.
Defined.

(** ** More on the ring queue *)

(** X1. [read] copies [min(len(p), queued())] bytes: the count it returns;
    the queue holds that many bytes less, its buffer keeps its
    capacity, and the caller's buffer keeps its length and everything
    behind the bytes copied. *)
Theorem read_count (q : brspQueue) (p : list byte) :
  reachable q ->
  let q' := fst (fst (read q p)) in
  let p' := snd (fst (read q p)) in
  let n := snd (read q p) in
  n = Z.min (len p) (queued q) /\
  queued q' = queued q - n /\
  len (data q') = len (data q) /\
  len p' = len p /\
  slice_from p' n = slice_from p n.
Proof.
  intros Hr q' p' n. pose proof (reachable_wf Hr) as Hwf.
  pose proof (read_spec p Hwf) as H. cbv zeta in H.
  fold q' p' n in H. destruct H as (Hn & Hp & Hc & Hwf' & Hd).
  pose proof (queued_contents Hwf) as Hq.
  pose proof (len_nonneg p). pose proof (len_nonneg (contents q)).
  assert (Hn0 : 0 <= n <= len (contents q)) by lia.
  rewrite <- Hn in Hp, Hc.
  split; [exact Hn|]. split; [|split; [|split]].
  - rewrite (queued_contents Hwf'), Hc, len_slice_from by lia. lia.
  - rewrite Hd. reflexivity.
  - rewrite Hp, len_app, len_slice_to, len_slice_from by lia. lia.
  - rewrite Hp. rewrite slice_from_app_ge by (rewrite len_slice_to; lia).
    rewrite len_slice_to by lia. rewrite slice_from_from by lia.
    f_equal. lia.
Qed.

(** Ten bytes queued and a buffer of four: four come out, six stay. *)
Lemma read_count_witness :
  reachable (write zeroQueue (bytes_from 1 10)) /\
  snd (read (write zeroQueue (bytes_from 1 10)) (make 4)) = 4.
Proof.
  assert (Hr : reachable (write zeroQueue (bytes_from 1 10)))
    by (repeat constructor).
  split; [exact Hr|].
  rewrite (proj1 (read_count (make 4) Hr)). reflexivity.
Defined.

Lemma grow_capacity q p :
  wf q ->
  len (data (grow q p)) =
  if len p >=? space q
  then len (data q) + Z.max 256 (len p - space q + 1)
  else len (data q).
Proof.
  intros Hwf. unfold grow, space.
  pose proof (len_nonneg p) as Hp.
  pose proof (queued_contents Hwf) as Hq.
  pose proof (len_nonneg (contents q)) as Hc.
  assert (Hql : queued q <= len (data q)).
  { destruct Hwf as (_ & _ & _ & _ & [Hnil|Hlt]); [|lia].
    revert Hq. unfold contents, queued. rewrite Hnil.
    destruct (head q >=? tail q); unfold slice, slice_from, slice_to;
      rewrite ?skipn_nil, ?firstn_nil; simpl; rewrite ?len_nil; lia. }
  remember (queued q) as k eqn:Hk.
  destruct (len p >=? len (data q) - k) eqn:E; [|reflexivity].
  set (need0 := len p - (len (data q) - k) + 1).
  assert (Hmax : (if need0 <? 256 then 256 else need0) = Z.max 256 need0).
  { destruct (Z.ltb_spec need0 256); lia. }
  rewrite Hmax.
  assert (Hneed : 256 <= Z.max 256 need0) by lia.
  pose proof (read_spec (make (len (data q) + Z.max 256 need0)) Hwf) as H.
  destruct (read q (make (len (data q) + Z.max 256 need0))) as [[q' d'] n'].
  cbv zeta in H. simpl in H. rewrite <- Hk in H.
  rewrite len_make in H by lia. rewrite Z.min_r in H by lia.
  destruct H as (_ & Hd' & _). simpl.
  rewrite Hd', len_app, len_slice_to, len_slice_from by (rewrite ?len_make; lia).
  rewrite len_make by lia. lia.
Qed.

Lemma store_capacity q p : len (data (store q p)) = len (data q).
Proof.
  unfold store. destruct (len (data q) - head q <? len p);
    cbn [data head tail]; rewrite !copy_at_len; reflexivity.
Qed.

(** X2. [write] adds exactly the bytes given.  The buffer never shrinks: it
    keeps its capacity when the bytes are fewer than the free room, and
    otherwise grows by the larger of 256 and the shortfall plus one. *)
Theorem write_capacity (q : brspQueue) (p : list byte) :
  reachable q ->
  queued (write q p) = queued q + len p /\
  len (data q) <= len (data (write q p)) /\
  (len p < space q -> len (data (write q p)) = len (data q)) /\
  (space q <= len p ->
   len (data (write q p)) = len (data q) + Z.max 256 (len p - space q + 1)).
Proof.
  intros Hr. pose proof (reachable_wf Hr) as Hwf.
  destruct (write_spec p Hwf) as [Hc Hwf'].
  pose proof (grow_capacity p Hwf) as Hg.
  rewrite write_phases, store_capacity, Hg.
  split; [|split; [|split]].
  - rewrite <- write_phases, (queued_contents Hwf'), Hc, len_app,
      <- (queued_contents Hwf). reflexivity.
  - destruct (len p >=? space q); lia.
  - intros H. rewrite geb_false by lia. reflexivity.
  - intros H. rewrite geb_true by lia. reflexivity.
Qed.

(** 300 bytes into an empty queue of capacity 256: the shortfall is 44
    and the buffer grows by 256. *)
Lemma write_capacity_witness :
  reachable (fst (fst (read (write zeroQueue [x01]) (make 1)))) /\
  len (data (write (fst (fst (read (write zeroQueue [x01]) (make 1))))
               (bytes_from 0 300))) = 512.
Proof.
  assert (Hr : reachable (fst (fst (read (write zeroQueue [x01]) (make 1)))))
    by (repeat constructor).
  split; [exact Hr|].
  rewrite (proj2 (proj2 (proj2 (write_capacity (bytes_from 0 300) Hr)))).
  - reflexivity.
  - vm_compute. discriminate.
Defined.

(** ** More on the engine *)

Lemma out_stream_outbound w chunk pending :
  outbound w chunk pending ->
  out_stream w = List.concat (transmitted w) ++ chunk ++ pending.
Proof.
  intros (_ & Hc & _ & _ & Hch). unfold out_stream. rewrite Hc, Hch.
  reflexivity.
Qed.

Lemma out_stream_frame w w1 :
  outbound_fields (brsp w1) = outbound_fields (brsp w) ->
  transmitted w1 = transmitted w ->
  out_stream w1 = out_stream w.
Proof.
  unfold outbound_fields, out_stream. intros E Ht.
  inversion E as [[E1 E2 E3]]. rewrite E1, E2, Ht. reflexivity.
Qed.

(** One event: the stream grows by what a write brings, and what the
    transport gets anew is a chunk of 1 to 20 bytes. *)
Lemma step_stream w ev w1 :
  engine_inv w -> loop [ev] w = Ok Waiting w1 ->
  out_stream w1 = out_stream w ++ written [ev] /\
  exists l, transmitted w1 = transmitted w ++ l /\
            Forall (fun t : list byte => 0 < len t <= 20) l.
Proof.
  intros Hinv H. pose proof Hinv as (Hin & chunk & pending & Hout & Hidle).
  assert (Hsame : forall w2,
            outbound_fields (brsp w2) = outbound_fields (brsp w) ->
            transmitted w2 = transmitted w ->
            out_stream w2 = out_stream w ++ [] /\
            exists l, transmitted w2 = transmitted w ++ l /\
                      Forall (fun t : list byte => 0 < len t <= 20) l).
  { intros w2 Hf Ht. split.
    - rewrite app_nil_r. apply out_stream_frame; assumption.
    - exists []. rewrite app_nil_r. auto. }
  destruct ev; simpl written.
  - rewrite loop_read in H. apply loop_one_ok in H.
    destruct (@handleReadReq_frame _ _ _ H Hin) as (_ & Hf & Ht). auto.
  - rewrite loop_write in H. apply loop_one_ok in H.
    rewrite app_nil_r.
    destruct (txMode (brsp w)) eqn:T.
    + destruct (write_active w0 T Hout) as (w2 & E & _ & Hout2 & _ & _ & _ & _ & X).
      rewrite E in H. inversion H; subst. split.
      * rewrite (out_stream_outbound Hout2), (out_stream_outbound Hout), X.
        rewrite <- !app_assoc. reflexivity.
      * exists []. rewrite app_nil_r. auto.
    + destruct (Hidle eq_refl) as [-> ->].
      destruct (write_idle w0 T Hout) as (w2 & E & _ & Hout2 & _ & _ & _ & _ & X).
      rewrite E in H. inversion H; subst. split.
      * rewrite (out_stream_outbound Hout2), (out_stream_outbound Hout), X.
        simpl. rewrite app_nil_r, slice_split. reflexivity.
      * exists []. rewrite app_nil_r. auto.
  - rewrite loop_flush in H. apply loop_one_ok in H.
    destruct (@handleFlushReq_frame _ _ _ H) as (_ & Hf & Ht). auto.
  - rewrite loop_incoming in H. apply loop_one_ok in H.
    destruct (@handleIncomingData_frame _ _ _ H Hin) as (_ & Hf & Ht). auto.
  - destruct (txMode (brsp w)) eqn:T.
    + assert (Hcase : (chunk = [] /\ pending = []) \/
                      (chunk <> [] \/ pending <> [])).
      { destruct chunk; destruct pending; auto;
          right; [right|left|left]; discriminate. }
      destruct Hcase as [[-> ->]|Hne].
      * destruct (idle_transition [] T Hout)
          as (w2 & E & _ & Hout2 & _ & _ & _ & _ & X).
        rewrite E in H.
        destruct (range_send_error_frame (flushReqs (brsp w))
                    (writeError (brsp w)) w2) as (Hb & Ht & _).
        destruct (range_send_error _ _ w2) as [[] w3|w3]; [|discriminate].
        rewrite loop_nil in H. inversion H; subst. simpl in Hb, Ht.
        split.
        -- rewrite app_nil_r, (out_stream_outbound Hout).
           unfold out_stream. simpl. rewrite Hb, Ht, X.
           destruct Hout2 as (_ & Hc2 & _ & _ & Hch2). rewrite Hc2, Hch2.
           reflexivity.
        -- exists []. rewrite app_nil_r. simpl. rewrite Ht, X. auto.
      * destruct (outgoing_step [] T Hout Hne)
          as (w2 & E & _ & Hout2 & _ & _ & _ & _ & X).
        rewrite E, loop_nil in H. inversion H; subst. split.
        -- rewrite app_nil_r, (out_stream_outbound Hout2),
             (out_stream_outbound Hout), X.
           rewrite concat_app, <- !app_assoc. f_equal.
           rewrite slice_split.
           destruct chunk; simpl; rewrite ?app_nil_r; reflexivity.
        -- eexists. split; [exact X|].
           destruct chunk as [|x chunk]; [constructor|].
           constructor; [|constructor].
           destruct Hout as (_ & _ & Hl & Hn & Hch).
           rewrite <- Hch. rewrite len_slice_to by lia.
           destruct (Z.eq_dec (out_n (outData (brsp w))) 0) as [Hz|Hz]; [|lia].
           rewrite Hz in Hch. discriminate Hch.
    + rewrite loop_outgoing_idle, loop_nil in H by exact T.
      inversion H; subst. apply Hsame; reflexivity.
  - rewrite loop_write_error in H. apply loop_one_ok in H.
    destruct (@handleWriteError_frame _ _ _ H) as (_ & Hf & Ht). auto.
  - rewrite loop_closed in H. unfold bind, ret in H.
    destruct (loop_deferred w); discriminate.
Qed.

Lemma written_cons ev evs : written (ev :: evs) = written [ev] ++ written evs.
Proof. destruct ev; simpl; rewrite ?app_nil_r; reflexivity. Qed.

Lemma loop_stream evs : forall w w',
  engine_inv w -> loop evs w = Ok Waiting w' ->
  out_stream w' = out_stream w ++ written evs.
Proof.
  induction evs as [|ev evs IH]; intros w w' Hinv H.
  - rewrite loop_nil in H. inversion H; subst. simpl. rewrite app_nil_r.
    reflexivity.
  - apply loop_cons_waiting in H. destruct H as (w1 & H1 & H2).
    destruct (@step_stream _ _ _ Hinv H1) as (Hs & _).
    rewrite (IH w1 w' (@step_inv _ _ _ Hinv H1) H2), Hs, (written_cons ev evs), app_assoc.
    reflexivity.
Qed.

(** X3. What a running bridge keeps: both queues are well formed, the chunk
    buffer has 20 places of which 0 to 20 are armed, and an idle engine
    has nothing armed and nothing staged. *)
Theorem running_invariant (w : World) :
  running w ->
  wf (inQueue (brsp w)) /\ wf (outQueue (brsp w)) /\
  len (out_data (outData (brsp w))) = 20 /\
  0 <= out_n (outData (brsp w)) <= 20 /\
  (txMode (brsp w) = false ->
   out_n (outData (brsp w)) = 0 /\ queued (outQueue (brsp w)) = 0).
Proof.
  intros Hr.
  destruct (running_inv Hr) as (Hin & chunk & pending & Hout & Hidle).
  pose proof (chunk_empty_iff Hout) as Hce.
  destruct Hout as (Hwf & Hc & Hl & Hn & Hch).
  splits; try assumption; try lia.
  intros T. destruct (Hidle T) as [-> ->]. split.
  - apply Hce. reflexivity.
  - rewrite (queued_contents Hwf), Hc. reflexivity.
Qed.

Lemma running_invariant_witness :
  running exampleWorld /\ queued (outQueue (brsp exampleWorld)) = 0.
Proof.
  split; [exact example_running|].
  apply (proj2 (proj2 (proj2 (proj2 (running_invariant example_running))))).
  reflexivity.
Defined.

(** X4. Outbound bytes keep the order they were written in, and none is
    lost or sent twice: over any events the loop takes, what the
    transport has got, followed by the chunk on offer and the bytes
    staged, grows by exactly the bytes of the writes, in order.  From
    one idle state to another, the transmissions put together are the
    writes put together. *)
Theorem outbound_order (w w' : World) (evs : list Event) :
  running w -> loop evs w = Ok Waiting w' ->
  out_stream w' = out_stream w ++ written evs /\
  (txMode (brsp w) = false -> txMode (brsp w') = false ->
   List.concat (transmitted w') = List.concat (transmitted w) ++ written evs).
Proof.
  intros Hr H. pose proof (@loop_stream evs w w' (running_inv Hr) H) as Hs.
  split; [exact Hs|].
  intros T T'.
  pose proof (running_idle Hr T) as O.
  pose proof (running_idle (@running_loop evs w w' Hr H) T') as O'.
  rewrite (out_stream_outbound O), (out_stream_outbound O') in Hs.
  simpl in Hs. rewrite !app_nil_r in Hs. exact Hs.
Qed.

(** X5. Every payload handed to the transport has 1 to 20 bytes. *)
Theorem transmissions_bounded (w : World) :
  running w ->
  Forall (fun t : list byte => 0 < len t <= 20) (transmitted w).
Proof.
  induction 1 as [p b Hopen|w ev w' Hr IH Hstep].
  - constructor.
  - destruct (@step_stream _ _ _ (running_inv Hr) Hstep) as (_ & l & Hl & Hb).
    rewrite Hl. apply Forall_app. auto.
Qed.

Lemma fragment_run :
  loop fragmentSchedule exampleWorld = Ok Waiting fragmentedWorld.
Proof. vm_compute. reflexivity. Qed.

(** The 45 bytes of the examples leave as they were written. *)
Lemma outbound_order_witness :
  running exampleWorld /\
  loop fragmentSchedule exampleWorld = Ok Waiting fragmentedWorld /\
  List.concat (transmitted fragmentedWorld) = bytes_from 1 45.
Proof.
  split; [exact example_running|]. split; [exact fragment_run|].
  rewrite (proj2 (@outbound_order _ _ _ example_running fragment_run) eq_refl eq_refl).
  reflexivity.
Defined.

Lemma transmissions_bounded_witness :
  running fragmentedWorld /\
  Forall (fun t : list byte => 0 < len t <= 20) (transmitted fragmentedWorld).
Proof.
  assert (Hr : running fragmentedWorld)
    by exact (@running_loop fragmentSchedule exampleWorld fragmentedWorld
                example_running fragment_run).
  split; [exact Hr|]. exact (transmissions_bounded Hr).
Defined.

(** X6. When the engine returns to idle with no flush request
    recorded, the write errors captured while it transmitted are
    discarded unreported.  For every run of events that keeps the
    engine in transmit mode and brings no flush, on a bridge with no
    flush request recorded: the return to idle answers no one and
    clears the slot, and the flush received next is answered nil,
    whatever errors the run brought. *)
Theorem unflushed_error_lost (w : World) (evs : list Event) (c : chan) :
  engine_inv w -> stays_active evs w = true ->
  txMode (brsp (final (loop evs w))) = true ->
  out_n (outData (brsp (final (loop evs w)))) = 0 ->
  queued (outQueue (brsp (final (loop evs w)))) = 0 ->
  flushReqs (brsp w) = [] -> flushes evs = [] -> fresh_error c w ->
  exists w1 w',
    loop evs w = Ok Waiting w1 /\
    writeError (brsp w1) = last_write_error evs (writeError (brsp w)) /\
    loop (evs ++ [EvOutgoingData; EvFlushReq c]) w = Ok Waiting w' /\
    error_replies (sent w') = error_replies (sent w) ++ [SentError c None] /\
    writeError (brsp w') = None.
Proof.
  intros Hinv Hact T Hn Hq Hnofl Hnone F.
  destruct (run_active evs Hinv Hact) as (w1 & E & _ & We & _).
  destruct (@drain_answers w evs c Hinv Hact T Hn Hq)
    as (w' & E' & S' & We' & _).
  - rewrite Hnofl, Hnone. simpl. repeat constructor. intros [].
  - rewrite Hnofl, Hnone. simpl. intros c' [<-|[]]. exact F.
  - exists w1, w'. rewrite Hnofl, Hnone in S'. simpl in S'. auto.
Qed.

(** A write of 45 bytes whose first chunk fails and a write of 5
    bytes, and no flush before the engine is idle again: the failure
    is in the slot when the last chunk has gone, and the flush that
    follows is answered nil. *)
Lemma unflushed_error_lost_witness :
  exists w1 w',
    loop failedUnflushedSchedule exampleWorld = Ok Waiting w1 /\
    writeError (brsp w1) = Some (ErrTransport 1) /\
    loop (failedUnflushedSchedule ++ [EvOutgoingData; EvFlushReq 0%nat])
      exampleWorld = Ok Waiting w' /\
    error_replies (sent w') = [SentError 0%nat None].
Proof.
  destruct (@unflushed_error_lost exampleWorld failedUnflushedSchedule 0%nat)
    as (w1 & w' & E & We & E' & Hs & _).
  - exact (running_inv example_running).
  - vm_compute. reflexivity.
  - vm_compute. reflexivity.
  - vm_compute. reflexivity.
  - vm_compute. reflexivity.
  - reflexivity.
  - reflexivity.
  - reflexivity.
  - exists w1, w'. split; [exact E|]. split; [rewrite We; reflexivity|].
    split; [exact E'|]. rewrite Hs. reflexivity.
Defined.

(** The close on an engine with a flush and a read waiting: both get
    the closed error, the read with count 0 and its buffer as it was. *)
Lemma close_answers_waiting_witness :
  loop [EvClosed] waitingWorld =
  Ok Exited
    (mkWorld (brsp waitingWorld)
       [SentError 0%nat (Some ErrClosed);
        SentResult 0%nat (mkResult 0 (Some ErrClosed)) (make 4)]
       []).
Proof.
  rewrite (@close_answers_waiting waitingWorld []).
  - reflexivity.
  - change (flushReqs (brsp waitingWorld)) with [0%nat].
    repeat constructor. simpl. tauto.
  - intros c Hin. reflexivity.
  - change (readReqs (brsp waitingWorld)) with [mkRequest (make 4) 0%nat].
    repeat constructor. simpl. tauto.
  - intros r Hin. reflexivity.
Defined.

(** X8. A notification that arrives while a read is pending goes to the
    oldest pending read, past whatever bytes are queued already: the
    read gets the first bytes of this notification, and the bytes its
    buffer does not take go behind the queued ones. *)
Theorem notification_bypasses_queue (w : World) (i : brspIncoming)
    (rr : brspRequest) (rest : list brspRequest) :
  readReqs (brsp w) = rr :: rest -> fresh_result (req_r rr) w ->
  wf (inQueue (brsp w)) ->
  let n := snd (copy (req_p rr) (slice_to (in_data i) (in_n i))) in
  exists w',
    loop [EvIncomingData i] w = Ok Waiting w' /\
    sent w' = sent w ++ [notified rr i] /\
    readReqs (brsp w') = rest /\
    contents (inQueue (brsp w')) =
    contents (inQueue (brsp w)) ++ slice (in_data i) n (in_n i).
Proof.
  intros Hrr Hf Hwf n.
  rewrite loop_incoming.
  unfold handleIncomingData, bind, getB, modify, send_result, ret, notified.
  cbn [brsp sent transmitted]. rewrite Hrr.
  assert (Hpos : (len (rr :: rest) >? 0) = true).
  { apply Z.gtb_lt. unfold len. simpl List.length. lia. }
  rewrite Hpos, shift_requests.
  unfold fresh_result in Hf. subst n.
  destruct (copy (req_p rr) (slice_to (in_data i) (in_n i))) as [p' n] eqn:E.
  cbn [fst snd].
  destruct (Z.gtb_spec (in_n i) n) as [G|G]; cbn [brsp sent transmitted];
    rewrite Hf; rewrite loop_nil; eexists; (split; [reflexivity|]); simpl.
  - split; [reflexivity|]. split; [reflexivity|].
    apply write_spec. exact Hwf.
  - split; [reflexivity|]. split; [reflexivity|].
    rewrite slice_empty by lia. rewrite app_nil_r. reflexivity.
Qed.

(** Bytes 3 to 5 are queued and a read waits; bytes 6 to 9 arrive and
    the read gets them, ahead of the queued ones. *)
Lemma notification_bypasses_queue_witness :
  contents (inQueue (brsp queuedAndWaitingWorld)) = bytes_from 3 3 /\
  exists w',
    loop [EvIncomingData (onTx (bytes_from 6 4) None)] queuedAndWaitingWorld =
    Ok Waiting w' /\
    sent w' =
    sent queuedAndWaitingWorld ++
    [SentResult 1%nat (mkResult 4 None) (bytes_from 6 4 ++ make 4)].
Proof.
  split; [vm_compute; reflexivity|].
  destruct (@notification_bypasses_queue queuedAndWaitingWorld
              (onTx (bytes_from 6 4) None) (mkRequest (make 8) 1%nat) [])
    as (w' & E & Hs & _).
  - vm_compute. reflexivity.
  - vm_compute. reflexivity.
  - apply reachable_wf.
    change (inQueue (brsp queuedAndWaitingWorld))
      with (write zeroQueue (bytes_from 3 3)).
    repeat constructor.
  - exists w'. split; [exact E|]. rewrite Hs. reflexivity.
Defined.

(** ** More on opening a bridge *)

Lemma find_snoc {A : Type} (f : A -> bool) (l : list A) (x : A) :
  find f (l ++ [x]) =
  match find f l with
  | Some y => Some y
  | None => if f x then Some x else None
  end.
Proof.
  induction l as [|y l IH]; simpl; [reflexivity|].
  destruct (f y); [reflexivity|exact IH].
Qed.

Lemma range_chars_service chars b :
  b_brspService (range_chars chars b) = b_brspService b.
Proof.
  revert b. induction chars as [|c chars IH]; intros b; simpl; [reflexivity|].
  rewrite IH.
  destruct (Equal (chr_UUID c) brspMode); [reflexivity|].
  destruct (Equal (chr_UUID c) brspRx); [reflexivity|].
  destruct (Equal (chr_UUID c) brspTx); reflexivity.
Qed.

Ltac three_finds :=
  match goal with
  | |- context [rev ?chars] =>
      destruct (find (fun c => Equal (chr_UUID c) brspMode) (rev chars));
      destruct (find (fun c => Equal (chr_UUID c) brspRx) (rev chars));
      destruct (find (fun c => Equal (chr_UUID c) brspTx) (rev chars));
      auto
  end.

(** The loop over the characteristics leaves, under each identifier,
    the last characteristic that carries it. *)
Lemma range_chars_last chars : forall b,
  b_brspMode (range_chars chars b) =
    match find_last (fun c => Equal (chr_UUID c) brspMode) chars with
    | Some c => Some c
    | None => b_brspMode b
    end /\
  b_brspRx (range_chars chars b) =
    match find_last (fun c => Equal (chr_UUID c) brspRx) chars with
    | Some c => Some c
    | None => b_brspRx b
    end /\
  b_brspTx (range_chars chars b) =
    match find_last (fun c => Equal (chr_UUID c) brspTx) chars with
    | Some c => Some c
    | None => b_brspTx b
    end.
Proof.
  unfold find_last.
  induction chars as [|c chars IH]; intros b; simpl; [auto|].
  rewrite !find_snoc.
  destruct (Equal (chr_UUID c) brspMode) eqn:Em.
  - apply Equal_eq in Em.
    assert (Er : Equal (chr_UUID c) brspRx = false) by (rewrite Em; reflexivity).
    assert (Et : Equal (chr_UUID c) brspTx = false) by (rewrite Em; reflexivity).
    rewrite Er, Et.
    destruct (IH (set_brspMode (Some c) b)) as (H1 & H2 & H3).
    rewrite H1, H2, H3. simpl.
    clear; three_finds.
  - destruct (Equal (chr_UUID c) brspRx) eqn:Er.
    + apply Equal_eq in Er.
      assert (Et : Equal (chr_UUID c) brspTx = false) by (rewrite Er; reflexivity).
      rewrite Et.
      destruct (IH (set_brspRx (Some c) b)) as (H1 & H2 & H3).
      rewrite H1, H2, H3. simpl.
      clear; three_finds.
    + destruct (Equal (chr_UUID c) brspTx) eqn:Et.
      * destruct (IH (set_brspTx (Some c) b)) as (H1 & H2 & H3).
        rewrite H1, H2, H3. simpl.
        clear; three_finds.
      * destruct (IH b) as (H1 & H2 & H3).
        rewrite H1, H2, H3.
        clear; three_finds.
Qed.

(** What [discover] leaves in a fresh bridge when it succeeds. *)
Lemma discover_handles p :
  snd (discover (newBRSP p)) = None ->
  let b := fst (discover (newBRSP p)) in
  b_p b = p /\
  b_brspService b =
    find (fun s => Equal (svc_UUID s) brspService) (reported_services p) /\
  b_brspMode b =
    find_last (fun c => Equal (chr_UUID c) brspMode) (reported_chars p) /\
  b_brspRx b =
    find_last (fun c => Equal (chr_UUID c) brspRx) (reported_chars p) /\
  b_brspTx b =
    find_last (fun c => Equal (chr_UUID c) brspTx) (reported_chars p) /\
  DiscoverDescriptors p (b_brspTx b) = None.
Proof.
  unfold reported_chars, reported_services, discover.
  change (b_p (newBRSP p)) with p.
  destruct (DiscoverServices p [brspService]) as [svcs [e|]]; simpl;
    [discriminate|].
  rewrite range_svcs_found, range_svcs_p. simpl.
  destruct (find (fun s => Equal (svc_UUID s) brspService) svcs) as [s|] eqn:Ef;
    simpl; [|discriminate].
  destruct (DiscoverCharacteristics p [brspMode; brspRx; brspTx] (Some s))
    as [chars [e|]]; simpl; [discriminate|].
  destruct (range_chars_last chars (range_svcs svcs (newBRSP p)))
    as (H1 & H2 & H3).
  assert (Hm : b_brspMode (range_svcs svcs (newBRSP p)) = None).
  { clear. induction svcs as [|s' svcs IH]; simpl; [reflexivity|].
    destruct (Equal (svc_UUID s') brspService); [reflexivity|exact IH]. }
  assert (Hr : b_brspRx (range_svcs svcs (newBRSP p)) = None).
  { clear. induction svcs as [|s' svcs IH]; simpl; [reflexivity|].
    destruct (Equal (svc_UUID s') brspService); [reflexivity|exact IH]. }
  assert (Ht : b_brspTx (range_svcs svcs (newBRSP p)) = None).
  { clear. induction svcs as [|s' svcs IH]; simpl; [reflexivity|].
    destruct (Equal (svc_UUID s') brspService); [reflexivity|exact IH]. }
  rewrite Hm in H1. rewrite Hr in H2. rewrite Ht in H3.
  assert (Hnil : forall o : option Characteristic,
            match o with Some c => Some c | None => None end = o)
    by (intros [c|]; reflexivity).
  rewrite Hnil in H1, H2, H3.
  destruct (is_nil _ || is_nil _ || is_nil _); simpl; [discriminate|].
  repeat rewrite range_chars_p. repeat rewrite range_svcs_p. simpl.
  destruct (DiscoverDescriptors p (b_brspTx (range_chars chars
              (range_svcs svcs (newBRSP p))))) as [e|] eqn:Ed; simpl;
    [discriminate|].
  intros _. repeat rewrite range_chars_p. repeat rewrite range_svcs_p.
  rewrite range_chars_service, range_svcs_found, Ef.
  repeat split; assumption || reflexivity.
Qed.

(** X9. A bridge that [OpenBRSP] returns: it holds the peripheral, the
    first service reported under the bridge's identifier and the last
    characteristic reported under each of the three; the descriptors
    were found, indications were switched off and on again, and the
    mode was written with the byte 1; the engine starts idle with empty
    queues, no request pending and no error held. *)
Theorem Open_result (p : Peripheral) (b : BRSP) (g : list Goroutine) :
  OpenBRSP p = (Some b, None, g) ->
  b_p b = p /\
  b_brspService b =
    find (fun s => Equal (svc_UUID s) brspService) (reported_services p) /\
  b_brspMode b =
    find_last (fun c => Equal (chr_UUID c) brspMode) (reported_chars p) /\
  b_brspRx b =
    find_last (fun c => Equal (chr_UUID c) brspRx) (reported_chars p) /\
  b_brspTx b =
    find_last (fun c => Equal (chr_UUID c) brspTx) (reported_chars p) /\
  DiscoverDescriptors p (b_brspTx b) = None /\
  SetIndicateValue p (b_brspTx b) false = None /\
  SetIndicateValue p (b_brspTx b) true = None /\
  WriteCharacteristic p (b_brspMode b) [x01] true = None /\
  engine_fields b = engine_fields (newBRSP p).
Proof.
  intros Hopen. pose proof (@open_engine _ _ _ Hopen) as He.
  revert Hopen. unfold OpenBRSP, init.
  pose proof (discover_handles p) as Hd.
  destruct (discover (newBRSP p)) as [b1 [e|]]; simpl in *; [discriminate|].
  destruct (Hd eq_refl) as (Hp & H1 & H2 & H3 & H4 & H5).
  rewrite Hp.
  destruct (SetIndicateValue p (b_brspTx b1) false) eqn:S1; [discriminate|].
  destruct (SetIndicateValue p (b_brspTx b1) true) eqn:S2; [discriminate|].
  destruct (WriteCharacteristic p (b_brspMode b1) [x01] true) eqn:W;
    [discriminate|].
  intros E. inversion E; subst. splits; auto.
Qed.

Lemma Open_result_witness :
  b_brspTx exampleBRSP = Some (mkCharacteristic brspTx 4) /\
  txMode exampleBRSP = false.
Proof.
  destruct (@Open_result _ _ _ example_open)
    as (_ & _ & _ & _ & H & _ & _ & _ & _ & He).
  split; [rewrite H; reflexivity|].
  unfold engine_fields in He. inversion He. reflexivity.
Defined.

(** X10. An error of [OpenBRSP] is [ErrNotBRSP] or an error the peripheral
    gave to one of the five calls; [OpenBRSP] makes up no other. *)
Theorem Open_error_source (p : Peripheral) (e : error) :
  snd (fst (OpenBRSP p)) = Some e ->
  e = ErrNotBRSP \/
  snd (DiscoverServices p [brspService]) = Some e \/
  (exists s, snd (DiscoverCharacteristics p [brspMode; brspRx; brspTx] s)
             = Some e) \/
  (exists c, DiscoverDescriptors p c = Some e) \/
  (exists c f, SetIndicateValue p c f = Some e) \/
  (exists c, WriteCharacteristic p c [x01] true = Some e).
Proof.
  unfold OpenBRSP, init, discover.
  change (b_p (newBRSP p)) with p.
  destruct (DiscoverServices p [brspService]) as [svcs [e0|]]; simpl.
  { intros H. inversion H; subst. auto. }
  rewrite range_svcs_p. simpl.
  destruct (is_nil (b_brspService (range_svcs svcs (newBRSP p)))); simpl.
  { intros H. inversion H; subst. auto. }
  destruct (DiscoverCharacteristics p [brspMode; brspRx; brspTx]
              (b_brspService (range_svcs svcs (newBRSP p))))
    as [chars [e0|]] eqn:Ec; simpl.
  { intros H. inversion H; subst. right. right. left.
    eexists. rewrite Ec. reflexivity. }
  destruct (is_nil _ || is_nil _ || is_nil _); simpl.
  { intros H. inversion H; subst. auto. }
  rewrite !range_chars_p, !range_svcs_p. simpl.
  destruct (DiscoverDescriptors p _) as [e0|] eqn:Ed; simpl.
  { intros H. inversion H; subst. right. right. right. left.
    eexists. exact Ed. }
  rewrite !range_chars_p, !range_svcs_p. simpl.
  destruct (SetIndicateValue p _ false) as [e0|] eqn:S1; simpl.
  { intros H. inversion H; subst. do 4 right. left.
    eexists. eexists. exact S1. }
  destruct (SetIndicateValue p _ true) as [e0|] eqn:S2; simpl.
  { intros H. inversion H; subst. do 4 right. left.
    eexists. eexists. exact S2. }
  destruct (WriteCharacteristic p _ [x01] true) as [e0|] eqn:W; simpl.
  { intros H. inversion H; subst. do 5 right. eexists. exact W. }
  discriminate.
Qed.

Lemma Open_error_source_witness :
  snd (fst (OpenBRSP refusingPeripheral)) = Some (ErrTransport 7) /\
  (ErrTransport 7 = ErrNotBRSP \/
   snd (DiscoverServices refusingPeripheral [brspService])
     = Some (ErrTransport 7) \/
   (exists s, snd (DiscoverCharacteristics refusingPeripheral
                     [brspMode; brspRx; brspTx] s)
              = Some (ErrTransport 7)) \/
   (exists c, DiscoverDescriptors refusingPeripheral c
              = Some (ErrTransport 7)) \/
   (exists c f, SetIndicateValue refusingPeripheral c f
                = Some (ErrTransport 7)) \/
   (exists c, WriteCharacteristic refusingPeripheral c [x01] true
              = Some (ErrTransport 7))).
Proof.
  split; [vm_compute; reflexivity|].
  apply (Open_error_source refusingPeripheral). vm_compute. reflexivity.
Defined.

(** * The advertisement decoder: properties *)

(** ** Bytes, indices and slices *)

Lemma byte_val_range b : 0 <= byte_val b <= 255.
Proof.
  unfold byte_val. pose proof (Byte.to_nat_bounded b). lia.
Qed.

Lemma byte_of_val b : byte_of (byte_val b) = b.
Proof.
  unfold byte_of, byte_val. rewrite Nat2Z.id, Byte.of_to_nat. reflexivity.
Qed.

Lemma byte_val_of n : 0 <= n <= 255 -> byte_val (byte_of n) = n.
Proof.
  intros H. unfold byte_of, byte_val.
  destruct (Byte.of_nat (Z.to_nat n)) as [b|] eqn:E.
  - apply Byte.to_of_nat in E. lia.
  - apply Byte.of_nat_None_iff in E. lia.
Qed.

Lemma index_nth l i :
  (i < List.length l)%nat -> index l (Z.of_nat i) = Returns (nth i l x00).
Proof.
  intros H. unfold index, len.
  replace ((0 <=? Z.of_nat i) && (Z.of_nat i <? Z.of_nat (List.length l)))
    with true.
  - rewrite Nat2Z.id.
    rewrite (nth_error_nth' l x00 H). reflexivity.
  - symmetry. apply andb_true_iff. split; [apply Z.leb_le|apply Z.ltb_lt]; lia.
Qed.

Lemma byte_at_is chunk i v :
  (i < List.length chunk)%nat ->
  byte_at chunk (Z.of_nat i) v = Returns (byte_is chunk i v).
Proof.
  intros H. unfold byte_at, byte_is. rewrite index_nth by exact H.
  reflexivity.
Qed.

Lemma slice_chk_ok l lo hi :
  0 <= lo <= hi -> hi <= len l -> slice_chk l lo hi = Returns (slice l lo hi).
Proof.
  intros H1 H2. unfold slice_chk.
  replace ((0 <=? lo) && (lo <=? hi) && (hi <=? len l)) with true;
    [reflexivity|].
  symmetry. rewrite !andb_true_iff. repeat split; apply Z.leb_le; lia.
Qed.

Lemma slice_from_chk_ok l lo :
  0 <= lo <= len l -> slice_from_chk l lo = Returns (slice_from l lo).
Proof.
  intros H. unfold slice_from_chk.
  replace ((0 <=? lo) && (lo <=? len l)) with true; [reflexivity|].
  symmetry. rewrite !andb_true_iff. split; apply Z.leb_le; lia.
Qed.

Lemma bytes_eqb_eq a b : bytes_eqb a b = true <-> a = b.
Proof.
  unfold bytes_eqb. destruct (list_eq_dec Byte.byte_eq_dec a b);
    split; auto; discriminate.
Qed.

Lemma bytes_eqb_sym a b : bytes_eqb a b = bytes_eqb b a.
Proof.
  unfold bytes_eqb.
  destruct (list_eq_dec Byte.byte_eq_dec a b),
    (list_eq_dec Byte.byte_eq_dec b a); congruence.
Qed.

Lemma byte_eqb_refl v : Byte.eqb v v = true.
Proof. apply Byte.byte_dec_lb. reflexivity. Qed.

(** The closure [cmp] tells whether the slices are equal, and never
    reads past the end of [b]. *)
Lemma cmp_range_eq a : forall b i,
  0 <= i -> len (slice_from b i) = len a ->
  cmp_range a b i = Returns (bytes_eqb a (slice_from b i)).
Proof.
  induction a as [|v a IH]; intros b i Hi Hlen; simpl.
  - apply len_zero_nil in Hlen. rewrite Hlen. reflexivity.
  - assert (Hb : (Z.to_nat i < List.length b)%nat).
    { unfold len, slice_from in Hlen. rewrite length_skipn in Hlen.
      simpl List.length in Hlen. lia. }
    pose proof (index_nth b Hb) as Hidx. rewrite Z2Nat.id in Hidx by lia.
    rewrite Hidx. simpl.
    assert (Hsplit : slice_from b i =
                     nth (Z.to_nat i) b x00 :: slice_from b (i + 1)).
    { unfold slice_from. replace (Z.to_nat (i + 1)) with (S (Z.to_nat i)) by lia.
      clear - Hb. revert Hb. generalize (Z.to_nat i) as n. revert b.
      induction b as [|x b IHb]; intros n Hn; simpl in Hn; [lia|].
      destruct n as [|n]; [reflexivity|].
      simpl. apply IHb. lia. }
    rewrite Hsplit.
    destruct (Byte.eqb v (nth (Z.to_nat i) b x00)) eqn:E; simpl.
    + apply Byte.byte_dec_bl in E. subst v.
      rewrite IH.
      * unfold bytes_eqb.
        destruct (list_eq_dec Byte.byte_eq_dec a (slice_from b (i + 1))),
          (list_eq_dec Byte.byte_eq_dec
             (nth (Z.to_nat i) b x00 :: a)
             (nth (Z.to_nat i) b x00 :: slice_from b (i + 1)));
          congruence.
      * lia.
      * rewrite Hsplit in Hlen. unfold len in *. simpl List.length in Hlen. lia.
    + apply Byte.eqb_false in E. unfold bytes_eqb.
      destruct (list_eq_dec Byte.byte_eq_dec (v :: a)
                  (nth (Z.to_nat i) b x00 :: slice_from b (i + 1)));
        congruence.
Qed.

Lemma cmp_eq a b : cmp a b = Returns (bytes_eqb a b).
Proof.
  unfold cmp. destruct (Z.eqb_spec (len a) (len b)) as [E|E]; simpl.
  - rewrite cmp_range_eq.
    + rewrite slice_from_nonpos by lia. reflexivity.
    + lia.
    + rewrite slice_from_nonpos by lia. auto.
  - unfold bytes_eqb. destruct (list_eq_dec Byte.byte_eq_dec a b);
      [subst; contradiction|reflexivity].
Qed.

Lemma byte_at_isZ chunk i v :
  0 <= i < len chunk ->
  byte_at chunk i v = Returns (byte_is chunk (Z.to_nat i) v).
Proof.
  intros H. rewrite <- (Z2Nat.id i) at 1 by lia.
  apply byte_at_is. unfold len in H. lia.
Qed.

Lemma lazy_and_false m : lazy_and (Returns false) m = Returns false.
Proof. reflexivity. Qed.

Lemma lazy_and_true m : lazy_and (Returns true) m = m.
Proof. reflexivity. Qed.

Ltac nat_indices :=
  simpl Z.to_nat;
  repeat match goal with
         | |- context [Pos.to_nat ?p] =>
             let n := eval compute in (Pos.to_nat p) in
             change (Pos.to_nat p) with n
         end.

(** The tests of version 1 on a chunk of the announced length. *)
Lemma v1_chunk_step chunk st :
  framable chunk -> v1_chunk chunk (len chunk) st = Returns (v1_step st chunk).
Proof.
  intros Hf. unfold framable in Hf. unfold v1_chunk, v1_step.
  rewrite !cmp_eq. simpl and_then.
  destruct (bytes_eqb chunk v1Name); [reflexivity|].
  destruct (bytes_eqb chunk v1BRSP); [reflexivity|].
  unfold is_v1_msd.
  destruct (Z.eqb_spec (len chunk) 16) as [E|E].
  - rewrite !byte_at_isZ by lia. nat_indices.
    destruct (byte_is chunk 0 xff); [|reflexivity].
    destruct (byte_is chunk 1 x85); [|reflexivity].
    destruct (byte_is chunk 2 x00); [|reflexivity].
    destruct (byte_is chunk 3 xff); [|reflexivity].
    destruct (byte_is chunk 8 x01); [|reflexivity].
    destruct (byte_is chunk 15 x01); [|reflexivity].
    simpl. rewrite slice_from_chk_ok by lia. reflexivity.
  - rewrite ?lazy_and_false. reflexivity.
Qed.

Lemma v2_chunk_step chunk st :
  framable chunk -> v2_chunk chunk (len chunk) st = Returns (v2_step st chunk).
Proof.
  intros Hf. unfold framable in Hf. unfold v2_chunk, v2_step.
  unfold is_v2_name, is_v2_msd1, is_v2_msd2.
  destruct (Z.eqb_spec (len chunk) 3) as [E3|E3].
  - rewrite !byte_at_isZ by lia. nat_indices.
    replace (len chunk =? 17) with false by (symmetry; apply Z.eqb_neq; lia).
    replace (len chunk >? 5) with false
      by (symmetry; rewrite Z.gtb_ltb; apply Z.ltb_ge; lia).
    rewrite ?lazy_and_true, ?lazy_and_false.
    destruct (byte_is chunk 0 x09); [|reflexivity].
    destruct (byte_is chunk 1 x50); [|reflexivity].
    destruct (byte_is chunk 2 x52); reflexivity.
  - rewrite ?lazy_and_false. simpl and_then. cbv iota.
    destruct (Z.eqb_spec (len chunk) 17) as [E17|E17].
    + rewrite !byte_at_isZ by lia. nat_indices.
      replace (len chunk >? 5) with true by (symmetry; apply Z.gtb_lt; lia).
      rewrite ?lazy_and_true.
      destruct (byte_is chunk 0 xff); [|reflexivity].
      destruct (byte_is chunk 1 xc9); [|reflexivity].
      destruct (byte_is chunk 2 x02); [|reflexivity].
      destruct (byte_is chunk 3 x00) eqn:B3.
      * simpl. rewrite slice_from_chk_ok by lia. reflexivity.
      * simpl. destruct (byte_is chunk 3 x01); simpl;
          rewrite ?slice_from_chk_ok by lia; reflexivity.
    + rewrite ?lazy_and_false. simpl and_then. cbv iota.
      destruct (Z.gtb_spec (len chunk) 5) as [G|G].
      * rewrite !byte_at_isZ by lia. nat_indices.
        rewrite ?lazy_and_true.
        destruct (byte_is chunk 0 xff); [|reflexivity].
        destruct (byte_is chunk 1 xc9); [|reflexivity].
        destruct (byte_is chunk 2 x02); [|reflexivity].
        destruct (byte_is chunk 3 x01); simpl;
          rewrite ?slice_from_chk_ok by lia; reflexivity.
      * rewrite ?lazy_and_false. reflexivity.
Qed.

(** ** The loop over framed chunks *)

Lemma v1_loop_generic fuel : forall raw st,
  v1_loop fuel raw st = chunk_loop v1_chunk fuel raw st.
Proof.
  induction fuel as [|fuel IH]; intros raw st; simpl; [reflexivity|].
  destruct (len raw >? 1); [|reflexivity].
  destruct (index raw 0) as [r0| |]; simpl; try reflexivity.
  destruct ((byte_val r0 =? 0) || (byte_val r0 + 1 >? len raw)); [reflexivity|].
  destruct (slice_chk raw 1 (byte_val r0 + 1)) as [chunk| |]; simpl;
    try reflexivity.
  destruct (slice_from_chk raw (byte_val r0 + 1)) as [raw'| |]; simpl;
    try reflexivity.
  destruct (v1_chunk chunk (byte_val r0) st) as [st'| |]; simpl;
    try reflexivity.
  apply IH.
Qed.

Lemma v2_loop_generic fuel : forall raw st,
  v2_loop fuel raw st = chunk_loop v2_chunk fuel raw st.
Proof.
  induction fuel as [|fuel IH]; intros raw st; simpl; [reflexivity|].
  destruct (len raw >? 1); [|reflexivity].
  destruct (index raw 0) as [r0| |]; simpl; try reflexivity.
  destruct ((byte_val r0 =? 0) || (byte_val r0 + 1 >? len raw)); [reflexivity|].
  destruct (slice_chk raw 1 (byte_val r0 + 1)) as [chunk| |]; simpl;
    try reflexivity.
  destruct (slice_from_chk raw (byte_val r0 + 1)) as [raw'| |]; simpl;
    try reflexivity.
  destruct (v2_chunk chunk (byte_val r0) st) as [st'| |]; simpl;
    try reflexivity.
  apply IH.
Qed.

Lemma frames_cons c chunks : frames (c :: chunks) = frame c ++ frames chunks.
Proof. reflexivity. Qed.

Section ChunkLoop.
Context {S : Type}.
Variable body : list byte -> Z -> S -> Outcome S.
Variable step : S -> list byte -> S.
Hypothesis body_step :
  forall chunk st, framable chunk ->
    body chunk (len chunk) st = Returns (step st chunk).

Lemma len_cons (x : byte) l : len (x :: l) = len l + 1.
Proof. unfold len. simpl List.length. lia. Qed.

Lemma chunk_loop_S fuel raw st :
  chunk_loop body (Datatypes.S fuel) raw st =
  if len raw >? 1 then
    r0 <~ index raw 0 ;;
    if (byte_val r0 =? 0) || (byte_val r0 + 1 >? len raw) then Returns st
    else
      chunk <~ slice_chk raw 1 (byte_val r0 + 1) ;;
      raw' <~ slice_from_chk raw (byte_val r0 + 1) ;;
      st' <~ body chunk (byte_val r0) st ;;
      chunk_loop body fuel raw' st'
  else Returns st.
Proof. reflexivity. Qed.

(** A framed chunk in front is taken whole. *)
Lemma chunk_loop_frame fuel chunk rest st :
  framable chunk ->
  chunk_loop body (Datatypes.S fuel) (frame chunk ++ rest) st =
  chunk_loop body fuel rest (step st chunk).
Proof.
  intros Hf. pose proof Hf as [H1 H255].
  pose proof (len_nonneg rest) as Hr.
  assert (Hlen : len (frame chunk ++ rest) = len chunk + 1 + len rest).
  { rewrite len_app. unfold frame. rewrite len_cons. lia. }
  assert (Hidx : index (frame chunk ++ rest) 0 = Returns (byte_of (len chunk))).
  { change 0 with (Z.of_nat 0). rewrite index_nth; [reflexivity|].
    unfold frame. simpl. lia. }
  assert (Hchunk : slice (frame chunk ++ rest) 1 (len chunk + 1) = chunk).
  { unfold slice, frame. simpl. unfold slice_from. simpl.
    replace (len chunk + 1 - 1) with (len chunk) by lia.
    rewrite slice_to_app_le by lia. apply slice_to_all. lia. }
  assert (Hrest : slice_from (frame chunk ++ rest) (len chunk + 1) = rest).
  { unfold frame. change (byte_of (len chunk) :: chunk)
      with ([byte_of (len chunk)] ++ chunk).
    rewrite <- app_assoc.
    rewrite slice_from_app_ge by (unfold len; simpl; lia).
    replace (len chunk + 1 - len [byte_of (len chunk)]) with (len chunk)
      by (unfold len; simpl; lia).
    rewrite slice_from_app_ge by lia.
    apply slice_from_nonpos. lia. }
  revert Hlen Hidx Hchunk Hrest.
  generalize (frame chunk ++ rest) as raw. intros raw Hlen Hidx Hchunk Hrest.
  rewrite chunk_loop_S.
  replace (len raw >? 1) with true by (symmetry; apply Z.gtb_lt; lia).
  rewrite Hidx. unfold and_then at 1. rewrite byte_val_of by lia.
  replace ((len chunk =? 0) || (len chunk + 1 >? len raw)) with false.
  2:{ symmetry. apply orb_false_iff. split.
      - apply Z.eqb_neq. lia.
      - rewrite Z.gtb_ltb. apply Z.ltb_ge. lia. }
  rewrite slice_chk_ok by lia.
  rewrite slice_from_chk_ok by lia.
  rewrite Hchunk, Hrest. unfold and_then at 1 2.
  rewrite body_step by exact Hf. reflexivity.
Qed.

(** At bytes that stop it the loop returns what it has. *)
Lemma chunk_loop_stops fuel rest st :
  stops rest -> chunk_loop body (Datatypes.S fuel) rest st = Returns st.
Proof.
  intros Hs. rewrite chunk_loop_S.
  destruct rest as [|b rest']; [reflexivity|].
  destruct (Z.gtb_spec (len (b :: rest')) 1) as [G|G]; [|reflexivity].
  change 0 with (Z.of_nat 0). rewrite index_nth by (simpl; lia).
  simpl and_then. simpl nth.
  rewrite len_cons in *.
  destruct Hs as [Hnil|[H0|Hshort]].
  - subst rest'. unfold len in G. simpl in G. lia.
  - rewrite H0. reflexivity.
  - replace (byte_val b + 1 >? len rest' + 1) with true
      by (symmetry; apply Z.gtb_lt; lia).
    rewrite orb_true_r. reflexivity.
Qed.

Lemma chunk_loop_frames chunks : forall fuel rest st,
  Forall framable chunks -> stops rest ->
  (List.length chunks <= fuel)%nat ->
  chunk_loop body (Datatypes.S fuel) (frames chunks ++ rest) st =
  Returns (fold_left step chunks st).
Proof.
  induction chunks as [|c chunks IH]; intros fuel rest st Hf Hs Hfuel.
  - simpl. apply chunk_loop_stops. exact Hs.
  - inversion Hf as [|? ? Hc Hf']; subst.
    destruct fuel as [|fuel]; [simpl in Hfuel; lia|].
    rewrite frames_cons, <- app_assoc.
    rewrite chunk_loop_frame by exact Hc.
    simpl fold_left. apply IH; auto. simpl in Hfuel. lia.
Qed.
End ChunkLoop.

Lemma frames_length chunks :
  (2 * List.length chunks <= List.length (frames chunks) + 0)%nat \/
  ~ Forall framable chunks.
Proof.
  induction chunks as [|c chunks IH]; [left; simpl; lia|].
  destruct IH as [IH|IH].
  - destruct (Z_le_gt_dec 1 (len c)) as [H|H].
    + left. rewrite frames_cons, length_app. unfold frame.
      unfold len in H. simpl List.length. lia.
    + right. intros Hf. inversion Hf as [|? ? [Hc _] _]. lia.
  - right. intros Hf. inversion Hf. auto.
Qed.

Lemma frames_fuel chunks rest :
  Forall framable chunks ->
  (List.length chunks <= List.length (frames chunks ++ rest))%nat.
Proof.
  intros Hf. destruct (frames_length chunks) as [H|H]; [|contradiction].
  rewrite length_app. lia.
Qed.

(** Every advertisement is a row of framed chunks followed by bytes
    that stop the loop. *)
Lemma frames_of_raw n : forall raw,
  (List.length raw <= n)%nat ->
  exists chunks rest,
    raw = frames chunks ++ rest /\ Forall framable chunks /\ stops rest.
Proof.
  induction n as [|n IH]; intros raw Hn.
  - destruct raw; [|simpl in Hn; lia].
    exists [], []. simpl. auto.
  - destruct raw as [|b raw'].
    { exists [], []. simpl. auto. }
    pose proof (byte_val_range b) as Hb.
    pose proof (len_nonneg raw') as Hr.
    destruct (Z.eq_dec (byte_val b) 0) as [H0|H0].
    { exists [], (b :: raw'). simpl. auto. }
    destruct (Z_lt_ge_dec (len raw') (byte_val b)) as [Hs|Hs].
    { exists [], (b :: raw'). simpl. auto. }
    destruct (IH (slice_from raw' (byte_val b))) as (chunks & rest & E & Hf & Hst).
    { unfold slice_from. rewrite length_skipn. simpl in Hn. lia. }
    exists (slice_to raw' (byte_val b) :: chunks), rest.
    assert (Hl : len (slice_to raw' (byte_val b)) = byte_val b)
      by (apply len_slice_to; lia).
    split; [|split].
    + rewrite frames_cons. unfold frame. rewrite Hl, byte_of_val.
      simpl. f_equal. rewrite <- app_assoc, <- E. symmetry.
      apply slice_split.
    + constructor; [|exact Hf]. unfold framable. lia.
    + exact Hst.
Qed.

(** ** Little-endian values *)

Lemma lor_shiftl_add a b n :
  0 <= n -> 0 <= a < 2 ^ n -> Z.lor a (Z.shiftl b n) = a + 2 ^ n * b.
Proof.
  intros Hn Ha. rewrite Z.shiftl_mul_pow2 by lia.
  assert (Hand : Z.land a (b * 2 ^ n) = 0).
  2:{ rewrite <- (Z.lxor_lor _ _ Hand), <- (Z.add_nocarry_lxor _ _ Hand). lia. }
  apply Z.bits_inj'. intros k Hk. rewrite Z.land_spec, Z.bits_0.
  destruct (Z_lt_ge_dec k n) as [Hlt|Hge].
  - rewrite Z.mul_pow2_bits_low by lia. apply andb_false_r.
  - replace a with (a mod 2 ^ n) by (apply Z.mod_small; lia).
    rewrite Z.mod_pow2_bits_high by lia. reflexivity.
Qed.

Lemma index_four b0 b1 b2 b3 :
  index [b0; b1; b2; b3] 0 = Returns b0 /\
  index [b0; b1; b2; b3] 1 = Returns b1 /\
  index [b0; b1; b2; b3] 2 = Returns b2 /\
  index [b0; b1; b2; b3] 3 = Returns b3.
Proof. repeat split. Qed.

Lemma four_bytes (b : list byte) :
  len b = 4 ->
  b = [nth 0 b x00; nth 1 b x00; nth 2 b x00; nth 3 b x00].
Proof.
  unfold len. intros H.
  destruct b as [|b0 [|b1 [|b2 [|b3 [|b4 b]]]]]; simpl in H; try lia.
  reflexivity.
Qed.

Lemma two_bytes (b : list byte) :
  len b = 2 -> b = [nth 0 b x00; nth 1 b x00].
Proof.
  unfold len. intros H.
  destruct b as [|b0 [|b1 [|b2 b]]]; simpl in H; try lia.
  reflexivity.
Qed.

Lemma Uint32_le32 b : len b = 4 -> Uint32 b = Returns (le32 b).
Proof.
  intros H. rewrite (four_bytes b H) at 1. unfold Uint32.
  destruct (index_four (nth 0 b x00) (nth 1 b x00) (nth 2 b x00) (nth 3 b x00))
    as (I0 & I1 & I2 & I3).
  rewrite I0, I1, I2, I3. unfold and_then, le32.
  pose proof (byte_val_range (nth 0 b x00)).
  pose proof (byte_val_range (nth 1 b x00)).
  pose proof (byte_val_range (nth 2 b x00)).
  pose proof (byte_val_range (nth 3 b x00)).
  f_equal.
  set (v0 := byte_val (nth 0 b x00)) in *.
  set (v1 := byte_val (nth 1 b x00)) in *.
  set (v2 := byte_val (nth 2 b x00)) in *.
  set (v3 := byte_val (nth 3 b x00)) in *.
  assert (E : Z.lor v0 (Z.lor (Z.shiftl v1 8)
                          (Z.lor (Z.shiftl v2 16) (Z.shiftl v3 24))) =
              Z.lor v0 (Z.shiftl
                          (Z.lor v1 (Z.shiftl (Z.lor v2 (Z.shiftl v3 8)) 8)) 8)).
  { rewrite !Z.shiftl_lor, !Z.shiftl_shiftl by lia. reflexivity. }
  rewrite E. rewrite !lor_shiftl_add by lia.
  change (2 ^ 8) with 256. change (2 ^ 16) with 65536.
  change (2 ^ 24) with 16777216. lia.
Qed.

Lemma Uint16_le16 b : len b = 2 -> Uint16 b = Returns (le16 b).
Proof.
  intros H. rewrite (two_bytes b H) at 1. unfold Uint16, le16.
  assert (I0 : index [nth 0 b x00; nth 1 b x00] 0 = Returns (nth 0 b x00))
    by reflexivity.
  assert (I1 : index [nth 0 b x00; nth 1 b x00] 1 = Returns (nth 1 b x00))
    by reflexivity.
  rewrite I0, I1. unfold and_then.
  pose proof (byte_val_range (nth 0 b x00)).
  rewrite lor_shiftl_add by lia. reflexivity.
Qed.

Lemma le32_bytes32 v : 0 <= v < 2 ^ 32 -> le32 (bytes32 v) = v.
Proof.
  intros H. unfold le32, bytes32. simpl nth.
  rewrite !byte_val_of by (pose proof (Z.mod_pos_bound v 256);
    pose proof (Z.mod_pos_bound (v / 2 ^ 8) 256);
    pose proof (Z.mod_pos_bound (v / 2 ^ 16) 256);
    pose proof (Z.mod_pos_bound (v / 2 ^ 24) 256); lia).
  change (2 ^ 8) with 256. change (2 ^ 16) with 65536.
  change (2 ^ 24) with 16777216. change (2 ^ 32) with 4294967296 in H.
  Z.to_euclidean_division_equations. lia.
Qed.

Lemma le16_bytes16 v : 0 <= v < 2 ^ 16 -> le16 (bytes16 v) = v.
Proof.
  intros H. unfold le16, bytes16. simpl nth.
  rewrite !byte_val_of by (pose proof (Z.mod_pos_bound v 256);
    pose proof (Z.mod_pos_bound (v / 2 ^ 8) 256); lia).
  change (2 ^ 8) with 256. change (2 ^ 16) with 65536 in H.
  Z.to_euclidean_division_equations. lia.
Qed.

(** ** Version 1 on framed chunks *)

Lemma find_last_cons {A : Type} (f : A -> bool) (x : A) (l : list A) :
  find_last f (x :: l) =
  match find_last f l with
  | Some y => Some y
  | None => if f x then Some x else None
  end.
Proof. unfold find_last. simpl rev. apply find_snoc. Qed.

Lemma find_last_some {A : Type} (f : A -> bool) (l : list A) (x : A) :
  find_last f l = Some x -> In x l /\ f x = true.
Proof.
  unfold find_last. intros H. apply find_some in H.
  destruct H as [Hin Hf]. split; [apply in_rev; exact Hin|exact Hf].
Qed.

Lemma is_v1_msd_len chunk : is_v1_msd chunk = true -> len chunk = 16.
Proof.
  unfold is_v1_msd. rewrite !andb_true_iff.
  intros [[[[[[H _] _] _] _] _] _]. apply Z.eqb_eq. exact H.
Qed.

Lemma v1_fold chunks : forall st,
  s1_name (fold_left v1_step chunks st) =
    s1_name st || existsb (bytes_eqb v1Name) chunks /\
  s1_brsp (fold_left v1_step chunks st) =
    s1_brsp st || existsb (bytes_eqb v1BRSP) chunks /\
  s1_msd (fold_left v1_step chunks st) =
    match find_last is_v1_msd chunks with
    | Some m => Some (slice_from m 4)
    | None => s1_msd st
    end.
Proof.
  induction chunks as [|c chunks IH]; intros st.
  - simpl. rewrite !orb_false_r. auto.
  - simpl fold_left. simpl existsb. rewrite find_last_cons.
    destruct (IH (v1_step st c)) as (H1 & H2 & H3).
    rewrite H1, H2, H3. clear H1 H2 H3 IH.
    rewrite (bytes_eqb_sym v1Name c), (bytes_eqb_sym v1BRSP c).
    unfold v1_step.
    destruct (bytes_eqb c v1Name) eqn:En.
    + apply bytes_eqb_eq in En. subst c. simpl.
      rewrite orb_true_r.
      destruct (find_last is_v1_msd chunks); auto.
    + destruct (bytes_eqb c v1BRSP) eqn:Eb.
      * apply bytes_eqb_eq in Eb. subst c. simpl.
        rewrite orb_true_r.
        destruct (find_last is_v1_msd chunks); auto.
      * destruct (is_v1_msd c); simpl;
          destruct (find_last is_v1_msd chunks); auto.
Qed.

(** What [parseBlukeyV1Adv] does with the state the loop leaves. *)
Lemma v1_finish_msd m :
  is_v1_msd m = true ->
  (idb <~ slice_chk (slice_from m 4) 0 4 ;;
   id <~ Uint32 idb ;;
   keyb <~ slice_chk (slice_from m 4) 7 11 ;;
   key <~ Uint32 keyb ;;
   flags <~ index (slice_from m 4) 5 ;;
   status <~ index (slice_from m 4) 6 ;;
   Returns (Some (mkAdvV1 id key flags status))) =
  Returns (Some (v1_of_msd (slice_from m 4))).
Proof.
  intros Hm. apply is_v1_msd_len in Hm.
  assert (Hl : len (slice_from m 4) = 12) by (rewrite len_slice_from; lia).
  rewrite !slice_chk_ok by lia. simpl and_then.
  rewrite !Uint32_le32 by (rewrite len_slice; lia). simpl and_then.
  change 5 with (Z.of_nat 5). change 6 with (Z.of_nat 6).
  rewrite !index_nth by (unfold len in Hl; lia).
  reflexivity.
Qed.

(** The result of [parseBlukeyV1Adv] is read off the chunks: it is
    non-nil exactly when the name chunk and the service chunk are among
    them and a manufacturer chunk with the marks of version 1 is; the
    fields come from the last such chunk.  Bytes that stop the loop,
    and what follows them, do not count.  The call returns: it neither
    panics nor runs on. *)
Lemma parseV1_frames (chunks : list (list byte)) (rest : list byte) :
  Forall framable chunks -> stops rest ->
  parseBlukeyV1Adv (frames chunks ++ rest) = Returns (v1_decode chunks).
Proof.
  intros Hf Hs. unfold parseBlukeyV1Adv.
  rewrite v1_loop_generic.
  rewrite (chunk_loop_frames v1_chunk v1_step v1_chunk_step)
    by (auto using frames_fuel).
  simpl and_then.
  destruct (v1_fold chunks (mkV1State false false None)) as (H1 & H2 & H3).
  rewrite H1, H2, H3. simpl orb. unfold v1_decode.
  destruct (existsb (bytes_eqb v1Name) chunks && existsb (bytes_eqb v1BRSP) chunks);
    [|reflexivity].
  destruct (find_last is_v1_msd chunks) as [m|] eqn:Em; [|reflexivity].
  apply find_last_some in Em. destruct Em as [_ Hm].
  simpl option_map. apply v1_finish_msd. exact Hm.
Qed.

(** ** Version 2 on framed chunks *)

Lemma is_v2_msd1_len chunk : is_v2_msd1 chunk = true -> len chunk = 17.
Proof.
  unfold is_v2_msd1. rewrite !andb_true_iff.
  intros [[[[H _] _] _] _]. apply Z.eqb_eq. exact H.
Qed.

Lemma is_v2_msd2_len chunk : is_v2_msd2 chunk = true -> 5 < len chunk.
Proof.
  unfold is_v2_msd2. rewrite !andb_true_iff.
  intros [[[[H _] _] _] _]. apply Z.gtb_lt. exact H.
Qed.

(** The three tests of version 2 exclude one another. *)
Lemma v2_tests_disjoint chunk :
  (is_v2_name chunk = true -> is_v2_msd1 chunk = false /\ is_v2_msd2 chunk = false) /\
  (is_v2_msd1 chunk = true -> is_v2_msd2 chunk = false).
Proof.
  unfold is_v2_name, is_v2_msd1, is_v2_msd2. split.
  - rewrite !andb_true_iff. intros [[[H _] _] _]. apply Z.eqb_eq in H.
    replace (len chunk =? 17) with false by (symmetry; apply Z.eqb_neq; lia).
    replace (len chunk >? 5) with false
      by (symmetry; rewrite Z.gtb_ltb; apply Z.ltb_ge; lia).
    auto.
  - rewrite !andb_true_iff. intros [_ H3]. unfold byte_is in *.
    apply Byte.byte_dec_bl in H3. rewrite H3.
    rewrite !andb_false_r. reflexivity.
Qed.

Lemma v2_fold chunks : forall st,
  s2_name (fold_left v2_step chunks st) =
    s2_name st || existsb is_v2_name chunks /\
  s2_msd1 (fold_left v2_step chunks st) =
    match find_last is_v2_msd1 chunks with
    | Some m => Some (slice_from m 4)
    | None => s2_msd1 st
    end /\
  s2_msd2 (fold_left v2_step chunks st) =
    match find_last is_v2_msd2 chunks with
    | Some m => Some (slice_from m 4)
    | None => s2_msd2 st
    end.
Proof.
  induction chunks as [|c chunks IH]; intros st.
  - simpl. rewrite !orb_false_r. auto.
  - simpl fold_left. simpl existsb. rewrite !find_last_cons.
    destruct (IH (v2_step st c)) as (H1 & H2 & H3).
    rewrite H1, H2, H3. clear H1 H2 H3 IH.
    destruct (v2_tests_disjoint c) as [Dn D1].
    unfold v2_step.
    destruct (is_v2_name c) eqn:En.
    + destruct (Dn eq_refl) as [-> ->]. simpl. rewrite orb_true_r.
      destruct (find_last is_v2_msd1 chunks), (find_last is_v2_msd2 chunks);
        auto.
    + destruct (is_v2_msd1 c) eqn:E1.
      * rewrite (D1 eq_refl). simpl.
        destruct (find_last is_v2_msd1 chunks), (find_last is_v2_msd2 chunks);
          auto.
      * destruct (is_v2_msd2 c); simpl;
          destruct (find_last is_v2_msd1 chunks), (find_last is_v2_msd2 chunks);
          auto.
Qed.

Lemma copy_make (m : list byte) : fst (copy (make (len m)) m) = m.
Proof.
  rewrite copy_fst. pose proof (len_nonneg m).
  rewrite len_make by lia. rewrite Z.min_id.
  rewrite slice_to_all by lia.
  rewrite slice_from_all by (rewrite len_make; lia).
  apply app_nil_r.
Qed.

Lemma v2_finish_msd m partner :
  is_v2_msd1 m = true ->
  (idb <~ slice_chk (slice_from m 4) 0 4 ;;
   id <~ Uint32 idb ;;
   keyb <~ slice_chk (slice_from m 4) 4 8 ;;
   key <~ Uint32 keyb ;;
   flagsb <~ slice_chk (slice_from m 4) 8 10 ;;
   flags <~ Uint16 flagsb ;;
   fwb <~ slice_chk (slice_from m 4) 10 12 ;;
   fw <~ Uint16 fwb ;;
   Returns (Some (mkAdvV2 id key flags fw partner))) =
  Returns (Some (v2_of_msd (slice_from m 4) partner)).
Proof.
  intros Hm. apply is_v2_msd1_len in Hm.
  assert (Hl : len (slice_from m 4) = 13) by (rewrite len_slice_from; lia).
  rewrite !slice_chk_ok by lia. cbv beta iota delta [and_then].
  rewrite !Uint32_le32 by (rewrite len_slice; lia).
  rewrite !Uint16_le16 by (rewrite len_slice; lia).
  reflexivity.
Qed.

(** The result of [parseBlukeyV2Adv] is read off the chunks: it is
    non-nil exactly when a name chunk of version 2 and a first
    manufacturer chunk are among them; the fields come from the last
    first manufacturer chunk, and the partner data, if a second
    manufacturer chunk is there, is a copy of what the last of them
    carries behind its marks.  The call returns: it neither panics nor
    runs on. *)
Lemma parseV2_frames (chunks : list (list byte)) (rest : list byte) :
  Forall framable chunks -> stops rest ->
  parseBlukeyV2Adv (frames chunks ++ rest) = Returns (v2_decode chunks).
Proof.
  intros Hf Hs. unfold parseBlukeyV2Adv.
  rewrite v2_loop_generic.
  rewrite (chunk_loop_frames v2_chunk v2_step v2_chunk_step)
    by (auto using frames_fuel).
  unfold and_then at 1.
  destruct (v2_fold chunks (mkV2State false None None)) as (H1 & H2 & H3).
  rewrite H1, H2, H3. simpl orb. unfold v2_decode.
  destruct (existsb is_v2_name chunks); [|reflexivity].
  destruct (find_last is_v2_msd1 chunks) as [m|] eqn:Em; [|reflexivity].
  apply find_last_some in Em. destruct Em as [_ Hm].
  rewrite v2_finish_msd by exact Hm.
  destruct (find_last is_v2_msd2 chunks) as [m2|]; simpl option_map;
    [|reflexivity].
  rewrite copy_make. reflexivity.
Qed.

(** ** Whole advertisements *)

(** The advertisement of the examples with two stray bytes behind it:
    the length byte 5 announces more than is left. *)
Lemma parseV1_frames_example :
  parseBlukeyV1Adv (exampleV1Raw ++ [x05; x01]) =
  Returns (Some (mkAdvV1 305419896 2596069104 x09 x00)).
Proof.
  unfold exampleV1Raw. rewrite parseV1_frames.
  - reflexivity.
  - repeat constructor; vm_compute; discriminate.
  - simpl. right. right. vm_compute. reflexivity.
Defined.

Lemma parseV2_frames_example :
  parseBlukeyV2Adv (exampleV2Raw ++ [x00; x07]) =
  Returns (Some (mkAdvV2 305419896 2596069104 8200 258
                   (Some [xaa; xbb; xcc]))).
Proof.
  unfold exampleV2Raw. rewrite parseV2_frames.
  - reflexivity.
  - repeat constructor; vm_compute; discriminate.
  - simpl. right. left. reflexivity.
Defined.

(** X11. [ParseAdData] returns for every input, whatever the bytes: it never
    indexes or slices out of range and its loops end.  The input is a
    row of framed chunks up to the bytes that stop the loops, and the
    result is read off those chunks: version 1 if it recognises them,
    else version 2 if that does, else nil. *)
Theorem ParseAdData_total (raw : list byte) :
  exists chunks rest,
    raw = frames chunks ++ rest /\ Forall framable chunks /\ stops rest /\
    parseBlukeyV1Adv raw = Returns (v1_decode chunks) /\
    parseBlukeyV2Adv raw = Returns (v2_decode chunks) /\
    ParseAdData raw =
    Returns (match v1_decode chunks with
             | Some a => Some (AdvOfV1 a)
             | None => option_map AdvOfV2 (v2_decode chunks)
             end).
Proof.
  destruct (frames_of_raw (n := List.length raw) raw (le_n _))
    as (chunks & rest & E & Hf & Hs).
  exists chunks, rest. subst raw.
  pose proof (@parseV1_frames _ _ Hf Hs) as H1.
  pose proof (@parseV2_frames _ _ Hf Hs) as H2.
  split; [reflexivity|]. split; [exact Hf|]. split; [exact Hs|].
  split; [exact H1|]. split; [exact H2|].
  unfold ParseAdData. rewrite H1. unfold and_then at 1.
  destruct (v1_decode chunks); [reflexivity|].
  rewrite H2. unfold and_then.
  destruct (v2_decode chunks); reflexivity.
Qed.

Lemma frames_app l1 l2 : frames (l1 ++ l2) = frames l1 ++ frames l2.
Proof. unfold frames. rewrite map_app. apply concat_app. Qed.

Lemma len_frames_split l1 a l2 :
  len (frames (l1 ++ a :: l2)) = len (frames (l1 ++ l2)) + len a + 1.
Proof.
  rewrite !frames_app, frames_cons, !len_app. unfold frame.
  rewrite len_cons. lia.
Qed.

Lemma len_frames_in a chunks :
  In a chunks -> len a + 1 <= len (frames chunks).
Proof.
  intros H. apply in_split in H. destruct H as (l1 & l2 & ->).
  rewrite len_frames_split. pose proof (len_nonneg (frames (l1 ++ l2))). lia.
Qed.

Lemma len_frames_two a b chunks :
  In a chunks -> In b chunks -> a <> b ->
  len a + len b + 2 <= len (frames chunks).
Proof.
  intros Ha Hb Hne. apply in_split in Ha. destruct Ha as (l1 & l2 & ->).
  rewrite len_frames_split.
  assert (Hb' : In b (l1 ++ l2)).
  { apply in_app_or in Hb. apply in_or_app.
    destruct Hb as [H|[H|H]]; auto. congruence. }
  pose proof (@len_frames_in _ _ Hb'). lia.
Qed.

Lemma len_frames_three a b c chunks :
  In a chunks -> In b chunks -> In c chunks ->
  a <> b -> a <> c -> b <> c ->
  len a + len b + len c + 3 <= len (frames chunks).
Proof.
  intros Ha Hb Hc Hab Hac Hbc.
  apply in_split in Ha. destruct Ha as (l1 & l2 & ->).
  rewrite len_frames_split.
  assert (Hb' : In b (l1 ++ l2)).
  { apply in_app_or in Hb. apply in_or_app.
    destruct Hb as [H|[H|H]]; auto. congruence. }
  assert (Hc' : In c (l1 ++ l2)).
  { apply in_app_or in Hc. apply in_or_app.
    destruct Hc as [H|[H|H]]; auto. congruence. }
  pose proof (@len_frames_two _ _ _ Hb' Hc' Hbc). lia.
Qed.

Lemma existsb_bytes_in a chunks :
  existsb (bytes_eqb a) chunks = true -> In a chunks.
Proof.
  intros H. apply existsb_exists in H. destruct H as (x & Hin & Heq).
  apply bytes_eqb_eq in Heq. subst x. exact Hin.
Qed.

(** X12. No advertisement shorter than 45 bytes is one of version 1, and
    none shorter than 22 bytes is one of version 2: the chunks each
    version asks for do not fit. *)
Theorem parse_min_length (raw : list byte) :
  (forall a, parseBlukeyV1Adv raw = Returns (Some a) -> 45 <= len raw) /\
  (forall a, parseBlukeyV2Adv raw = Returns (Some a) -> 22 <= len raw).
Proof.
  destruct (frames_of_raw (n := List.length raw) raw (le_n _))
    as (chunks & rest & E & Hf & Hs).
  pose proof (@parseV1_frames _ _ Hf Hs) as H1.
  pose proof (@parseV2_frames _ _ Hf Hs) as H2.
  rewrite <- E in H1, H2.
  pose proof (len_nonneg rest) as Hr.
  assert (Hlen : len raw = len (frames chunks) + len rest)
    by (rewrite E; apply len_app).
  split; intros a Ha.
  - rewrite H1 in Ha. inversion Ha as [Hd]. clear Ha. revert Hd.
    unfold v1_decode.
    destruct (existsb (bytes_eqb v1Name) chunks) eqn:En; [|discriminate].
    destruct (existsb (bytes_eqb v1BRSP) chunks) eqn:Eb; [|discriminate].
    destruct (find_last is_v1_msd chunks) as [m|] eqn:Em; [|discriminate].
    intros _. apply find_last_some in Em. destruct Em as [Hin Hm].
    apply is_v1_msd_len in Hm.
    apply existsb_bytes_in in En. apply existsb_bytes_in in Eb.
    assert (Hn9 : len v1Name = 9) by reflexivity.
    assert (Hb17 : len v1BRSP = 17) by reflexivity.
    pose proof (@len_frames_three v1Name v1BRSP m chunks En Eb Hin) as H.
    rewrite Hn9, Hb17, Hm in H.
    assert (45 <= len (frames chunks)); [|lia].
    apply H.
    + discriminate.
    + intros <-. rewrite Hn9 in Hm. lia.
    + intros <-. rewrite Hb17 in Hm. lia.
  - rewrite H2 in Ha. inversion Ha as [Hd]. clear Ha. revert Hd.
    unfold v2_decode.
    destruct (existsb is_v2_name chunks) eqn:En; [|discriminate].
    destruct (find_last is_v2_msd1 chunks) as [m|] eqn:Em; [|discriminate].
    intros _. apply find_last_some in Em. destruct Em as [Hin Hm].
    apply existsb_exists in En. destruct En as (nm & Hnin & Hnm).
    assert (Hn3 : len nm = 3).
    { revert Hnm. unfold is_v2_name. rewrite !andb_true_iff.
      intros [[[H _] _] _]. apply Z.eqb_eq. exact H. }
    apply is_v2_msd1_len in Hm.
    assert (Hne : nm <> m) by (intros <-; lia).
    pose proof (@len_frames_two _ _ _ Hnin Hin Hne). lia.
Qed.

Lemma parse_min_length_witness : 45 <= len exampleV1Raw.
Proof.
  apply (proj1 (parse_min_length exampleV1Raw)
           (mkAdvV1 305419896 2596069104 x09 x00)).
  vm_compute. reflexivity.
Defined.

(** X13. Round trip of version 1: among any framable chunks that hold the
    name chunk and the service chunk, and whose last manufacturer chunk
    is the one a device builds from an identity, a key, its flags and
    its status, [ParseAdData] gives back exactly these, whatever stops
    the loop behind them; the device can transact when its status is
    ready, and needs maintenance unless its flags say none. *)
Theorem V1_round_trip (chunks : list (list byte)) (rest : list byte)
    (id key : Z) (flags status : byte) :
  Forall framable chunks -> stops rest ->
  In v1Name chunks -> In v1BRSP chunks ->
  find_last is_v1_msd chunks = Some (v1_msd_chunk id key flags status) ->
  0 <= id < 2 ^ 32 -> 0 <= key < 2 ^ 32 ->
  exists a,
    ParseAdData (frames chunks ++ rest) = Returns (Some a) /\
    a = AdvOfV1 (mkAdvV1 id key flags status) /\
    DeviceId a = id /\ AuthKey a = key /\
    CanTransact a = Byte.eqb status AdvV1ready /\
    NeedsMaintenance a = negb (Byte.eqb flags AdvV1none).
Proof.
  intros Hf Hs Hn Hb Hm Hid Hkey.
  exists (AdvOfV1 (mkAdvV1 id key flags status)).
  split; [|repeat split].
  unfold ParseAdData. rewrite (@parseV1_frames _ _ Hf Hs).
  unfold v1_decode.
  assert (En : existsb (bytes_eqb v1Name) chunks = true).
  { apply existsb_exists. exists v1Name. split; [exact Hn|].
    apply bytes_eqb_eq. reflexivity. }
  assert (Eb : existsb (bytes_eqb v1BRSP) chunks = true).
  { apply existsb_exists. exists v1BRSP. split; [exact Hb|].
    apply bytes_eqb_eq. reflexivity. }
  rewrite En, Eb, Hm. simpl option_map.
  assert (Hv : v1_of_msd (slice_from (v1_msd_chunk id key flags status) 4) =
               mkAdvV1 (le32 (bytes32 id)) (le32 (bytes32 key)) flags status)
    by reflexivity.
  rewrite Hv, !le32_bytes32 by assumption. reflexivity.
Qed.

Lemma V1_round_trip_witness :
  exists a,
    ParseAdData exampleV1Raw = Returns (Some a) /\
    DeviceId a = 305419896 /\ CanTransact a = true.
Proof.
  destruct (@V1_round_trip
              [v1Name; [x01; x06]; v1BRSP;
               v1_msd_chunk 305419896 2596069104 x09 x00]
              [] 305419896 2596069104 x09 x00)
    as (a & E & _ & Hd & _ & Hc & _).
  - repeat constructor; vm_compute; discriminate.
  - exact I.
  - simpl. auto.
  - simpl. auto.
  - reflexivity.
  - lia.
  - lia.
  - exists a. rewrite app_nil_r in E. split; [exact E|]. split; [exact Hd|].
    rewrite Hc. reflexivity.
Defined.

(** X14. Round trip of version 2: among any framable chunks that hold a name
    chunk of version 2 but not the name chunk of version 1, and whose
    last first manufacturer chunk is the one a device builds from an
    identity, a key, its flags and its firmware version, [ParseAdData]
    gives back exactly these, with the partner data of the last second
    manufacturer chunk if there is one. *)
Theorem V2_round_trip (chunks : list (list byte)) (rest : list byte)
    (id key flags fw : Z) (pad : byte) :
  Forall framable chunks -> stops rest ->
  existsb is_v2_name chunks = true ->
  ~ In v1Name chunks ->
  find_last is_v2_msd1 chunks = Some (v2_msd1_chunk id key flags fw pad) ->
  0 <= id < 2 ^ 32 -> 0 <= key < 2 ^ 32 ->
  0 <= flags < 2 ^ 16 -> 0 <= fw < 2 ^ 16 ->
  ParseAdData (frames chunks ++ rest) =
  Returns (Some (AdvOfV2
                   (mkAdvV2 id key flags fw
                      (option_map (fun c => slice_from c 4)
                         (find_last is_v2_msd2 chunks))))).
Proof.
  intros Hf Hs Hn Hno Hm Hid Hkey Hflags Hfw.
  unfold ParseAdData. rewrite (@parseV1_frames _ _ Hf Hs).
  assert (E1 : v1_decode chunks = None).
  { unfold v1_decode.
    destruct (existsb (bytes_eqb v1Name) chunks) eqn:En; [|reflexivity].
    apply existsb_bytes_in in En. contradiction. }
  rewrite E1. unfold and_then at 1.
  rewrite (@parseV2_frames _ _ Hf Hs). unfold and_then.
  unfold v2_decode. rewrite Hn, Hm.
  assert (Hv : forall partner,
            v2_of_msd (slice_from (v2_msd1_chunk id key flags fw pad) 4) partner =
            mkAdvV2 (le32 (bytes32 id)) (le32 (bytes32 key))
              (le16 (bytes16 flags)) (le16 (bytes16 fw)) partner)
    by reflexivity.
  rewrite Hv, !le32_bytes32, !le16_bytes16 by assumption. reflexivity.
Qed.

Lemma V2_round_trip_witness :
  ParseAdData exampleV2Raw =
  Returns (Some (AdvOfV2
                   (mkAdvV2 305419896 2596069104 8200 258
                      (Some [xaa; xbb; xcc])))).
Proof.
  pose proof (@V2_round_trip
                [[x01; x06]; v2Name;
                 v2_msd1_chunk 305419896 2596069104 8200 258 x00;
                 v2_msd2_chunk [xaa; xbb; xcc]]
                [] 305419896 2596069104 8200 258 x00) as H.
  rewrite app_nil_r in H. apply H.
  - repeat constructor; vm_compute; discriminate.
  - exact I.
  - reflexivity.
  - simpl. intros [H0|[H0|[H0|[H0|[]]]]]; discriminate H0.
  - reflexivity.
  - lia.
  - lia.
  - lia.
  - lia.
Defined.

(** ** The methods of an advertisement *)

Lemma land_pow2 (f k : Z) :
  0 <= k -> (Z.land f (2 ^ k) =? 0) = negb (Z.testbit f k).
Proof.
  intros Hk.
  assert (E : Z.land f (2 ^ k) = if Z.testbit f k then 2 ^ k else 0).
  { apply Z.bits_inj'. intros n Hn.
    rewrite Z.land_spec, (Z.pow2_bits_eqb k n Hk).
    destruct (Z.eqb_spec k n) as [->|Hne].
    - destruct (Z.testbit f n) eqn:Eb.
      + rewrite (Z.pow2_bits_eqb n n Hn), Z.eqb_refl. reflexivity.
      + rewrite Z.bits_0. reflexivity.
    - rewrite andb_false_r. destruct (Z.testbit f k).
      + rewrite (Z.pow2_bits_eqb k n Hk).
        symmetry. apply Z.eqb_neq. exact Hne.
      + rewrite Z.bits_0. reflexivity. }
  rewrite E. destruct (Z.testbit f k); simpl.
  - apply Z.eqb_neq. pose proof (Z.pow_pos_nonneg 2 k). lia.
  - reflexivity.
Qed.

Lemma lor_eqb0 (a b : Z) : (Z.lor a b =? 0) = (a =? 0) && (b =? 0).
Proof.
  destruct (Z.eqb_spec (Z.lor a b) 0) as [E|E].
  - apply Z.lor_eq_0_iff in E. destruct E as [-> ->]. reflexivity.
  - destruct (Z.eqb_spec a 0) as [->|]; [|reflexivity].
    destruct (Z.eqb_spec b 0) as [->|]; [|reflexivity].
    exfalso. apply E. reflexivity.
Qed.

(** X15. The methods of version 2 read off the bits of the flags: the device
    can transact when the three status bits are clear or bit 13 is set,
    and it needs maintenance when one of the pending bits 10 and 11 or
    one of the connection alarm bits 3, 4 and 5 is set.  The machine
    alarm bits 6 to 9 count for neither. *)
Theorem V2_flag_bits (v2 : AdvV2) :
  let bit := Z.testbit (v2_Flags v2) in
  V2_CanTransact v2 =
    (negb (bit 0) && negb (bit 1) && negb (bit 2)) || bit 13 /\
  V2_NeedsMaintenance v2 =
    bit 11 || bit 10 || bit 3 || bit 4 || bit 5.
Proof.
  intros bit. subst bit. unfold V2_CanTransact, V2_NeedsMaintenance.
  set (f := v2_Flags v2).
  change AdvV2statusMask with (Z.lor (2 ^ 0) (Z.lor (2 ^ 1) (2 ^ 2))).
  change AdvV2statusReady with 0.
  change AdvV2canTransact with (2 ^ 13).
  change (Z.lor AdvV2cashPending AdvV2cashlessPending)
    with (Z.lor (2 ^ 11) (2 ^ 10)).
  change AdvV2connAlarmMask with (Z.lor (2 ^ 3) (Z.lor (2 ^ 4) (2 ^ 5))).
  change AdvV2connAlarmNone with 0.
  rewrite !Z.land_lor_distr_r, !lor_eqb0, !land_pow2 by lia.
  split.
  - destruct (Z.testbit f 0), (Z.testbit f 1), (Z.testbit f 2),
      (Z.testbit f 13); reflexivity.
  - destruct (Z.testbit f 11), (Z.testbit f 10), (Z.testbit f 3),
      (Z.testbit f 4), (Z.testbit f 5); reflexivity.
Qed.

(** X16. Through the interface, an advertisement that says it does not
    support maintenance says it needs it: only version 1 can say the
    first, with a flags byte of zero, which is not the byte that means
    no maintenance. *)
Theorem unsupported_needs_maintenance (a : Adv) :
  SupportsMaintenance a = false -> NeedsMaintenance a = true.
Proof.
  destruct a as [v1|v2]; simpl; [|discriminate].
  unfold V1_SupportsMaintenance, V1_NeedsMaintenance.
  destruct (Byte.eqb (v1_Flags v1) x00) eqn:E; [|discriminate].
  intros _. apply Byte.byte_dec_bl in E. rewrite E. reflexivity.
Qed.

Lemma unsupported_needs_maintenance_witness :
  NeedsMaintenance (AdvOfV1 (mkAdvV1 1 2 x00 x00)) = true.
Proof.
  apply unsupported_needs_maintenance. reflexivity.
Defined.

Lemma le32_range b : 0 <= le32 b < 2 ^ 32.
Proof.
  unfold le32.
  pose proof (byte_val_range (nth 0 b x00)).
  pose proof (byte_val_range (nth 1 b x00)).
  pose proof (byte_val_range (nth 2 b x00)).
  pose proof (byte_val_range (nth 3 b x00)).
  change (2 ^ 8) with 256. change (2 ^ 16) with 65536.
  change (2 ^ 24) with 16777216. change (2 ^ 32) with 4294967296. lia.
Qed.

Lemma le16_range b : 0 <= le16 b < 2 ^ 16.
Proof.
  unfold le16.
  pose proof (byte_val_range (nth 0 b x00)).
  pose proof (byte_val_range (nth 1 b x00)).
  change (2 ^ 8) with 256. change (2 ^ 16) with 65536. lia.
Qed.

(** X17. Whatever [ParseAdData] returns fits the types of the source: the
    identity and the key are 32-bit values, the flags and the firmware
    version of version 2 are 16-bit values, and partner data, when
    there is any, has at least two bytes and is at least five bytes
    shorter than the advertisement. *)
Theorem parsed_fields_fit (raw : list byte) (a : Adv) :
  ParseAdData raw = Returns (Some a) ->
  0 <= DeviceId a < 2 ^ 32 /\ 0 <= AuthKey a < 2 ^ 32 /\
  match a with
  | AdvOfV1 _ => True
  | AdvOfV2 v2 =>
      0 <= v2_Flags v2 < 2 ^ 16 /\ 0 <= v2_FwVersion v2 < 2 ^ 16 /\
      forall p, v2_PartnerData v2 = Some p -> 2 <= len p <= len raw - 5
  end.
Proof.
  destruct (frames_of_raw (n := List.length raw) raw (le_n _))
    as (chunks & rest & E & Hf & Hs).
  pose proof (@parseV1_frames _ _ Hf Hs) as H1.
  pose proof (@parseV2_frames _ _ Hf Hs) as H2.
  rewrite <- E in H1, H2.
  unfold ParseAdData. rewrite H1. unfold and_then at 1.
  destruct (v1_decode chunks) as [v1|] eqn:D1.
  - intros Ha. inversion Ha; subst a. clear Ha. revert D1.
    unfold v1_decode.
    destruct (_ && _); [|discriminate].
    destruct (find_last is_v1_msd chunks); [|discriminate].
    simpl. intros D. inversion D; subst v1. simpl.
    split; [apply le32_range|]. split; [apply le32_range|exact I].
  - rewrite H2. unfold and_then.
    destruct (v2_decode chunks) as [v2|] eqn:D2; [|discriminate].
    intros Ha. inversion Ha; subst a. clear Ha. revert D2.
    unfold v2_decode.
    destruct (existsb is_v2_name chunks); [|discriminate].
    destruct (find_last is_v2_msd1 chunks); [|discriminate].
    intros D. inversion D; subst v2. simpl.
    split; [apply le32_range|]. split; [apply le32_range|].
    split; [apply le16_range|]. split; [apply le16_range|].
    intros p.
    destruct (find_last is_v2_msd2 chunks) as [c|] eqn:E2; [|discriminate].
    simpl. intros Hp. inversion Hp; subst p. clear Hp.
    apply find_last_some in E2. destruct E2 as [Hin Hc].
    apply is_v2_msd2_len in Hc.
    pose proof (@len_frames_in _ _ Hin) as Hl.
    pose proof (len_nonneg rest) as Hr.
    assert (Hraw : len raw = len (frames chunks) + len rest)
      by (rewrite E; apply len_app).
    rewrite len_slice_from by lia. lia.
Qed.

Lemma parsed_fields_fit_witness :
  0 <= 305419896 < 2 ^ 32 /\ len [xaa; xbb; xcc] <= len exampleV2Raw - 5.
Proof.
  destruct (@parsed_fields_fit exampleV2Raw
              (AdvOfV2 (mkAdvV2 305419896 2596069104 8200 258
                          (Some [xaa; xbb; xcc]))))
    as (Hid & _ & _ & _ & Hp).
  - vm_compute. reflexivity.
  - split; [exact Hid|]. apply (Hp [xaa; xbb; xcc] eq_refl).
Defined.
